(** * True Random Shuffle: credential lifecycle, request executor,
      paged fetch, shuffle and queue submission

    A shallow embedding of [src/utils/spotify.ts],
    [src/hooks/useSpotifyQueries.ts] and the redirect screen's token
    exchange.  Asynchronous functions are functions from a [World] to a
    [Result] and a new [World]; a [World] holds the key-value storage
    (AsyncStorage), the clock, and the trace of what the program did to the
    outside (requests issued, timers awaited, progress callbacks fired).
    What the outside answers is given by an [Env]: the network's reply to
    a request may depend on everything that happened before it.

    Modelling choices:
    - numbers are integers; [String(n)] prints them in decimal and
      [Number(s)] reads decimal strings back, anything else being NaN;
    - the requests of one concurrency window are followed in the order in
      which the loop issues them, and [Promise.all] keeps that order;
    - [queryClient.fetchQuery] runs its [queryFn] (nothing is cached);
    - [console] output is not part of the trace. *)

From Stdlib Require Import ZArith QArith Qround String Ascii List Lia DecimalString.
From stdpp Require Import base option gmap strings list.

Local Open Scope string_scope.
Local Open Scope Z_scope.

(** ** JavaScript values and helpers *)

(** A thrown [Error]: its message, and the [status] property that the
    callers probe with [error?.status]. *)
Record JsError := mkError { message : string; err_status : option Z }.

(** [new Error(msg)] *)
Definition new_Error (msg : string) : JsError :=
  {| message := msg; err_status := None |}.

Inductive Result (A : Type) : Type :=
| Ret (a : A)
| Throw (e : JsError).
Arguments Ret {A} a.
Arguments Throw {A} e.

(** [hay.includes(needle)] *)
Fixpoint includes (hay needle : string) : bool :=
  String.prefix needle hay ||
  match hay with
  | EmptyString => false
  | String _ rest => includes rest needle
  end.

(** Truthiness of [string | null | undefined]: the empty string is falsy. *)
Definition truthy_str (s : option string) : bool :=
  match s with
  | Some (String _ _) => true
  | _ => false
  end.

(** Truthiness of [number | null | undefined]: zero is falsy. *)
Definition truthy_num (n : option Z) : bool :=
  match n with
  | Some z => negb (z =? 0)
  | None => false
  end.

(** [x || dflt] on strings *)
Definition str_or (s : option string) (dflt : string) : string :=
  match s with
  | Some (String a r) => String a r
  | _ => dflt
  end.

(** [String(n)] for an integral number. *)
Definition String_of_number (z : Z) : string :=
  NilZero.string_of_int (Z.to_int z).

(** [Number(s)] for the decimal strings the program stores; [None] is NaN. *)
Definition Number_of_string (s : string) : option Z :=
  Z.of_int <$> NilZero.int_of_string s.

(** ** HTTP *)

Inductive ReqBody :=
| NoBody
| FormBody (fields : list (string * string))
| PlayBody (uris : list string) (position_ms : option Z)
| TransferBody (device_ids : list string) (play : bool).

Record Request := mkRequest {
  url : string;
  method : string;
  authorization : option string;
  req_body : ReqBody
}.

Record TokenData := mkTokenData {
  access_token : option string;
  refresh_token : option string;
  expires_in : option Z
}.

Record SpotifyTrack := mkTrack { id : string; name : string; uri : string }.

(** One element of [items]: the provider sends [track: null] for tracks
    removed from the catalogue. *)
Record Item := mkItem { track : option SpotifyTrack }.

Record Page := mkPage { items : option (list Item); total : Z }.

Record Device := mkDevice {
  dev_id : string; is_active : bool; dev_name : string; dev_type : string
}.

(** The decoded JSON bodies the program looks into. *)
Inductive Json :=
| JToken (d : TokenData)
| JPage (p : Page)
| JDevices (devices : list Device)
| JErrorObj (error_message : option string)
| JOther.

(** A body that does not parse makes [response.json()] reject with the
    parser's error. *)
Inductive Body :=
| BodyInvalid (parse_error : JsError)
| BodyJson (j : Json).

Record Response := mkResponse {
  status : Z;
  content_type : option string;
  retry_after : option string;
  body : Body
}.

(** [response.ok] *)
Definition ok (r : Response) : bool := (200 <=? status r) && (status r <=? 299).

Inductive FetchOutcome :=
| Rejected (e : JsError)
| Responded (r : Response).

Record NetReply := mkReply { latency : Z; outcome : FetchOutcome }.

(** ** World and environment *)

Inductive Event :=
| EFetch (req : Request)
| ESleep (ms : Z)
| ETimer (ms : Z)
| EOpenURL (link : string)
| EOpenBrowser (link : string)
| EProgress (progress total : nat)
| EProgressUpdate (isQueueing : bool) (progress total : nat) (msg : option string).

Record World := mkWorld {
  storage : gmap string string;
  now : Z;
  trace : list Event;
  drawn : nat
}.

(** What [AsyncStorage.setItem(key, undefined)] does is decided by the
    storage library, not by this repository. *)
Inductive UndefinedPolicy :=
| RejectUndefined
| StoreText (s : string)
| IgnoreUndefined.

Inductive LinkOutcome := CanOpenThrows | CannotOpen | CanOpen.

Record Env := mkEnv {
  net : list Event → Request → NetReply;
  random : nat → Z;
  linking : string → LinkOutcome;
  setItem_undefined : UndefinedPolicy;
  CLIENT_ID : string;
  REDIRECT_URI : string;
  window_location_origin : string
}.

(** ** The monad of asynchronous functions *)

Definition M (A : Type) : Type := World → Result A * World.

Definition ret {A} (a : A) : M A := λ w, (Ret a, w).
Definition throw {A} (e : JsError) : M A := λ w, (Throw e, w).

Definition bind {A B} (m : M A) (k : A → M B) : M B :=
  λ w, match m w with
       | (Ret a, w') => k a w'
       | (Throw e, w') => (Throw e, w')
       end.

(** [try { m } catch (error) { handler error }] *)
Definition try_catch {A} (m : M A) (handler : JsError → M A) : M A :=
  λ w, match m w with
       | (Ret a, w') => (Ret a, w')
       | (Throw e, w') => handler e w'
       end.

Notation "'let*' x := c1 'in' c2" := (bind c1 (λ x, c2))
  (at level 10, x name, c1 at level 100, c2 at level 200).
Notation "c1 >> c2" := (bind c1 (λ _, c2))
  (at level 100, c2 at level 200, right associativity).

Definition log (e : Event) : M unit :=
  λ w, (Ret tt, {| storage := storage w; now := now w;
                   trace := trace w ++ [e]; drawn := drawn w |}).

(** [Date.now()] *)
Definition Date_now : M Z := λ w, (Ret (now w), w).

(** [await new Promise(resolve => setTimeout(resolve, ms))] *)
Definition sleep (ms : Z) : M unit :=
  λ w, (Ret tt, {| storage := storage w; now := now w + ms;
                   trace := trace w ++ [ESleep ms]; drawn := drawn w |}).

Section Program.
Variable env : Env.

(** [fetch(url, init)]: the request is recorded, the clock advances by the
    latency, and the environment's reply resolves or rejects the promise. *)
Definition fetch (req : Request) : M Response :=
  λ w, let reply := net env (trace w) req in
       let w' := {| storage := storage w; now := now w + latency reply;
                    trace := trace w ++ [EFetch req]; drawn := drawn w |} in
       match outcome reply with
       | Rejected e => (Throw e, w')
       | Responded r => (Ret r, w')
       end.

(** [response.json()] *)
Definition json (r : Response) : M Json :=
  match body r with
  | BodyInvalid e => throw e
  | BodyJson j => ret j
  end.

(** ** AsyncStorage *)

Definition getItem (key : string) : M (option string) :=
  λ w, (Ret (storage w !! key), w).

Definition with_storage (f : gmap string string → gmap string string) : M unit :=
  λ w, (Ret tt, {| storage := f (storage w); now := now w;
                   trace := trace w; drawn := drawn w |}).

Definition setItem (key value : string) : M unit :=
  with_storage (insert key value).

Definition removeItem (key : string) : M unit :=
  with_storage (delete key).

Definition multiRemove (keys : list string) : M unit :=
  with_storage (λ m, foldr delete m keys).

(** [setItem] handed a value that may be [undefined]. *)
Definition setItem_opt (key : string) (value : option string) : M unit :=
  match value with
  | Some v => setItem key v
  | None =>
      match setItem_undefined env with
      | RejectUndefined =>
          throw (new_Error "[AsyncStorage] Passing null/undefined as value is not supported.")
      | StoreText s => setItem key s
      | IgnoreUndefined => ret tt
      end
  end.

Definition getAccessToken : M (option string) := getItem "spotify_access_token".
Definition getRefreshToken : M (option string) := getItem "spotify_refresh_token".

Definition getAccessTokenExpiryTs : M (option Z) :=
  let* expiryTsStr := getItem "spotify_access_expiry_ts" in
  ret (if truthy_str expiryTsStr
       then from_option Number_of_string None expiryTsStr
       else None).

Definition setAccessToken (accessToken : string) : M unit :=
  setItem "spotify_access_token" accessToken.
Definition setRefreshToken (refreshToken : option string) : M unit :=
  setItem_opt "spotify_refresh_token" refreshToken.
Definition setAccessTokenExpiryTs (expiryTs : Z) : M unit :=
  setItem "spotify_access_expiry_ts" (String_of_number expiryTs).

Definition logout : M unit :=
  multiRemove ["spotify_access_token"; "spotify_refresh_token";
               "spotify_code_verifier"; "spotify_access_expiry_ts"].

End Program.

(** ** Token lifecycle *)

Section TokenLifecycle.
Variable env : Env.

Definition TOKEN : string := "https://accounts.spotify.com/api/token".

(** The fields of a token response; a body of another shape has none. *)
Definition token_view (j : Json) : TokenData :=
  match j with
  | JToken d => d
  | _ => {| access_token := None; refresh_token := None; expires_in := None |}
  end.

Definition token_request (fields : list (string * string)) : Request :=
  {| url := TOKEN; method := "POST"; authorization := None;
     req_body := FormBody fields |}.

(** [exchangeCodeForToken] of [utils/spotify.ts]. *)
Definition exchangeCodeForToken (code : string) : M bool :=
  try_catch
    (let* codeVerifier := getItem "spotify_code_verifier" in
     match codeVerifier with
     | Some (String _ _ as verifier) =>
         let* response := fetch env (token_request
           [("grant_type", "authorization_code"); ("code", code);
            ("redirect_uri", REDIRECT_URI env); ("client_id", CLIENT_ID env);
            ("code_verifier", verifier)]) in
         let* data := json response in
         match access_token (token_view data) with
         | Some (String _ _ as tok) =>
             setAccessToken tok >>
             setRefreshToken env (refresh_token (token_view data)) >>
             let expiresInSec := expires_in (token_view data) in
             let* t := Date_now in
             setAccessTokenExpiryTs
               (if truthy_num expiresInSec
                then t + (default 0 expiresInSec - 30) * 1000 else 0) >>
             removeItem "spotify_code_verifier" >>
             ret true
         | _ => ret false
         end
     | _ => ret false
     end)
    (λ _, ret false).

Definition refreshAccessToken : M bool :=
  let* refreshToken := getRefreshToken in
  match refreshToken with
  | Some (String _ _ as rtok) =>
      try_catch
        (let* response := fetch env (token_request
           [("grant_type", "refresh_token"); ("refresh_token", rtok);
            ("client_id", CLIENT_ID env)]) in
         let* data := json response in
         match access_token (token_view data) with
         | Some (String _ _ as tok) =>
             setAccessToken tok >>
             (match refresh_token (token_view data) with
              | Some (String _ _ as rt) => setRefreshToken env (Some rt)
              | _ => ret tt
              end) >>
             let expiresInSec := expires_in (token_view data) in
             let* t := Date_now in
             setAccessTokenExpiryTs
               (if truthy_num expiresInSec
                then t + (default 0 expiresInSec - 30) * 1000 else 0) >>
             setItem "spotify_access_token" tok >>
             (if truthy_num expiresInSec
              then setItem "spotify_access_expiry_ts"
                     (String_of_number (default 0 expiresInSec))
              else ret tt) >>
             ret true
         | _ => ret false
         end)
        (λ _, ret false)
  | _ => ret false
  end.

(** ** Authenticated request executor *)

Definition api_request (u : string) (meth : option string) (b : ReqBody)
    (accessToken : string) : Request :=
  {| url := u; method := str_or meth "GET";
     authorization := Some ("Bearer " ++ accessToken); req_body := b |}.

Definition error_message_of (j : Json) : option string :=
  match j with
  | JErrorObj m => m
  | _ => None
  end.

(** The 403 branch: both outcomes are thrown errors. *)
Definition throw_forbidden {A} (r : Response) : M A :=
  let* errorData := try_catch (json r) (λ _, ret JOther) in
  match error_message_of errorData with
  | Some m =>
      if includes m "Insufficient client scope"
      then throw (new_Error ("Insufficient client scope: " ++ m))
      else throw (new_Error ("Forbidden (403): " ++ str_or (Some m) "Access denied"))
  | None => throw (new_Error ("Forbidden (403): " ++ "Access denied"))
  end.

Definition throw_rate_limit {A} (r : Response) : M A :=
  throw (new_Error ("Rate limit exceeded (429). Retry after: "
                    ++ str_or (retry_after r) "unknown" ++ " seconds")).

(** The decoded payload of a 2xx response, or [null]. *)
Definition payload (r : Response) : M (option Json) :=
  if includes (str_or (content_type r) "") "application/json"
  then let* j := json r in ret (Some j)
  else ret None.

Definition makeApiCall (u : string) (meth : option string) (b : ReqBody)
    : M (option Json) :=
  let* accessToken := getItem "spotify_access_token" in
  match accessToken with
  | Some (String _ _ as tok) =>
      try_catch
        (let* accessTokenExpiryTs := getAccessTokenExpiryTs in
         let* t := Date_now in
         (if truthy_num accessTokenExpiryTs && (t >? default 0 accessTokenExpiryTs)
          then refreshAccessToken >> ret tt else ret tt) >>
         let* response := fetch env (api_request u meth b tok) in
         if status response =? 204 then ret None
         else if ok response then payload response
         else if status response =? 429 then throw_rate_limit response
         else if status response =? 403 then throw_forbidden response
         else if status response =? 401 then
           let* refreshed := refreshAccessToken in
           if refreshed : bool then
             let* retry := fetch env (api_request u meth b tok) in
             if status retry =? 204 then ret None
             else if status retry =? 403 then throw_forbidden retry
             else if status retry =? 429 then throw_rate_limit retry
             else if ok retry then payload retry
             else ret None
           else ret None
         else ret None)
        (λ error,
           if includes (message error) "Rate limit exceeded"
           then throw error
           else ret None)
  | _ => throw (new_Error "No access token available")
  end.

End TokenLifecycle.

(** [exchangeCodeForToken] of the redirect screen. *)
Module RedirectScreen.
Definition exchangeCodeForToken (env : Env) (code : string) : M bool :=
  try_catch
    (let* codeVerifier := getItem "spotify_code_verifier" in
     match codeVerifier with
     | Some (String _ _ as verifier) =>
         let redirectUri := window_location_origin env ++ "/redirect" in
         let* response := fetch env (token_request
           [("grant_type", "authorization_code"); ("code", code);
            ("redirect_uri", redirectUri); ("client_id", CLIENT_ID env);
            ("code_verifier", verifier)]) in
         let* data := json response in
         match access_token (token_view data) with
         | Some (String _ _ as tok) =>
             setItem "spotify_access_token" tok >>
             (match refresh_token (token_view data) with
              | Some (String _ _ as rt) => setItem "spotify_refresh_token" rt
              | _ => ret tt
              end) >>
             let expiresInSec := expires_in (token_view data) in
             (if truthy_num expiresInSec
              then let* t := Date_now in
                   setItem "spotify_access_expiry_ts"
                     (String_of_number (t + (default 0 expiresInSec - 30) * 1000))
              else ret tt) >>
             removeItem "spotify_code_verifier" >>
             ret true
         | _ => ret false
         end
     | _ => ret false
     end)
    (λ _, ret false).
End RedirectScreen.

(** ** Endpoints *)

Definition hex_digit (n : N) : ascii :=
  match String.get (N.to_nat n) "0123456789ABCDEF" with
  | Some c => c
  | None => "0"%char
  end.

Definition is_unreserved (c : ascii) : bool :=
  let n := N_of_ascii c in
  ((65 <=? n) && (n <=? 90) || (97 <=? n) && (n <=? 122) ||
   (48 <=? n) && (n <=? 57))%N
  || includes "-_.!~*'()" (String c EmptyString).

(** [encodeURIComponent], on the UTF-8 bytes of the string. *)
Fixpoint encodeURIComponent (s : string) : string :=
  match s with
  | EmptyString => EmptyString
  | String c rest =>
      (if is_unreserved c then String c EmptyString
       else String "%" (String (hex_digit (N_of_ascii c / 16))
                          (String (hex_digit (N_of_ascii c mod 16)) EmptyString)))
      ++ encodeURIComponent rest
  end.

Definition device_query (sep : string) (deviceId : option string) : string :=
  match deviceId with
  | Some (String _ _ as d) => sep ++ "device_id=" ++ encodeURIComponent d
  | _ => ""
  end.

Module SPOTIFY_ENDPOINTS.
Definition PLAYLIST_TRACKS (id : string) : string :=
  "https://api.spotify.com/v1/playlists/" ++ id ++ "/tracks".
Definition SAVED_TRACKS : string := "https://api.spotify.com/v1/me/tracks".
Definition DEVICES : string := "https://api.spotify.com/v1/me/player/devices".
Definition PLAY (deviceId : option string) : string :=
  "https://api.spotify.com/v1/me/player/play" ++ device_query "?" deviceId.
Definition PAUSE (deviceId : option string) : string :=
  "https://api.spotify.com/v1/me/player/pause" ++ device_query "?" deviceId.
Definition NEXT (deviceId : option string) : string :=
  "https://api.spotify.com/v1/me/player/next" ++ device_query "?" deviceId.
Definition PREVIOUS (deviceId : option string) : string :=
  "https://api.spotify.com/v1/me/player/previous" ++ device_query "?" deviceId.
Definition SHUFFLE (state : bool) (deviceId : option string) : string :=
  "https://api.spotify.com/v1/me/player/shuffle?state="
  ++ (if state then "true" else "false") ++ device_query "&" deviceId.
Definition TRANSFER : string := "https://api.spotify.com/v1/me/player".
Definition QUEUE (uri : string) (deviceId : option string) : string :=
  "https://api.spotify.com/v1/me/player/queue?uri=" ++ encodeURIComponent uri
  ++ device_query "&" deviceId.
End SPOTIFY_ENDPOINTS.

(** ** Bulk collection fetch *)

Definition limit : Z := 50.
Definition CONCURRENT_REQUESTS : Z := 5.

(** [Math.ceil(a / b)] for integral [a] and positive [b]. *)
Definition Math_ceil_div (a b : Z) : Z := - ((- a) / b).

(** [items.map(item => item.track).filter(track => track !== null)] *)
Definition tracks_of_items (its : list Item) : list SpotifyTrack := omap track its.

Definition items_of (data : option Json) : option (list Item) :=
  match data with
  | Some (JPage p) => items p
  | _ => None
  end.

Definition total_of (data : option Json) : Z :=
  match data with
  | Some (JPage p) => total p
  | _ => 0
  end.

Definition page_query (endpoint : string) (offset : Z) : string :=
  endpoint ++ "?limit=" ++ String_of_number limit
           ++ "&offset=" ++ String_of_number offset.

Section BulkFetch.
Variable env : Env.

(** One page promise: [makeApiCall(...).then(...).catch(...)]. *)
Definition page_promise (endpoint : string) (pageIndex : Z) : M (list SpotifyTrack) :=
  let offset := pageIndex * limit in
  try_catch
    (let* data := makeApiCall env (page_query endpoint offset) None NoBody in
     match items_of data with
     | None => ret []
     | Some its => ret (tracks_of_items its)
     end)
    (λ _, ret []).

(** The inner [for (j ...)] loop and [Promise.all]: the requests of one
    window, in the order they are issued; the results keep that order. *)
Fixpoint batch (fuel : nat) (endpoint : string) (i j remainingPages : Z)
    : M (list (list SpotifyTrack)) :=
  match fuel with
  | O => ret []
  | S fuel' =>
      if (j <? CONCURRENT_REQUESTS) && (i + j <? remainingPages) then
        let pageIndex := i + j + 1 in
        let* pageTrack := page_promise endpoint pageIndex in
        let* others := batch fuel' endpoint i (j + 1) remainingPages in
        ret (pageTrack :: others)
      else ret []
  end.

(** The outer [for (i ...; i += CONCURRENT_REQUESTS)] loop. *)
Fixpoint batches (fuel : nat) (endpoint : string) (i remainingPages : Z)
    (tracks : list SpotifyTrack) : M (list SpotifyTrack) :=
  match fuel with
  | O => ret tracks
  | S fuel' =>
      if i <? remainingPages then
        let* batchResults :=
          batch (Z.to_nat CONCURRENT_REQUESTS) endpoint i 0 remainingPages in
        let tracks := (tracks ++ concat batchResults)%list in
        (if i + CONCURRENT_REQUESTS <? remainingPages then sleep 100 else ret tt) >>
        batches fuel' endpoint (i + CONCURRENT_REQUESTS) remainingPages tracks
      else ret tracks
  end.

(** The body shared by [getPlaylistTracks] and [getUserSavedTracks]. *)
Definition fetch_all_pages (endpoint : string) : M (list SpotifyTrack) :=
  let* firstPage := makeApiCall env (page_query endpoint 0) None NoBody in
  match items_of firstPage with
  | None => ret []
  | Some its =>
      let totalTracks := total_of firstPage in
      let tracks := tracks_of_items its in
      if (Z.of_nat (length its) <? limit) || (totalTracks <=? limit) then ret tracks
      else
        let remainingTracks := totalTracks - limit in
        let remainingPages := Math_ceil_div remainingTracks limit in
        batches (Z.to_nat remainingPages) endpoint 0 remainingPages tracks
  end.

Definition getPlaylistTracks (playlistId : string) : M (list SpotifyTrack) :=
  try_catch
    (fetch_all_pages (SPOTIFY_ENDPOINTS.PLAYLIST_TRACKS playlistId))
    (λ error, throw error).

Definition getUserSavedTracks : M (list SpotifyTrack) :=
  try_catch
    (fetch_all_pages SPOTIFY_ENDPOINTS.SAVED_TRACKS)
    (λ error,
       if bool_decide (err_status error = Some 403)
          || includes (message error) "Insufficient client scope"
       then ret []
       else throw error).

Definition hasRequiredScopes : M bool :=
  try_catch
    (makeApiCall env (SPOTIFY_ENDPOINTS.SAVED_TRACKS ++ "?limit=1") None NoBody >>
     ret true)
    (λ error,
       if includes (message error) "Insufficient client scope"
       then ret false
       else ret true).

End BulkFetch.

(** ** Playback controls *)

Section Playback.
Variable env : Env.

Definition getDevices : M (option (list Device)) :=
  let* data := makeApiCall env SPOTIFY_ENDPOINTS.DEVICES None NoBody in
  ret (match data with
       | Some (JDevices ds) => Some ds
       | _ => None
       end).

(** [devices.find(d => d.is_active) || devices[0]] *)
Definition pick_device (d0 : Device) (others : list Device) : Device :=
  default d0 (List.find is_active (d0 :: others)).

Definition deeplink_for (trackUri playlistUri : option string) : string :=
  if bool_decide (playlistUri = Some "spotify:collection:tracks")
  then "https://open.spotify.com/collection/tracks"
  else if truthy_str trackUri && truthy_str playlistUri
  then "https://open.spotify.com/track/" ++ default "" trackUri
       ++ "?context=" ++ default "" playlistUri
  else if truthy_str trackUri
  then "https://open.spotify.com/track/" ++ default "" trackUri
  else "https://open.spotify.com".

(** The inner [try] around the deep-link hand-off; whatever it throws is
    only warned about. *)
Definition open_spotify (deeplink : string) : M unit :=
  match linking env deeplink with
  | CanOpenThrows => ret tt
  | CanOpen => log (EOpenURL deeplink)
  | CannotOpen => log (EOpenBrowser "https://open.spotify.com")
  end.

Definition ensureActiveDevice (trackUri playlistUri : option string)
    : M (option string) :=
  try_catch
    (let* devices := getDevices in
     match devices with
     | Some (d0 :: others) => ret (Some (dev_id (pick_device d0 others)))
     | _ =>
         open_spotify (deeplink_for trackUri playlistUri) >>
         sleep 1500 >>
         let* devices := getDevices in
         match devices with
         | Some (d0 :: others) => ret (Some (dev_id (pick_device d0 others)))
         | _ => ret None
         end
     end)
    (λ _, ret None).

(** [res !== null || true] *)
Definition not_null_or_true (res : option Json) : bool :=
  bool_decide (res ≠ None) || true.

Definition playUris (uris : list string) (deviceId : option string)
    (positionMs : option Z) : M bool :=
  let u := SPOTIFY_ENDPOINTS.PLAY deviceId in
  let* res := makeApiCall env u (Some "PUT") (PlayBody uris positionMs) in
  ret (not_null_or_true res).

Definition resume (deviceId : option string) : M bool :=
  let u := SPOTIFY_ENDPOINTS.PLAY deviceId in
  let* res := makeApiCall env u (Some "PUT") NoBody in
  ret (not_null_or_true res).

Definition pause (deviceId : option string) : M bool :=
  let u := SPOTIFY_ENDPOINTS.PAUSE deviceId in
  let* res := makeApiCall env u (Some "PUT") NoBody in
  ret (not_null_or_true res).

Definition next (deviceId : option string) : M bool :=
  let u := SPOTIFY_ENDPOINTS.NEXT deviceId in
  let* res := makeApiCall env u (Some "POST") NoBody in
  ret (not_null_or_true res).

Definition previous (deviceId : option string) : M bool :=
  let u := SPOTIFY_ENDPOINTS.PREVIOUS deviceId in
  let* res := makeApiCall env u (Some "POST") NoBody in
  ret (not_null_or_true res).

Definition setShuffle (enabled : bool) (deviceId : option string) : M bool :=
  let u := SPOTIFY_ENDPOINTS.SHUFFLE enabled deviceId in
  let* res := makeApiCall env u (Some "PUT") NoBody in
  ret (not_null_or_true res).

Definition transferPlayback (deviceId : string) (play : bool) : M bool :=
  let* res := makeApiCall env SPOTIFY_ENDPOINTS.TRANSFER (Some "PUT")
                (TransferBody [deviceId] play) in
  ret (not_null_or_true res).

Definition addToQueue (uri : string) (deviceId : option string) : M bool :=
  let u := SPOTIFY_ENDPOINTS.QUEUE uri deviceId in
  let* res := makeApiCall env u (Some "POST") NoBody in
  ret (not_null_or_true res).

End Playback.

(** ** The shuffle *)

(** The crypto branches of [getSecureRandom]: a 32-bit draw ([array[0]],
    [buffer.readUInt32BE(0)]) divided by [0xffffffff + 1].  The fallback
    without a crypto module computes in floating point and is not followed
    here; it ends in [% 1] and so also returns a value in [0, 1). *)
Definition getSecureRandom (draw : Z) : Q :=
  Qmake (draw mod 4294967296) 4294967296.

(** [[a[i], a[j]] = [a[j], a[i]]].  [None] when an index lies outside the
    array: JavaScript would then write outside of it, which this model does
    not follow. *)
Definition swap {T} (a : list T) (i j : nat) : option (list T) :=
  match a !! i, a !! j with
  | Some x, Some y => Some (<[j:=x]> (<[i:=y]> a))
  | _, _ => None
  end.

(** [Math.floor(randomValue * (i + 1))] *)
Definition random_index (randomValue : Q) (i : nat) : Z :=
  Qfloor (randomValue * inject_Z (Z.of_nat i + 1)).

(** The loop [for (i = shuffled.length - 1; i > 0; i--)]; [k] counts the
    calls of [getSecureRandom] made so far. *)
Fixpoint shuffle_loop {T} (rv : nat → Q) (k i : nat) (shuffled : list T)
    : option (list T) :=
  match i with
  | O => Some shuffled
  | S i' =>
      let randomValue := rv k in
      let j := random_index randomValue i in
      if 0 <=? j then
        match swap shuffled i (Z.to_nat j) with
        | Some shuffled' => shuffle_loop rv (S k) i' shuffled'
        | None => None
        end
      else None
  end.

Definition trueRandomShuffle {T} (rv : nat → Q) (k : nat) (array : list T)
    : option (list T) :=
  shuffle_loop rv k (length array - 1) array.

(** ** Queue submission ([hooks/useSpotifyQueries.ts]) *)

Definition MAX_QUEUE_SIZE : nat := 150.
Definition maxRetries : Z := 3.

(** [error?.status === 429 || (error?.message && error.message.includes('429'))] *)
Definition is_rate_limited (error : JsError) : bool :=
  bool_decide (err_status error = Some 429) || includes (message error) "429".

Record SpotifyPlaylist := mkPlaylist { playlist_id : string; playlist_uri : string }.

Section QueueSubmission.
Variable env : Env.

(** The outcome of a [try] block, handed to the code after it. *)
Definition attempt {A} (m : M A) : M (Result A) :=
  λ w, match m w with
       | (r, w') => (Ret r, w')
       end.

(** [while (!success && retryCount <= maxRetries)] for one track.  Every
    turn either succeeds, breaks, or increments [retryCount], so
    [maxRetries + 2] turns of fuel are never used up. *)
Fixpoint retry_loop (fuel : nat) (uri deviceId : string) (retryCount : Z) : M unit :=
  match fuel with
  | O => ret tt
  | S fuel' =>
      if retryCount <=? maxRetries then
        let* outcome := attempt (addToQueue env uri (Some deviceId)) in
        match outcome with
        | Ret _ => ret tt
        | Throw error =>
            if is_rate_limited error then
              let retryCount := retryCount + 1 in
              (if retryCount <=? maxRetries
               then sleep (2 ^ (retryCount - 1) * 1000)
               else ret tt) >>
              retry_loop fuel' uri deviceId retryCount
            else ret tt
        end
      else ret tt
  end.

(** The [for] loop over [trackUris], from index [length trackUris - length uris]. *)
Fixpoint queue_loop (uris : list string) (deviceId : string)
    (onProgress : nat → nat → M unit) (total completed : nat) : M unit :=
  match uris with
  | [] => ret tt
  | uri :: rest =>
      retry_loop (Z.to_nat maxRetries + 2) uri deviceId 0 >>
      let completed := S completed in
      onProgress completed total >>
      (match rest with
       | [] => ret tt
       | _ :: _ => sleep 150
       end) >>
      queue_loop rest deviceId onProgress total completed
  end.

Definition batchQueueTracks (tracks : list SpotifyTrack) (deviceId : string)
    (onProgress : nat → nat → M unit) : M unit :=
  let trackUris := map uri tracks in
  let total := length trackUris in
  queue_loop trackUris deviceId onProgress total 0%nat.

(** ** Shuffle-and-queue ([useQueueShuffleMutation]'s [mutationFn]) *)

Definition String_of_nat (n : nat) : string := String_of_number (Z.of_nat n).

(** [onProgressUpdate?.(...)]: the caller's callback is recorded. *)
Definition onProgressUpdate (isQueueing : bool) (progress total : nat)
    (msg : option string) : M unit :=
  log (EProgressUpdate isQueueing progress total msg).

(** [queryClient.fetchQuery({queryKey, queryFn})] with nothing cached. *)
Definition fetchQuery {A} (queryFn : M A) : M A := queryFn.

(** [trueRandomShuffle(tracks)], drawing from the environment. *)
Definition shuffle_tracks (tracks : list SpotifyTrack) : M (list SpotifyTrack) :=
  λ w, let w' := {| storage := storage w; now := now w; trace := trace w;
                    drawn := (drawn w + (length tracks - 1))%nat |} in
       match trueRandomShuffle (λ k, getSecureRandom (random env k)) (drawn w) tracks with
       | Some shuffled => (Ret shuffled, w')
       | None => (Throw (new_Error "index outside the array"), w')
       end.

(** A track as the caller of the mutation supplies it.  Its type gives it
    a [uri]; the code still tests the [uri] for [null], so here it is a
    string or [null]. *)
Record TrackInput := mkInput {
  in_id : string; in_name : string; in_uri : option string
}.

Definition as_track (track : TrackInput) : option SpotifyTrack :=
  (λ u, {| id := in_id track; name := in_name track; uri := u |}) <$> in_uri track.

(** [!tracks || tracks.length === 0 || tracks.some(track => track.uri === null)] *)
Definition needs_fetch (tracks : option (list TrackInput)) : bool :=
  match tracks with
  | None => true
  | Some supplied =>
      (length supplied =? 0)%nat
      || existsb (λ track, bool_decide (in_uri track = None)) supplied
  end.

(** The first part of [mutationFn]: the track list to shuffle.  A supplied
    list is used when it is not empty and none of its tracks has a [null]
    [uri] (every track of it is then a [SpotifyTrack]); otherwise the list
    is fetched. *)
Definition resolve_tracks (playlist : SpotifyPlaylist)
    (tracks : option (list TrackInput)) : M (list SpotifyTrack) :=
  if needs_fetch tracks then
    if bool_decide (playlist_id playlist = "liked-songs")
    then fetchQuery (getUserSavedTracks env)
    else fetchQuery (getPlaylistTracks env (playlist_id playlist))
  else ret (omap as_track (default [] tracks)).

(** The rest of [mutationFn], from [if (!tracks || tracks.length === 0)]. *)
Definition shuffle_and_queue (playlist : SpotifyPlaylist)
    (tracks : list SpotifyTrack) : M bool :=
  match tracks with
  | [] => ret false
  | _ :: _ =>
      let* freshShuffled := shuffle_tracks tracks in
      match freshShuffled with
      | [] => throw (new_Error "undefined is not an object (evaluating 'first.uri')")
      | first :: rest =>
          let tracksToQueue := take (MAX_QUEUE_SIZE - 1) rest in
          let totalToQueue := length tracksToQueue in
          let large := bool_decide (MAX_QUEUE_SIZE < length tracks)%nat in
          let playlistUri :=
            if bool_decide (playlist_id playlist = "liked-songs")
            then "spotify:collection:tracks" else playlist_uri playlist in
          let* ensuredDeviceId :=
            ensureActiveDevice env (Some (uri first)) (Some playlistUri) in
          match ensuredDeviceId with
          | Some (String _ _ as dev) =>
              transferPlayback env dev true >>
              playUris env [uri first] (Some dev) None >>
              let initialMessage :=
                if large
                then "Queueing " ++ String_of_nat MAX_QUEUE_SIZE
                     ++ " randomly selected songs..."
                else "Preparing your truly random queue..." in
              onProgressUpdate true 0 totalToQueue (Some initialMessage) >>
              batchQueueTracks tracksToQueue dev
                (λ progress total,
                   let progressMessage :=
                     if large
                     then "Queued " ++ String_of_nat progress ++ " of "
                          ++ String_of_nat total ++ " songs ("
                          ++ String_of_nat (progress + 1) ++ "/"
                          ++ String_of_nat MAX_QUEUE_SIZE ++ " total)..."
                     else "Queued " ++ String_of_nat progress ++ " of "
                          ++ String_of_nat total ++ " tracks..." in
                   onProgressUpdate true progress total (Some progressMessage)) >>
              let finalMessage :=
                if large
                then Some ("✅ Queued " ++ String_of_nat MAX_QUEUE_SIZE
                           ++ " random songs! More will be added as you listen.")
                else None in
              onProgressUpdate false totalToQueue totalToQueue finalMessage >>
              (match finalMessage with
               | Some _ => log (ETimer 2000)
               | None => ret tt
               end) >>
              ret true
          | _ => ret false
          end
      end
  end.

Definition mutationFn (playlist : SpotifyPlaylist)
    (tracks : option (list TrackInput)) : M bool :=
  let* tracks := resolve_tracks playlist tracks in
  shuffle_and_queue playlist tracks.

End QueueSubmission.

(** ** Observations on worlds and traces *)

(** An access token is stored (and truthy). *)
Definition has_token (w : World) : bool :=
  truthy_str (storage w !! "spotify_access_token").

(** The API calls of a trace: the fetches that carry bearer credentials,
    as (url, method, body). *)
Definition api_call (e : Event) : option (string * string * ReqBody) :=
  match e with
  | EFetch r =>
      match authorization r with
      | Some _ => Some (url r, method r, req_body r)
      | None => None
      end
  | _ => None
  end.

Definition api_calls (tr : list Event) : list (string * string * ReqBody) :=
  omap api_call tr.

(** The requests to the token endpoint: they carry no credentials header. *)
Definition is_token_fetch (e : Event) : bool :=
  match e with
  | EFetch r => bool_decide (authorization r = None) && bool_decide (url r = TOKEN)
  | _ => false
  end.

Definition is_fetch (e : Event) : bool :=
  match e with
  | EFetch _ => true
  | _ => false
  end.

Definition progress_of (e : Event) : option (nat * nat) :=
  match e with
  | EProgress p t => Some (p, t)
  | _ => None
  end.

Definition progress_events (tr : list Event) : list (nat * nat) :=
  omap progress_of tr.

Definition sleep_of (e : Event) : option Z :=
  match e with
  | ESleep ms => Some ms
  | _ => None
  end.

Definition sleeps (tr : list Event) : list Z := omap sleep_of tr.

(** What an observer of the provider and of the progress callbacks sees. *)
Inductive Obs :=
| OCall (c : string * string * ReqBody)
| OProgress (progress total : nat)
| OUpdate (isQueueing : bool) (progress total : nat) (msg : option string).

Definition observe (e : Event) : option Obs :=
  match e with
  | EFetch _ => OCall <$> api_call e
  | EProgress p t => Some (OProgress p t)
  | EProgressUpdate q p t m => Some (OUpdate q p t m)
  | _ => None
  end.

Definition observations (tr : list Event) : list Obs := omap observe tr.

(** The observations of a queue run: track [i] is sent [k_i] times, then
    its progress is reported. *)
Fixpoint expected (report : nat → nat → Obs) (ks : list nat) (urls : list string)
    (completed total : nat) : list Obs :=
  match ks, urls with
  | k :: ks', u :: urls' =>
      replicate k (OCall (u, "POST", NoBody))
      ++ report (S completed) total
      :: expected report ks' urls' (S completed) total
  | _, _ => []
  end.

(** The URL of a queue addition. *)
Definition queue_url (deviceId uri : string) : string :=
  SPOTIFY_ENDPOINTS.QUEUE uri (Some deviceId).

(** What is submitted to the remote player: play commands and queue
    additions. *)
Inductive Submission :=
| Played (url : string) (uris : list string)
| Queued (url : string).

Definition submission_of (o : Obs) : option Submission :=
  match o with
  | OCall (u, _, PlayBody uris _) => Some (Played u uris)
  | OCall (u, _, NoBody) =>
      if String.prefix "https://api.spotify.com/v1/me/player/queue?uri=" u
      then Some (Queued u) else None
  | _ => None
  end.

Definition submissions (tr : list Event) : list Submission :=
  omap submission_of (observations tr).

(** ** Steps between worlds *)

Definition true_or_throws (m : M bool) : Prop :=
  ∀ w, (m w).1 = Ret true ∨ ∃ e, (m w).1 = Throw e.

(** A step that only talks to the token endpoint. *)
Definition token_step (w w' : World) : Prop :=
  (has_token w = true → has_token w' = true)
  ∧ drawn w' = drawn w
  ∧ ∃ delta, trace w' = (trace w ++ delta)%list
             ∧ Forall (λ e, is_token_fetch e = true) delta
             ∧ (length delta <= 1)%nat.

(** [w'] is reached from [w] by issuing requests only; [calls] are the API
    calls among them. *)
Definition call_step (calls : list (string * string * ReqBody)) (w w' : World) : Prop :=
  (has_token w = true → has_token w' = true)
  ∧ drawn w' = drawn w
  ∧ ∃ delta, trace w' = (trace w ++ delta)%list
             ∧ Forall (λ e, is_fetch e = true) delta
             ∧ api_calls delta = calls.

(** A computation that leaves the world as it is. *)
Definition quiet {A} (m : M A) : Prop := ∀ w r w', m w = (r, w') → w' = w.

Definition obs_step (os : list Obs) (w w' : World) : Prop :=
  (has_token w = true → has_token w' = true)
  ∧ drawn w' = drawn w
  ∧ observations (trace w') = (observations (trace w) ++ os)%list.


Definition sub_step (subs : list Submission) (w w' : World) : Prop :=
  (has_token w = true → has_token w' = true)
  ∧ submissions (trace w') = (submissions (trace w) ++ subs)%list.

(** ** The spec's side *)

(** The recording progress callback. *)
Definition record_progress (progress total : nat) : M unit :=
  log (EProgress progress total).

(** The policy of the queue submission pipeline in the spec's words: on a
    429 classification retry the same item after the next backoff delay;
    when the delays are used up, or on any other error, go on. *)
Fixpoint submit_with_backoff (env : Env) (delays : list Z) (uri deviceId : string)
    : M unit :=
  let* outcome := attempt (addToQueue env uri (Some deviceId)) in
  match outcome with
  | Ret _ => ret tt
  | Throw error =>
      if is_rate_limited error then
        match delays with
        | [] => ret tt
        | delay :: later => sleep delay >> submit_with_backoff env later uri deviceId
        end
      else ret tt
  end.

(** The page of a collection that starts at [offset]. *)
Definition page_of (src : list SpotifyTrack) (offset : nat) : Page :=
  {| items := Some ((λ t, {| track := Some t |}) <$> take (Z.to_nat limit) (drop offset src));
     total := Z.of_nat (length src) |}.

(** The provider serves the collection [src] at a paged endpoint: every
    request for a page inside the collection is answered, whenever it is
    sent and with whatever bearer token, by 200 and that page. *)
Definition serves (env : Env) (endpoint : string) (src : list SpotifyTrack) : Prop :=
  ∀ (hist : list Event) (tok : string) (pageIndex : nat),
    (pageIndex * Z.to_nat limit < length src)%nat →
    ∃ resp,
      outcome (net env hist
        (api_request (page_query endpoint (Z.of_nat pageIndex * limit)) None NoBody tok))
      = Responded resp
      ∧ status resp = 200
      ∧ includes (str_or (content_type resp) "") "application/json" = true
      ∧ body resp = BodyJson (JPage (page_of src (pageIndex * Z.to_nat limit))).

(** ** Scripted environments for the examples *)

Definition count_fetches (tr : list Event) : nat :=
  length (List.filter is_fetch tr).

Definition offline : NetReply :=
  {| latency := 0; outcome := Rejected (new_Error "Network request failed") |}.

(** The network answers the n-th request with the n-th reply of a script. *)
Definition scripted (script : list NetReply) : list Event → Request → NetReply :=
  λ tr _, nth (count_fetches tr) script offline.

Definition example_env (network : list Event → Request → NetReply) : Env :=
  {| net := network;
     random := λ k, Z.of_nat k * 1000000007;
     linking := λ _, CanOpen;
     setItem_undefined := RejectUndefined;
     CLIENT_ID := "client";
     REDIRECT_URI := "trueshuffle://redirect";
     window_location_origin := "https://app.example" |}.

Definition json_reply (st : Z) (j : Json) : NetReply :=
  {| latency := 10;
     outcome := Responded {| status := st;
                             content_type := Some "application/json; charset=utf-8";
                             retry_after := None;
                             body := BodyJson j |} |}.

Definition empty_reply (st : Z) : NetReply :=
  {| latency := 10;
     outcome := Responded {| status := st;
                             content_type := None;
                             retry_after := None;
                             body := BodyInvalid (new_Error "Unexpected end of JSON input") |} |}.

Definition example_world (s : list (string * string)) : World :=
  {| storage := list_to_map s; now := 1000000; trace := []; drawn := 0 |}.

(** ** Example data *)

Definition example_track (i : nat) : SpotifyTrack :=
  {| id := "t" ++ String_of_nat i;
     name := "Track " ++ String_of_nat i;
     uri := "spotify:track:" ++ String_of_nat i |}.

Definition example_tracks (n : nat) : list SpotifyTrack :=
  example_track <$> seq 0 n.

(** A fetched track handed back in by the caller. *)
Definition as_input (t : SpotifyTrack) : TrackInput :=
  {| in_id := id t; in_name := name t; in_uri := Some (uri t) |}.

Definition example_playlist : SpotifyPlaylist :=
  {| playlist_id := "p1"; playlist_uri := "spotify:playlist:p1" |}.

(** A signed-in world: tokens stored, no expiry recorded. *)
Definition signed_in : World :=
  example_world [("spotify_access_token", "a0"); ("spotify_refresh_token", "r0")].

(** A signed-in world whose recorded expiry has passed. *)
Definition signed_in_expired : World :=
  example_world [("spotify_access_token", "a0"); ("spotify_refresh_token", "r0");
                 ("spotify_access_expiry_ts", "3600")].

Definition fresh_token : Json :=
  JToken {| access_token := Some "a1"; refresh_token := None; expires_in := Some 3600 |}.

(** A provider that rejects every API request with 401 and grants every
    refresh. *)
Definition always_401 : list Event → Request → NetReply :=
  λ _ req, match authorization req with
           | Some _ => empty_reply 401
           | None => json_reply 200 fresh_token
           end.

(** A provider without the [user-library-read] scope. *)
Definition scope_missing : list Event → Request → NetReply :=
  λ _ req, match authorization req with
           | Some _ => json_reply 403 (JErrorObj (Some "Insufficient client scope"))
           | None => json_reply 200 fresh_token
           end.

(** A provider with no playback device. *)
Definition no_device : list Event → Request → NetReply :=
  λ _ _, json_reply 200 (JDevices []).

(** A provider that serves the playlist [src] page by page. *)
Definition playlist_provider (playlistId : string) (src : list SpotifyTrack)
    : list Event → Request → NetReply :=
  λ _ req,
    match authorization req with
    | None => json_reply 400 JOther
    | Some _ =>
        match List.find
                (λ k, String.eqb (url req)
                        (page_query (SPOTIFY_ENDPOINTS.PLAYLIST_TRACKS playlistId)
                           (Z.of_nat k * limit)))
                (seq 0 (S (length src / Z.to_nat limit))) with
        | Some k => json_reply 200 (JPage (page_of src (k * Z.to_nat limit)))
        | None => json_reply 404 JOther
        end
    end.

Definition rate_limited_reply : NetReply :=
  {| latency := 10;
     outcome := Responded {| status := 429; content_type := None;
                             retry_after := Some "1";
                             body := BodyInvalid (new_Error "Unexpected end of JSON input") |} |}.

(** The spec's run of ten tracks: the fourth is answered 429 three times and
    then accepted; the seventh is refused with an error the pipeline does
    not classify as 429. *)
Definition ten_track_script : list NetReply :=
  [empty_reply 204; empty_reply 204; empty_reply 204;
   rate_limited_reply; rate_limited_reply; rate_limited_reply; empty_reply 204;
   empty_reply 204; empty_reply 204;
   json_reply 403 (JErrorObj (Some "Rate limit exceeded"));
   empty_reply 204; empty_reply 204; empty_reply 204].

(** A provider with one active device that accepts every command. *)
Definition one_device : list Event → Request → NetReply :=
  λ _ req,
    if String.eqb (url req) SPOTIFY_ENDPOINTS.DEVICES
    then json_reply 200 (JDevices [{| dev_id := "dev1"; is_active := true;
                                      dev_name := "Phone"; dev_type := "Smartphone" |}])
    else empty_reply 204.

(** * More of the code *)

From Stdlib Require DecimalZ DecimalPos.

(** ** PKCE helpers ([utils/spotify.ts]) *)

(** The character [c] occurs in [s]. *)
Fixpoint has_char (c : ascii) (s : string) : bool :=
  match s with
  | EmptyString => false
  | String a rest => Ascii.eqb a c || has_char c rest
  end.

(** [str.replace(/c/g, by)] for a one-character pattern. *)
Fixpoint replace_char (c : ascii) (by_ : string) (str : string) : string :=
  match str with
  | EmptyString => EmptyString
  | String a rest =>
      (if Ascii.eqb a c then by_ else String a EmptyString)
      ++ replace_char c by_ rest
  end.

Definition base64URLEncode (str : string) : string :=
  replace_char "/" "_" (replace_char "+" "-" (replace_char "=" "" str)).

(** [s.charAt(i)]: the empty string outside the string. *)
Definition charAt (s : string) (i : Z) : string :=
  if i <? 0 then ""
  else match String.get (Z.to_nat i) s with
       | Some c => String c EmptyString
       | None => ""
       end.

Definition possible : string :=
  "ABCDEFGHIJKLMNOPQRSTUVWXYZabcdefghijklmnopqrstuvwxyz0123456789".

(** The loop of [generateRandomString]: [todo] turns are left, [k] counts
    the calls of [Math.random] made so far. *)
Fixpoint generateRandomString_loop (rv : nat → Q) (k todo : nat) (result : string)
    : string :=
  match todo with
  | O => result
  | S todo' =>
      generateRandomString_loop rv (S k) todo'
        (result ++ charAt possible
                     (Qfloor (rv k * inject_Z (Z.of_nat (String.length possible)))))
  end.

Definition generateRandomString (rv : nat → Q) (k : nat) (length : Z) : string :=
  generateRandomString_loop rv k (Z.to_nat length) "".

(** ** Device and scope probes *)

Definition hasActiveDevice (env : Env) : M bool :=
  try_catch
    (let* devices := getDevices env in
     ret (match devices with
          | Some ds => existsb is_active ds || (0 <? Z.of_nat (length ds))
          | None => false
          end))
    (λ _, ret false).

(** The [queryFn] of [useSpotifySavedTracks]. *)
Definition savedTracks_queryFn (env : Env) : M (list SpotifyTrack) :=
  try_catch
    (getUserSavedTracks env)
    (λ error,
       if includes (message error) "Insufficient client scope"
       then ret []
       else throw error).

(** ** More observations *)

(** The requests of a trace that carry bearer credentials. *)
Definition api_request_of (e : Event) : option Request :=
  match e with
  | EFetch r =>
      match authorization r with
      | Some _ => Some r
      | None => None
      end
  | _ => None
  end.

Definition api_requests (tr : list Event) : list Request := omap api_request_of tr.

(** [w'] is reached from [w] with the API calls [calls] and the timers
    [pauses], whatever else happened in between. *)
Definition fetch_step (calls : list (string * string * ReqBody)) (pauses : list Z)
    (w w' : World) : Prop :=
  (has_token w = true → has_token w' = true)
  ∧ api_calls (trace w') = (api_calls (trace w) ++ calls)%list
  ∧ sleeps (trace w') = (sleeps (trace w) ++ pauses)%list.

(** The call for page [p] of a paged endpoint. *)
Definition page_call (endpoint : string) (p : nat) : string * string * ReqBody :=
  (page_query endpoint (Z.of_nat p * limit), "GET", NoBody).



(** A provider that answers every device lookup with the list [ds]. *)
Definition answers_devices (env : Env) (ds : list Device) : Prop :=
  ∀ (hist : list Event) (tok : string),
    ∃ resp,
      outcome (net env hist (api_request SPOTIFY_ENDPOINTS.DEVICES None NoBody tok))
      = Responded resp
      ∧ status resp = 200
      ∧ includes (str_or (content_type resp) "") "application/json" = true
      ∧ body resp = BodyJson (JDevices ds).

(** The timers of a queue run in which track [i] backs off [n_i] times:
    150 ms between tracks, none after the last. *)
Fixpoint expected_sleeps (ns : list nat) : list Z :=
  match ns with
  | [] => []
  | n :: rest =>
      (take n [1000; 2000; 4000]
       ++ match rest with
          | [] => []
          | _ :: _ => 150 :: expected_sleeps rest
          end)%list
  end.

(** A provider that serves [src] page by page at any paged endpoint. *)
Definition paged_provider (endpoint : string) (src : list SpotifyTrack)
    : list Event → Request → NetReply :=
  λ _ req,
    match authorization req with
    | None => json_reply 400 JOther
    | Some _ =>
        match List.find
                (λ k, String.eqb (url req) (page_query endpoint (Z.of_nat k * limit)))
                (seq 0 (S (length src / Z.to_nat limit))) with
        | Some k => json_reply 200 (JPage (page_of src (k * Z.to_nat limit)))
        | None => json_reply 404 JOther
        end
    end.


(** ** The executor's outcomes *)


(** ** The schedule of a paged fetch *)

(** What a paged fetch does, in order: its API calls and its timers. *)
Inductive Act :=
| ACall (c : string * string * ReqBody)
| AWait (ms : Z).

Definition act_of (e : Event) : option Act :=
  match e with
  | EFetch _ => ACall <$> api_call e
  | ESleep ms => Some (AWait ms)
  | _ => None
  end.

Definition acts (tr : list Event) : list Act := omap act_of tr.

Definition act_step (l : list Act) (w w' : World) : Prop :=
  (has_token w = true → has_token w' = true)
  ∧ acts (trace w') = (acts (trace w) ++ l)%list.




(** ** Progress updates of the shuffle mutation *)

(** The updates handed to the caller's [onProgressUpdate], without their
    messages: (isQueueing, progress, total). *)
Definition update_of (e : Event) : option (bool * nat * nat) :=
  match e with
  | EProgressUpdate q p t _ => Some (q, p, t)
  | _ => None
  end.

Definition updates (tr : list Event) : list (bool * nat * nat) := omap update_of tr.

Definition update_of_obs (o : Obs) : option (bool * nat * nat) :=
  match o with
  | OUpdate q p t _ => Some (q, p, t)
  | _ => None
  end.

Definition update_step (us : list (bool * nat * nat)) (w w' : World) : Prop :=
  (has_token w = true → has_token w' = true)
  ∧ updates (trace w') = (updates (trace w) ++ us)%list.

(** ** Reading a collection *)

(** A request for one page of the collection at [endpoint]. *)
Definition is_page_get (endpoint : string) (c : string * string * ReqBody) : Prop :=
  ∃ offset, c = (page_query endpoint offset, "GET", NoBody).

(** [w'] is reached from [w] with page requests to [endpoint] as the only
    API calls. *)
Definition reads (endpoint : string) (w w' : World) : Prop :=
  ∃ calls, api_calls (trace w') = (api_calls (trace w) ++ calls)%list
           ∧ Forall (is_page_get endpoint) calls.

(** The endpoint [mutationFn] reads the tracks of a playlist from. *)
Definition tracks_endpoint (playlist : SpotifyPlaylist) : string :=
  if bool_decide (playlist_id playlist = "liked-songs")
  then SPOTIFY_ENDPOINTS.SAVED_TRACKS
  else SPOTIFY_ENDPOINTS.PLAYLIST_TRACKS (playlist_id playlist).
(** * Properties *)

Local Open Scope list_scope.

(** ** The shuffle is a permutation *)

Lemma getSecureRandom_range (draw : Z) :
  (0 <= getSecureRandom draw)%Q ∧ (getSecureRandom draw < 1)%Q.
Proof.
  unfold getSecureRandom, Qle, Qlt; simpl.
  pose proof (Z.mod_pos_bound draw 4294967296 eq_refl). lia.
Qed.

Lemma random_index_range (r : Q) (i : nat) :
  (0 <= r)%Q → (r < 1)%Q → 0 <= random_index r i <= Z.of_nat i.
Proof.
  intros Hlo Hhi. unfold random_index.
  set (n := Z.of_nat i + 1).
  assert (Hn : (0 < inject_Z n)%Q).
  { change 0%Q with (inject_Z 0). rewrite <- Zlt_Qlt. subst n. lia. }
  split.
  - rewrite <- (Qfloor_Z 0). apply Qfloor_resp_le.
    change (inject_Z 0) with 0%Q. apply Qmult_le_0_compat; [done|].
    by apply Qlt_le_weak.
  - assert (Hlt : (inject_Z (Qfloor (r * inject_Z n)) < inject_Z n)%Q).
    { eapply Qle_lt_trans; [apply Qfloor_le|].
      rewrite <- (Qmult_1_l (inject_Z n)) at 2.
      by apply Qmult_lt_compat_r. }
    rewrite <- Zlt_Qlt in Hlt. subst n. lia.
Qed.

Lemma swap_Permutation {T} (a a' : list T) (i j : nat) :
  swap a i j = Some a' → a' ≡ₚ a ∧ length a' = length a.
Proof.
  unfold swap. intros H.
  destruct (a !! i) as [x|] eqn:Hi; [|done].
  destruct (a !! j) as [y|] eqn:Hj; [|done].
  injection H as <-. split.
  - by apply Permutation_insert_swap.
  - by rewrite !length_insert.
Qed.

Lemma swap_in_range {T} (a : list T) (i j : nat) :
  (i < length a)%nat → (j < length a)%nat → is_Some (swap a i j).
Proof.
  intros [x Hx]%lookup_lt_is_Some_2 [y Hy]%lookup_lt_is_Some_2.
  unfold swap. rewrite Hx, Hy. eauto.
Qed.

Lemma shuffle_loop_Permutation {T} (rv : nat → Q) :
  (∀ n, (0 <= rv n)%Q ∧ (rv n < 1)%Q) →
  ∀ (i k : nat) (a : list T),
    (i < length a)%nat →
    ∃ out, shuffle_loop rv k i a = Some out ∧ out ≡ₚ a ∧ length out = length a.
Proof.
  intros Hrv i. induction i as [|i IH]; intros k a Hlen; simpl.
  - by exists a.
  - destruct (Hrv k) as [Hlo Hhi].
    pose proof (random_index_range (rv k) (S i) Hlo Hhi) as [Hj0 Hji].
    destruct (0 <=? random_index (rv k) (S i)) eqn:Hpos; [|lia].
    destruct (swap_in_range a (S i) (Z.to_nat (random_index (rv k) (S i))))
      as [a' Ha']; [lia..|].
    rewrite Ha'. apply swap_Permutation in Ha' as [Hperm Hl].
    destruct (IH (S k) a') as (out & Hout & Hp & Hlo'); [lia|].
    exists out. rewrite Hout. split; [done|]. split; [by rewrite Hp|lia].
Qed.

Lemma trueRandomShuffle_in_range {T} (rv : nat → Q) (k : nat) (S0 : list T) :
  (∀ n, (0 <= rv n)%Q ∧ (rv n < 1)%Q) →
  ∃ out, trueRandomShuffle rv k S0 = Some out
         ∧ out ≡ₚ S0 ∧ length out = length S0.
Proof.
  intros Hrv. unfold trueRandomShuffle.
  destruct S0 as [|x rest].
  - exists []. by simpl.
  - apply shuffle_loop_Permutation; [done|]. simpl. lia.
Qed.

(** C2.  For every array and every sequence of random values in [0, 1),
    [trueRandomShuffle] returns an array of the same length that is a
    permutation of its input. *)
Theorem trueRandomShuffle_permutation {T} (rv : nat → Q) (k : nat) (S0 : list T) :
  (∀ n, (0 <= rv n)%Q ∧ (rv n < 1)%Q) →
  ∃ out, trueRandomShuffle rv k S0 = Some out
         ∧ out ≡ₚ S0 ∧ length out = length S0.
Proof.
  intros Hrv. unfold trueRandomShuffle.
  destruct S0 as [|x rest]; simpl.
  - exists []. done.
  - rewrite Nat.sub_0_r.
    destruct (shuffle_loop_Permutation rv Hrv (length rest) k (x :: rest))
      as (out & Hout & Hperm & Hlen); [simpl; lia|].
    exists out. done.
Qed.

(** ** Playback wrappers *)

Lemma wrapper_true_or_throws (m : M (option Json)) :
  true_or_throws (let* res := m in ret (not_null_or_true res)).
Proof.
  intros w. unfold bind, ret, not_null_or_true.
  destruct (m w) as [[res|e] w']; simpl.
  - left. by rewrite orb_true_r.
  - right. by exists e.
Qed.

(** C10.  Every playback-control wrapper either throws or returns [true]:
    no execution path returns [false], whatever the HTTP call did. *)
Theorem playback_wrappers_never_false (env : Env) :
  (∀ uris deviceId positionMs, true_or_throws (playUris env uris deviceId positionMs))
  ∧ (∀ deviceId, true_or_throws (resume env deviceId))
  ∧ (∀ deviceId, true_or_throws (pause env deviceId))
  ∧ (∀ deviceId, true_or_throws (next env deviceId))
  ∧ (∀ deviceId, true_or_throws (previous env deviceId))
  ∧ (∀ enabled deviceId, true_or_throws (setShuffle env enabled deviceId))
  ∧ (∀ deviceId play, true_or_throws (transferPlayback env deviceId play))
  ∧ (∀ uri deviceId, true_or_throws (addToQueue env uri deviceId)).
Proof.
  repeat split; intros; apply wrapper_true_or_throws.
Qed.

(** A queue addition that the provider fails with 500 still returns
    [true]. *)
Example addToQueue_true_on_server_error :
  (addToQueue (example_env (λ _ _, empty_reply 500)) "spotify:track:1" (Some "dev1")
     signed_in).1 = Ret true.
Proof. vm_compute. reflexivity. Qed.

(** ** Token refresh: what it leaves behind *)

Lemma has_token_insert (s : gmap string string) (k v : string) :
  k ≠ "spotify_access_token" →
  truthy_str (<[k:=v]> s !! "spotify_access_token")
  = truthy_str (s !! "spotify_access_token").
Proof. intros. by rewrite lookup_insert_ne. Qed.

Lemma token_step_refl w : token_step w w.
Proof.
  split; [done|]. split; [done|]. exists []. rewrite app_nil_r.
  split; [done|]. split; [constructor | simpl; lia].
Qed.

Ltac step_monad :=
  repeat (progress unfold getAccessTokenExpiryTs, setAccessToken, setRefreshToken,
    setAccessTokenExpiryTs, getRefreshToken, getAccessToken, setItem_opt,
    setItem, removeItem, with_storage, getItem, Date_now, log, sleep,
    fetch, json, payload, throw_forbidden, throw_rate_limit,
    bind, ret, throw, try_catch in * ).

Ltac lookup_storage :=
  repeat first [ rewrite lookup_insert_eq
               | rewrite lookup_insert_ne by done
               | rewrite lookup_delete_eq
               | rewrite lookup_delete_ne by done ].

Lemma refreshAccessToken_step env w r w' :
  refreshAccessToken env w = (r, w') →
  (∃ b, r = Ret b) ∧ token_step w w'.
Proof.
  unfold refreshAccessToken. step_monad. intros H.
  repeat (case_match; simplify_eq/=);
    (split; [eauto|]);
    try apply token_step_refl.
  all: (split; [unfold has_token; simpl; intros; lookup_storage; done|]).
  all: (split; [done|]).
  all: (eexists [_]; split; [done|]; split; [by repeat constructor|simpl; lia]).
Qed.

(** C3 (what the code does).  A successful refresh whose response carries a
    lifetime [expires_in] leaves the lifetime itself, in seconds, under
    [spotify_access_expiry_ts]: the timestamp written first is overwritten.
    A response without a refresh token leaves the stored one in place. *)
Theorem refreshAccessToken_persists_lifetime env w rtok resp d tok e :
  storage w !! "spotify_refresh_token" = Some rtok →
  truthy_str (Some rtok) = true →
  outcome (net env (trace w)
     (token_request [("grant_type", "refresh_token"); ("refresh_token", rtok);
                     ("client_id", CLIENT_ID env)])) = Responded resp →
  body resp = BodyJson (JToken d) →
  access_token d = Some tok → truthy_str (Some tok) = true →
  expires_in d = Some e → e ≠ 0 →
  ∃ w', refreshAccessToken env w = (Ret true, w')
        ∧ storage w' !! "spotify_access_expiry_ts" = Some (String_of_number e)
        ∧ storage w' !! "spotify_access_token" = Some tok
        ∧ (truthy_str (refresh_token d) = false →
           storage w' !! "spotify_refresh_token" = Some rtok).
Proof.
  intros Hr Hrt Hnet Hbody Htok Htt He He0.
  unfold refreshAccessToken. step_monad. rewrite Hr.
  destruct rtok as [|a0 r0]; [done|].
  rewrite Hnet, Hbody. simpl. rewrite Htok.
  destruct tok as [|a1 r1]; [done|].
  assert (Hnum : truthy_num (Some e) = true).
  { simpl. by apply negb_true_iff, Z.eqb_neq. }
  destruct (refresh_token d) as [[|a2 r2]|] eqn:Hrf; simpl;
    rewrite He, Hnum; simpl; eexists; (split; [reflexivity|]); simpl;
    lookup_storage; done.
Qed.

(** ** The executor's requests *)

Lemma api_calls_cons e l :
  api_calls (e :: l)
  = match api_call e with
    | Some c => c :: api_calls l
    | None => api_calls l
    end.
Proof. reflexivity. Qed.

Lemma api_calls_app l1 l2 : api_calls (l1 ++ l2) = api_calls l1 ++ api_calls l2.
Proof. apply omap_app. Qed.


Lemma call_step_trans c1 c2 w1 w2 w3 :
  call_step c1 w1 w2 → call_step c2 w2 w3 → call_step (c1 ++ c2) w1 w3.
Proof.
  intros (Ht1 & Hd1 & d1 & Htr1 & Hf1 & Hc1) (Ht2 & Hd2 & d2 & Htr2 & Hf2 & Hc2).
  split; [auto|]. split; [congruence|].
  exists (d1 ++ d2). rewrite Htr2, Htr1, app_assoc. split; [done|].
  split; [by apply Forall_app|].
  by rewrite api_calls_app, Hc1, Hc2.
Qed.

Lemma token_step_call_step w w' : token_step w w' → call_step [] w w'.
Proof.
  intros (Ht & Hd & delta & Htr & Hf & _).
  split; [done|]. split; [done|]. exists delta. split; [done|].
  split.
  - eapply Forall_impl; [exact Hf|]. by intros [].
  - clear Htr. induction Hf as [|e l He _ IH]; [done|].
    rewrite api_calls_cons, IH.
    destruct e; try done. simpl in He.
    apply andb_true_iff in He as [He _]. apply bool_decide_eq_true in He.
    simpl. by rewrite He.
Qed.

Lemma fetch_call_step env u meth b tok w r w' :
  fetch env (api_request u meth b tok) w = (r, w') →
  call_step [(u, str_or meth "GET", b)] w w'.
Proof.
  unfold fetch. intros H.
  assert (Hw : w' = {| storage := storage w;
                       now := now w + latency (net env (trace w) (api_request u meth b tok));
                       trace := trace w ++ [EFetch (api_request u meth b tok)];
                       drawn := drawn w |}).
  { by destruct (outcome _); simplify_eq. }
  subst w'. split; [done|]. split; [done|].
  eexists [_]. split; [done|]. split; [by repeat constructor|done].
Qed.

Lemma bind_inv {A B} (m : M A) (k : A → M B) w r w' :
  bind m k w = (r, w') →
  (∃ a w1, m w = (Ret a, w1) ∧ k a w1 = (r, w'))
  ∨ (∃ e, m w = (Throw e, w') ∧ r = Throw e).
Proof.
  unfold bind. destruct (m w) as [[a|e] w1]; intros H.
  - left. eauto.
  - right. injection H as <- <-. eauto.
Qed.

Lemma quiet_ret {A} (a : A) : quiet (ret a).
Proof. intros w r w' H. by injection H. Qed.

Lemma quiet_throw {A} (e : JsError) : quiet (@throw A e).
Proof. intros w r w' H. by injection H. Qed.

Lemma quiet_json r : quiet (json r).
Proof. unfold json. destruct (body r); [apply quiet_throw|apply quiet_ret]. Qed.

Lemma quiet_bind {A B} (m : M A) (k : A → M B) :
  quiet m → (∀ a, quiet (k a)) → quiet (bind m k).
Proof.
  intros Hm Hk w r w' H.
  apply bind_inv in H as [(a & w1 & H1 & H2)|(e & H1 & _)].
  - apply Hm in H1. apply Hk in H2. congruence.
  - by apply Hm in H1.
Qed.

Lemma quiet_try_catch {A} (m : M A) (h : JsError → M A) :
  quiet m → (∀ e, quiet (h e)) → quiet (try_catch m h).
Proof.
  intros Hm Hh w r w' H. unfold try_catch in H.
  destruct (m w) as [[a|e] w1] eqn:E; apply Hm in E; subst w1.
  - by injection H.
  - by apply Hh in H.
Qed.

Lemma quiet_payload r : quiet (payload r).
Proof.
  unfold payload. destruct (includes _ _); [|apply quiet_ret].
  apply quiet_bind; [apply quiet_json|]. intros. apply quiet_ret.
Qed.

Lemma quiet_throw_forbidden {A} r : quiet (@throw_forbidden A r).
Proof.
  unfold throw_forbidden. apply quiet_bind.
  - apply quiet_try_catch; [apply quiet_json|]. intros. apply quiet_ret.
  - intros j. destruct (error_message_of j); [destruct (includes _ _)|];
      apply quiet_throw.
Qed.

Lemma quiet_throw_rate_limit {A} r : quiet (@throw_rate_limit A r).
Proof. apply quiet_throw. Qed.

Lemma try_catch_world {A} (m : M A) (h : JsError → M A) w r w' :
  (∀ e, quiet (h e)) →
  try_catch m h w = (r, w') → ∃ r0, m w = (r0, w').
Proof.
  intros Hh H. unfold try_catch in H.
  destruct (m w) as [[a|e] w1] eqn:E.
  - injection H as <- <-. eauto.
  - apply Hh in H. subst. eauto.
Qed.

Lemma makeApiCall_no_token env u meth b w :
  has_token w = false →
  makeApiCall env u meth b w = (Throw (new_Error "No access token available"), w).
Proof.
  unfold has_token, makeApiCall, bind, getItem. intros H.
  by destruct (storage w !! "spotify_access_token") as [[|??]|].
Qed.

Lemma call_step_one c w1 w2 w3 :
  call_step [] w1 w2 → call_step [c] w2 w3 → call_step [c] w1 w3.
Proof. intros H1 H2. apply (call_step_trans [] [c] _ _ _ H1 H2). Qed.

Lemma proactive_refresh_token_step env (cond : bool) w r w' :
  ((if cond then refreshAccessToken env >> ret tt else ret tt) w) = (r, w') →
  r = Ret tt ∧ token_step w w'.
Proof.
  destruct cond; intros H.
  - apply bind_inv in H as [(a & w1 & H1 & H2)|(e & H1 & _)].
    + injection H2 as <- <-.
      by apply refreshAccessToken_step in H1 as [_ H1].
    + by apply refreshAccessToken_step in H1 as [[? ?] _].
  - injection H as <- <-. split; [done|apply token_step_refl].
Qed.

Lemma proactive_refresh_step env (cond : bool) w r w' :
  ((if cond then refreshAccessToken env >> ret tt else ret tt) w) = (r, w') →
  r = Ret tt ∧ call_step [] w w'.
Proof.
  intros [? ?%token_step_call_step]%proactive_refresh_token_step. done.
Qed.

Lemma fetch_inv env req w r w' :
  fetch env req w = (r, w') →
  trace w' = trace w ++ [EFetch req]
  ∧ storage w' = storage w
  ∧ r = match outcome (net env (trace w) req) with
        | Rejected e => Throw e
        | Responded x => Ret x
        end.
Proof.
  unfold fetch. destruct (outcome _); intros [= <- <-]; done.
Qed.

Lemma try_catch_inv {A} (m : M A) (h : JsError → M A) w r w' :
  try_catch m h w = (r, w') →
  (∃ a, m w = (Ret a, w') ∧ r = Ret a)
  ∨ (∃ e w1, m w = (Throw e, w1) ∧ h e w1 = (r, w')).
Proof.
  unfold try_catch. destruct (m w) as [[a|e] w1]; intros H.
  - left. injection H as <- <-. eauto.
  - right. eauto.
Qed.

Ltac quiet_leaf H :=
  first [ apply quiet_ret in H | apply quiet_payload in H
        | apply quiet_throw_forbidden in H | apply quiet_throw_rate_limit in H ];
  subst.

Lemma makeApiCall_calls env u meth b w r w' :
  has_token w = true →
  makeApiCall env u meth b w = (r, w') →
  ∃ calls, call_step calls w w'
           ∧ (calls = [(u, str_or meth "GET", b)]
              ∨ calls = [(u, str_or meth "GET", b); (u, str_or meth "GET", b)]).
Proof.
  intros Htok H. unfold has_token in Htok. unfold makeApiCall in H.
  apply bind_inv in H as [(tok & w1 & H1 & H)|(e & H1 & _)]; [|done].
  unfold getItem in H1. injection H1 as <- <-.
  destruct (storage w !! "spotify_access_token") as [[|a s]|]; try done.
  apply try_catch_world in H as [r0 H];
    [|intros e; destruct (includes _ _); [apply quiet_throw|apply quiet_ret]].
  clear r Htok.
  apply bind_inv in H as [(exp & w1 & H1 & H)|(e & H1 & _)]; [|done].
  assert (w1 = w) as ->.
  { revert H1. unfold getAccessTokenExpiryTs, bind, getItem, ret. by intros [= _ <-]. }
  clear H1.
  apply bind_inv in H as [(t & w1 & H1 & H)|(e & H1 & _)]; [|done].
  injection H1 as _ <-.
  apply bind_inv in H as [(? & w1 & Hpro & H)|(e & Hpro & _)];
    apply proactive_refresh_step in Hpro as [? Hpro]; [|done].
  apply bind_inv in H as [(response & w2 & Hf & H)|(e & Hf & _)];
    apply fetch_call_step in Hf; pose proof (call_step_one _ _ _ _ Hpro Hf) as H1.
  2:{ eexists. split; [exact H1|by left]. }
  destruct (status response =? 204); [quiet_leaf H; eauto|].
  destruct (ok response); [quiet_leaf H; eauto|].
  destruct (status response =? 429); [quiet_leaf H; eauto|].
  destruct (status response =? 403); [quiet_leaf H; eauto|].
  destruct (status response =? 401); [|quiet_leaf H; eauto].
  apply bind_inv in H as [(refreshed & w3 & Hr & H)|(e & Hr & _)];
    apply refreshAccessToken_step in Hr as [_ Hr%token_step_call_step];
    pose proof (call_step_trans _ _ _ _ _ H1 Hr) as H2; simpl in H2; [|eauto].
  destruct refreshed; [|quiet_leaf H; eauto].
  apply bind_inv in H as [(retry & w4 & Hf2 & H)|(e & Hf2 & _)];
    apply fetch_call_step in Hf2;
    pose proof (call_step_trans _ _ _ _ _ H2 Hf2) as H3; simpl in H3; [|eauto].
  destruct (status retry =? 204); [quiet_leaf H; eauto|].
  destruct (status retry =? 403); [quiet_leaf H; eauto|].
  destruct (status retry =? 429); [quiet_leaf H; eauto|].
  destruct (ok retry); quiet_leaf H; eauto.
Qed.

Lemma api_calls_token_fetches delta :
  Forall (λ e, is_token_fetch e = true) delta → api_calls delta = [].
Proof.
  induction 1 as [|e l He _ IH]; [done|].
  rewrite api_calls_cons, IH.
  destruct e; try done. simpl in He.
  apply andb_true_iff in He as [He _]. apply bool_decide_eq_true in He.
  simpl. by rewrite He.
Qed.

Lemma refreshAccessToken_sends env w rtok r w1 :
  storage w !! "spotify_refresh_token" = Some rtok →
  truthy_str (Some rtok) = true →
  refreshAccessToken env w = (r, w1) →
  trace w1 = trace w ++ [EFetch (token_request
                [("grant_type", "refresh_token"); ("refresh_token", rtok);
                 ("client_id", CLIENT_ID env)])].
Proof.
  intros Hr Hrt. unfold refreshAccessToken. step_monad. rewrite Hr.
  destruct rtok as [|a0 r0]; [done|]. intros H.
  repeat (case_match; simplify_eq/=); done.
Qed.

Lemma refreshAccessToken_no_refresh_token env w :
  truthy_str (storage w !! "spotify_refresh_token") = false →
  refreshAccessToken env w = (Ret false, w).
Proof.
  intros H. unfold refreshAccessToken, getRefreshToken, getItem, bind, ret.
  by destruct (storage w !! "spotify_refresh_token") as [[|??]|].
Qed.

(** C4 (as amended).  When the first response to a request is 401,
    [makeApiCall] makes one refresh attempt in reaction: one run of
    [refreshAccessToken] from the world [w2] in which the 401 arrived, which
    sends one request to the token endpoint when a refresh token is stored
    and none otherwise.  The identical request is repeated exactly when that
    attempt returned [true], and then once; when it returned [false] nothing
    more is sent and the call returns [null].  Nothing is sent after the
    repeated request, and the call returns [null] when it is answered by 401
    again.  Before the first request, sent from the world [w1], there is at
    most one more token request: that of the proactive refresh, when the
    stored expiry has passed. *)
Theorem makeApiCall_401_single_retry env u meth b w tok r w' :
  storage w !! "spotify_access_token" = Some tok →
  truthy_str (Some tok) = true →
  (∀ hist, api_calls hist = api_calls (trace w) →
     ∃ resp, outcome (net env hist (api_request u meth b tok)) = Responded resp
             ∧ status resp = 401) →
  makeApiCall env u meth b w = (r, w') →
  ∃ pre w1 resp w2 refreshed w3 mid post,
    (w1 = w ∨ ∃ b0, refreshAccessToken env w = (Ret b0, w1))
    ∧ trace w1 = trace w ++ pre
    ∧ Forall (λ e, is_token_fetch e = true) pre ∧ (length pre <= 1)%nat
    ∧ fetch env (api_request u meth b tok) w1 = (Ret resp, w2) ∧ status resp = 401
    ∧ trace w2 = trace w ++ pre ++ [EFetch (api_request u meth b tok)]
    ∧ refreshAccessToken env w2 = (Ret refreshed, w3)
    ∧ trace w3 = trace w2 ++ mid
    ∧ Forall (λ e, is_token_fetch e = true) mid
    ∧ (truthy_str (storage w2 !! "spotify_refresh_token") = true → length mid = 1%nat)
    ∧ (truthy_str (storage w2 !! "spotify_refresh_token") = false →
       mid = [] ∧ refreshed = false)
    ∧ trace w' = trace w3 ++ post
    ∧ (if refreshed
       then post = [EFetch (api_request u meth b tok)]
            ∧ ∀ retry,
                outcome (net env (trace w3) (api_request u meth b tok)) = Responded retry →
                status retry = 401 → r = Ret None
       else post = [] ∧ r = Ret None).
Proof.
  intros Htok Htruthy Hnet H.
  unfold makeApiCall, bind at 1, getItem at 1 in H. rewrite Htok in H.
  destruct tok as [|a s]; [done|].
  set (req := api_request u meth b (String a s)) in *.
  apply try_catch_inv in H.
  assert (Hbody : ∀ r0 w0,
    (let* accessTokenExpiryTs := getAccessTokenExpiryTs in
     let* t := Date_now in
     (if truthy_num accessTokenExpiryTs && (t >? default 0 accessTokenExpiryTs)
      then refreshAccessToken env >> ret tt else ret tt) >>
     let* response := fetch env req in
     if status response =? 204 then ret None
     else if ok response then payload response
     else if status response =? 429 then throw_rate_limit response
     else if status response =? 403 then throw_forbidden response
     else if status response =? 401 then
       let* refreshed := refreshAccessToken env in
       if refreshed : bool then
         let* retry := fetch env req in
         if status retry =? 204 then ret None
         else if status retry =? 403 then throw_forbidden retry
         else if status retry =? 429 then throw_rate_limit retry
         else if ok retry then payload retry
         else ret None
       else ret None
     else ret None) w = (r0, w0) →
    ∃ pre w1 resp w2 refreshed w3 mid post,
      (w1 = w ∨ ∃ b0, refreshAccessToken env w = (Ret b0, w1))
      ∧ trace w1 = trace w ++ pre
      ∧ Forall (λ e, is_token_fetch e = true) pre ∧ (length pre <= 1)%nat
      ∧ fetch env req w1 = (Ret resp, w2) ∧ status resp = 401
      ∧ trace w2 = trace w ++ pre ++ [EFetch req]
      ∧ refreshAccessToken env w2 = (Ret refreshed, w3)
      ∧ trace w3 = trace w2 ++ mid
      ∧ Forall (λ e, is_token_fetch e = true) mid
      ∧ (truthy_str (storage w2 !! "spotify_refresh_token") = true → length mid = 1%nat)
      ∧ (truthy_str (storage w2 !! "spotify_refresh_token") = false →
         mid = [] ∧ refreshed = false)
      ∧ trace w0 = trace w3 ++ post
      ∧ (if refreshed
         then post = [EFetch req]
              ∧ ∀ retry,
                  outcome (net env (trace w3) req) = Responded retry →
                  status retry = 401 → r0 = Ret None
         else post = [] ∧ r0 = Ret None)).
  { intros r0 w0 Hm.
    apply bind_inv in Hm as [(exp & w1 & H1 & Hm)|(e & H1 & _)]; [|done].
    assert (w1 = w) as ->.
    { revert H1. unfold getAccessTokenExpiryTs, bind, getItem, ret. by intros [= _ <-]. }
    clear H1.
    apply bind_inv in Hm as [(t & w1 & H1 & Hm)|(e & H1 & _)]; [|done].
    injection H1 as _ <-.
    apply bind_inv in Hm as [(? & w1 & Hpro & Hm)|(e & Hpro & _)];
      pose proof Hpro as Hpro0;
      apply proactive_refresh_token_step in Hpro
        as (? & _ & _ & pre & Hpre & Hpre_tok & Hpre_len); [|done].
    assert (Hw1 : w1 = w ∨ ∃ b0, refreshAccessToken env w = (Ret b0, w1)).
    { destruct (truthy_num exp && _); [right|left].
      - apply bind_inv in Hpro0 as [(b0 & w1' & Hrf & Hret)|(e & _ & [=])].
        apply quiet_ret in Hret as ->. eauto.
      - by apply quiet_ret in Hpro0. }
    clear Hpro0.
    destruct (Hnet (trace w1)) as (resp & Hresp & Hst).
    { by rewrite Hpre, api_calls_app, (api_calls_token_fetches _ Hpre_tok), app_nil_r. }
    apply bind_inv in Hm as [(response & w2 & Hf & Hm)|(e & Hf & _)];
      pose proof Hf as Hf0;
      apply fetch_inv in Hf as (Htr2 & _ & Hr); rewrite Hresp in Hr; [|done].
    injection Hr as ->.
    unfold ok in Hm. rewrite Hst in Hm. simpl in Hm.
    apply bind_inv in Hm as [(refreshed & w3 & Hr & Hm)|(e & Hr & _)];
      pose proof Hr as Hrun;
      apply refreshAccessToken_step in Hr
        as ([? ?] & _ & _ & mid & Hmid & Hmid_tok & Hmid_len); [|done].
    assert (Hw2 : trace w2 = trace w ++ pre ++ [EFetch req]).
    { rewrite Htr2, Hpre, <- !app_assoc. done. }
    assert (Hone : truthy_str (storage w2 !! "spotify_refresh_token") = true →
                   length mid = 1%nat).
    { intros Hrt.
      destruct (storage w2 !! "spotify_refresh_token") as [rtok|] eqn:Hrtok; [|done].
      pose proof (refreshAccessToken_sends _ _ _ _ _ Hrtok Hrt Hrun) as Hs.
      rewrite Hmid in Hs. by apply app_inv_head in Hs as ->. }
    assert (Hnone : truthy_str (storage w2 !! "spotify_refresh_token") = false →
                    mid = [] ∧ refreshed = false).
    { intros Hrt. rewrite (refreshAccessToken_no_refresh_token _ _ Hrt) in Hrun.
      injection Hrun as <- <-. split; [|done].
      rewrite <- (app_nil_r (trace w2)) in Hmid at 1. by apply app_inv_head in Hmid. }
    exists pre, w1, resp, w2, refreshed, w3, mid.
    destruct refreshed.
    - exists [EFetch req].
      apply bind_inv in Hm as [(retry & w4 & Hf & Hm)|(e & Hf & ->)];
        apply fetch_inv in Hf as (Htr4 & _ & Hr).
      + assert (w0 = w4) as ->.
        { destruct (status retry =? 204); [by apply quiet_ret in Hm|].
          destruct (status retry =? 403); [by apply quiet_throw_forbidden in Hm|].
          destruct (status retry =? 429); [by apply quiet_throw_rate_limit in Hm|].
          destruct (_ && _); [by apply quiet_payload in Hm|by apply quiet_ret in Hm]. }
        do 12 (split; [done|]). split; [done|]. split; [done|].
        intros retry' Hout Hst'. rewrite Hout in Hr. injection Hr as ->.
        rewrite Hst' in Hm. simpl in Hm. by injection Hm.
      + do 12 (split; [done|]). split; [done|]. split; [done|].
        intros retry' Hout _. rewrite Hout in Hr. done.
    - injection Hm as <- <-. exists [].
      do 12 (split; [done|]). split; [by rewrite app_nil_r|]. done. }
  destruct H as [(res & Hm & ->)|(e & w1 & Hm & Hh)].
  - apply Hbody in Hm. exact Hm.
  - apply Hbody in Hm
      as (pre & w0 & resp & w2 & refreshed & w3 & mid & post
          & ? & ? & ? & ? & ? & ? & ? & ? & ? & ? & ? & ? & Htr & Hpost).
    assert (w' = w1) as ->.
    { destruct (includes _ _); [by apply quiet_throw in Hh|by apply quiet_ret in Hh]. }
    exists pre, w0, resp, w2, refreshed, w3, mid, post. do 13 (split; [done|]).
    destruct refreshed.
    + destruct Hpost as [-> Hretry]. split; [done|].
      intros retry Hout Hst'. by specialize (Hretry retry Hout Hst').
    + by destruct Hpost as [_ [=]].
Qed.

(** ** Observation steps *)

Lemma observations_app l1 l2 :
  observations (l1 ++ l2) = observations l1 ++ observations l2.
Proof. apply omap_app. Qed.

Lemma obs_step_refl w : obs_step [] w w.
Proof. split; [done|]. split; [done|]. by rewrite app_nil_r. Qed.

Lemma obs_step_trans o1 o2 w1 w2 w3 :
  obs_step o1 w1 w2 → obs_step o2 w2 w3 → obs_step (o1 ++ o2) w1 w3.
Proof.
  intros (Ht1 & Hd1 & H1) (Ht2 & Hd2 & H2).
  split; [auto|]. split; [congruence|]. by rewrite H2, H1, app_assoc.
Qed.

Lemma observations_fetches delta :
  Forall (λ e, is_fetch e = true) delta →
  observations delta = OCall <$> api_calls delta.
Proof.
  induction 1 as [|e l He _ IH]; [done|].
  rewrite api_calls_cons. destruct e as [req| | | | | |]; try done.
  change (observations (EFetch req :: l))
    with (match OCall <$> api_call (EFetch req) with
          | Some o => o :: observations l
          | None => observations l
          end).
  rewrite IH. by destruct (api_call (EFetch req)).
Qed.

Lemma call_step_obs_step calls w w' :
  call_step calls w w' → obs_step (OCall <$> calls) w w'.
Proof.
  intros (Ht & Hd & delta & Htr & Hf & Hc).
  split; [done|]. split; [done|].
  rewrite Htr, observations_app. by rewrite (observations_fetches delta Hf), Hc.
Qed.

Lemma sleep_obs_step ms w : obs_step [] (sleep ms w).2 (sleep ms w).2 ∧ obs_step [] w (sleep ms w).2.
Proof.
  split; [apply obs_step_refl|].
  split; [done|]. split; [done|]. simpl.
  by rewrite observations_app.
Qed.

Lemma log_obs_step e o w :
  observe e = Some o → obs_step [o] w (log e w).2.
Proof.
  intros He. split; [done|]. split; [done|]. simpl.
  rewrite observations_app. unfold observations at 2. simpl. by rewrite He.
Qed.

Lemma makeApiCall_obs env u meth b w r w' :
  has_token w = true →
  makeApiCall env u meth b w = (r, w') →
  ∃ k, (1 <= k <= 2)%nat
       ∧ obs_step (replicate k (OCall (u, str_or meth "GET", b))) w w'.
Proof.
  intros Ht H.
  apply (makeApiCall_calls _ _ _ _ _ _ _ Ht) in H as (calls & Hs & [->| ->]).
  - exists 1%nat. split; [lia|]. by apply call_step_obs_step in Hs.
  - exists 2%nat. split; [lia|]. by apply call_step_obs_step in Hs.
Qed.

Lemma makeApiCall_obs_any env u meth b w r w' :
  makeApiCall env u meth b w = (r, w') →
  ∃ k, (k <= 2)%nat
       ∧ obs_step (replicate k (OCall (u, str_or meth "GET", b))) w w'
       ∧ (has_token w = true → (1 <= k)%nat).
Proof.
  intros H. destruct (has_token w) eqn:Ht.
  - apply (makeApiCall_obs _ _ _ _ _ _ _ Ht) in H as (k & Hk & Hs).
    exists k. split; [lia|]. split; [done|]. lia.
  - rewrite (makeApiCall_no_token _ _ _ _ _ Ht) in H. injection H as _ <-.
    exists 0%nat. split; [lia|]. split; [apply obs_step_refl|done].
Qed.

(** ** The queue submission pipeline *)

Section Pipeline.
Variable env : Env.
Variable deviceId : string.

Lemma retry_loop_obs uri (fuel : nat) :
  ∀ (retryCount : Z) w,
    0 <= retryCount →
    ∃ w' k,
      retry_loop env fuel uri deviceId retryCount w = (Ret tt, w')
      ∧ obs_step (replicate k (OCall (queue_url deviceId uri, "POST", NoBody))) w w'
      ∧ (k <= 2 * Z.to_nat (4 - retryCount))%nat
      ∧ (has_token w = true → (0 < fuel)%nat → retryCount <= 3 → (1 <= k)%nat).
Proof.
  induction fuel as [|fuel IH]; intros rc w Hrc; simpl.
  - exists w, 0%nat. split; [done|]. split; [apply obs_step_refl|]. lia.
  - unfold maxRetries. destruct (rc <=? 3) eqn:Hle.
    2:{ exists w, 0%nat. split; [done|]. split; [apply obs_step_refl|]. lia. }
    apply Z.leb_le in Hle.
    unfold attempt, addToQueue, bind.
    destruct (makeApiCall env (SPOTIFY_ENDPOINTS.QUEUE uri (Some deviceId))
                (Some "POST") NoBody w) as [[res|e] w1] eqn:Hcall;
      apply makeApiCall_obs_any in Hcall as (k1 & Hk1 & Hs1 & Hk1'); simpl.
    + exists w1, k1. split; [done|]. split; [done|].
      split; [lia|]. intros Ht' _ _. by apply Hk1'.
    + destruct (is_rate_limited e).
      2:{ exists w1, k1. split; [done|]. split; [done|].
          split; [lia|]. intros Ht' _ _. by apply Hk1'. }
      set (w2 := ((if rc + 1 <=? 3 then sleep (2 ^ (rc + 1 - 1) * 1000) else ret tt) w1).2).
      assert (Hs2 : obs_step [] w1 w2).
      { subst w2. destruct (rc + 1 <=? 3); [apply sleep_obs_step|apply obs_step_refl]. }
      assert (Hrun : (if rc + 1 <=? 3 then sleep (2 ^ (rc + 1 - 1) * 1000) else ret tt) w1
                     = (Ret tt, w2)).
      { subst w2. by destruct (rc + 1 <=? 3). }
      rewrite Hrun.
      destruct (IH (rc + 1) w2) as (w' & k2 & Hloop & Hs3 & Hk2 & _); [lia|].
      exists w', (k1 + k2)%nat. split; [done|]. split.
      * rewrite replicate_add.
        eapply obs_step_trans; [exact Hs1|].
        by apply (obs_step_trans [] _ _ _ _ Hs2).
      * split; [lia|]. intros Ht' _ _. specialize (Hk1' Ht'). lia.
Qed.

Variable ev : nat → nat → Event.
Variable report : nat → nat → Obs.
Hypothesis ev_report : ∀ p t, observe (ev p t) = Some (report p t).

Lemma queue_loop_obs (uris : list string) (total : nat) :
  ∀ (completed : nat) w,
    ∃ w' ks,
      queue_loop env uris deviceId (λ p t, log (ev p t)) total completed w = (Ret tt, w')
      ∧ length ks = length uris
      ∧ Forall (λ k, k <= 8)%nat ks
      ∧ (has_token w = true → Forall (λ k, 1 <= k)%nat ks)
      ∧ obs_step (expected report ks (queue_url deviceId <$> uris) completed total) w w'.
Proof.
  induction uris as [|uri rest IH]; intros completed w; cbn [queue_loop].
  - exists w, []. split; [done|]. split; [done|]. split; [done|].
    split; [done|]. apply obs_step_refl.
  - destruct (retry_loop_obs uri (Z.to_nat maxRetries + 2) 0 w)
      as (w1 & k & Hretry & Hs1 & Hk & Hk1); [lia|].
    assert (Hk8 : (k <= 8)%nat) by (simpl in Hk; lia).
    unfold bind at 1. rewrite Hretry.
    unfold bind at 1. unfold log at 1.
    set (w2 := (log (ev (S completed) total) w1).2).
    assert (Hs2 : obs_step [report (S completed) total] w1 w2)
      by apply log_obs_step, ev_report.
    change ({| storage := storage w1; now := now w1;
               trace := trace w1 ++ [ev (S completed) total];
               drawn := drawn w1 |}) with w2.
    set (pause := match rest with [] => ret tt | _ :: _ => sleep 150 end).
    assert (Hpause : ∃ w3, pause w2 = (Ret tt, w3) ∧ obs_step [] w2 w3).
    { subst pause. destruct rest.
      - exists w2. split; [done|apply obs_step_refl].
      - eexists. split; [done|]. apply sleep_obs_step. }
    destruct Hpause as (w3 & Hp & Hs3).
    unfold bind at 1. rewrite Hp.
    destruct (IH (S completed) w3) as (w' & ks & Hloop & Hlen & Hks & Hks1 & Hs4).
    exists w', (k :: ks). split; [done|]. split; [simpl; lia|].
    split; [by constructor|]. split.
    { intros Ht. constructor.
      - apply Hk1; [done|unfold maxRetries; simpl; lia|lia].
      - apply Hks1, Hs3, Hs2, Hs1, Ht. }
    cbn [fmap list_fmap expected].
    eapply obs_step_trans; [exact Hs1|].
    change (report (S completed) total :: ?l) with ([report (S completed) total] ++ l).
    eapply obs_step_trans; [exact Hs2|].
    by apply (obs_step_trans [] _ _ _ _ Hs3).
Qed.

Lemma batchQueueTracks_obs (tracks : list SpotifyTrack) w :
  ∃ w' ks,
    batchQueueTracks env tracks deviceId (λ p t, log (ev p t)) w = (Ret tt, w')
    ∧ length ks = length tracks
    ∧ Forall (λ k, k <= 8)%nat ks
    ∧ (has_token w = true → Forall (λ k, 1 <= k)%nat ks)
    ∧ obs_step (expected report ks ((λ t, queue_url deviceId (uri t)) <$> tracks)
                  0 (length tracks)) w w'.
Proof.
  unfold batchQueueTracks.
  destruct (queue_loop_obs (map uri tracks) (length (map uri tracks)) 0%nat w)
    as (w' & ks & Hrun & Hlen & Hks & Hks1 & Hs).
  exists w', ks. rewrite !length_map in *. split; [done|]. split; [done|].
  split; [done|]. split; [done|]. by rewrite <- list_fmap_compose in Hs.
Qed.

End Pipeline.

Lemma expected_progress (ks : list nat) :
  ∀ (urls : list string) (completed total : nat),
    length ks = length urls →
    omap (λ o, match o with OProgress p t => Some (p, t) | _ => None end)
      (expected OProgress ks urls completed total)
    = (λ i, (i, total)) <$> seq (S completed) (length urls).
Proof.
  induction ks as [|k ks IH]; intros [|u urls] completed total Hlen; try done.
  simpl. rewrite omap_app. simpl. rewrite IH by (simpl in Hlen; lia).
  assert (Hrep : omap (λ o, match o with OProgress p t => Some (p, t) | _ => None end)
            (replicate k (OCall (u, "POST", NoBody))) = []).
  { clear. induction k as [|k IHk]; [done|]. exact IHk. }
  by rewrite Hrep.
Qed.

Lemma progress_events_observations tr :
  progress_events tr
  = omap (λ o, match o with OProgress p t => Some (p, t) | _ => None end)
      (observations tr).
Proof.
  induction tr as [|e tr IH]; [done|].
  unfold progress_events, observations in *.
  destruct e as [req| | | | | |]; simpl; try exact IH.
  - destruct (authorization req); exact IH.
  - f_equal. exact IH.
Qed.

(** C6.  The pipeline always runs to the end: each track is sent in list
    order (at most eight requests, at least one when an access token is
    stored, and none for a later track before the progress report of the
    earlier one), the callback fires after each track, and the reports are
    (1, n), ..., (n, n) whatever the provider answered. *)
Theorem batchQueueTracks_progress env (tracks : list SpotifyTrack) (deviceId : string) w :
  ∃ w' ks,
    batchQueueTracks env tracks deviceId record_progress w = (Ret tt, w')
    ∧ length ks = length tracks
    ∧ Forall (λ k, k <= 8)%nat ks
    ∧ (has_token w = true → Forall (λ k, 1 <= k)%nat ks)
    ∧ observations (trace w')
      = observations (trace w)
        ++ expected OProgress ks
             ((λ t, SPOTIFY_ENDPOINTS.QUEUE (uri t) (Some deviceId)) <$> tracks)
             0 (length tracks)
    ∧ progress_events (trace w')
      = progress_events (trace w)
        ++ ((λ i, (i, length tracks)) <$> seq 1 (length tracks)).
Proof.
  destruct (batchQueueTracks_obs env deviceId EProgress OProgress
              (λ _ _, eq_refl) tracks w) as (w' & ks & Hrun & Hlen & Hks & Hks1 & Hs).
  exists w', ks. split; [exact Hrun|]. split; [done|]. split; [done|].
  split; [done|].
  destruct Hs as (_ & _ & Hobs). split; [exact Hobs|].
  rewrite !progress_events_observations, Hobs, omap_app.
  rewrite expected_progress by (by rewrite length_fmap).
  by rewrite length_fmap.
Qed.

Lemma makeApiCall_fetches env u meth b w r w' :
  makeApiCall env u meth b w = (r, w') →
  ∃ delta, trace w' = trace w ++ delta ∧ Forall (λ e, is_fetch e = true) delta.
Proof.
  intros H. destruct (has_token w) eqn:Ht.
  - apply (makeApiCall_calls _ _ _ _ _ _ _ Ht) in H
      as (calls & (_ & _ & delta & Htr & Hf & _) & _). eauto.
  - rewrite (makeApiCall_no_token _ _ _ _ _ Ht) in H. injection H as _ <-.
    exists []. by rewrite app_nil_r.
Qed.

Lemma sleeps_app l1 l2 : sleeps (l1 ++ l2) = sleeps l1 ++ sleeps l2.
Proof. apply omap_app. Qed.

Lemma sleeps_fetches delta :
  Forall (λ e, is_fetch e = true) delta → sleeps delta = [].
Proof.
  induction 1 as [|e l He _ IH]; [done|]. by destruct e.
Qed.

Lemma submit_with_backoff_sleeps env (uri deviceId : string) (delays : list Z) :
  ∀ w, ∃ w' n,
    submit_with_backoff env delays uri deviceId w = (Ret tt, w')
    ∧ sleeps (trace w') = sleeps (trace w) ++ take n delays.
Proof.
  induction delays as [|delay later IH]; intros w; simpl;
    unfold attempt, addToQueue, bind;
    destruct (makeApiCall env (SPOTIFY_ENDPOINTS.QUEUE uri (Some deviceId))
                (Some "POST") NoBody w) as [[res|e] w1] eqn:Hcall;
    apply makeApiCall_fetches in Hcall as (delta & Htr & Hf); simpl;
    try (exists w1, 0%nat; split; [done|];
         by rewrite Htr, sleeps_app, (sleeps_fetches _ Hf), take_0).
  - destruct (is_rate_limited e);
      (exists w1, 0%nat; split; [done|];
       by rewrite Htr, sleeps_app, (sleeps_fetches _ Hf)).
  - destruct (is_rate_limited e).
    2:{ exists w1, 0%nat. split; [done|].
        by rewrite Htr, sleeps_app, (sleeps_fetches _ Hf), take_0. }
    match goal with |- context [submit_with_backoff _ _ _ _ ?w0] =>
      destruct (IH w0) as (w' & n & Hrun & Hsl) end.
    exists w', (S n). split; [exact Hrun|].
    rewrite Hsl. simpl. rewrite Htr, !sleeps_app, (sleeps_fetches _ Hf).
    rewrite app_nil_r, <- app_assoc. done.
Qed.

(** C5.  The retry loop for one track is the spec's policy with the
    backoff delays 1 s, 2 s, 4 s: a submission classified as 429 is retried
    after the next delay, at most three times; any other error, and the end
    of the delays, end the item.  The item always ends normally, so the run
    goes on to the next track, and the delays it awaited are the first [n]
    of 1 s, 2 s, 4 s. *)
Theorem retry_loop_backoff env (uri deviceId : string) w :
  retry_loop env (Z.to_nat maxRetries + 2) uri deviceId 0 w
  = submit_with_backoff env [1000; 2000; 4000] uri deviceId w
  ∧ ∃ w' n,
      retry_loop env (Z.to_nat maxRetries + 2) uri deviceId 0 w = (Ret tt, w')
      ∧ sleeps (trace w') = sleeps (trace w) ++ take n [1000; 2000; 4000].
Proof.
  assert (Heq : retry_loop env (Z.to_nat maxRetries + 2) uri deviceId 0 w
                = submit_with_backoff env [1000; 2000; 4000] uri deviceId w)
    by reflexivity.
  split; [exact Heq|]. rewrite Heq. apply submit_with_backoff_sleeps.
Qed.

(** ** Authorization-code exchange and the code verifier *)




(** ** Insufficient scope *)

Lemma includes_scope_prefix (m : string) :
  includes ("Insufficient client scope: " ++ m)%string "Rate limit exceeded"
  = includes m "Rate limit exceeded".
Proof. reflexivity. Qed.

Lemma throw_forbidden_scope {A} (resp : Response) (m : string) w :
  body resp = BodyJson (JErrorObj (Some m)) →
  includes m "Insufficient client scope" = true →
  @throw_forbidden A resp w
  = (Throw (new_Error ("Insufficient client scope: " ++ m)%string), w).
Proof.
  intros Hb Hm. unfold throw_forbidden, bind, try_catch, json. rewrite Hb.
  simpl. by rewrite Hm.
Qed.

Lemma makeApiCall_insufficient_scope env u meth b w tok m :
  storage w !! "spotify_access_token" = Some tok →
  truthy_str (Some tok) = true →
  (∀ hist, ∃ resp,
      outcome (net env hist (api_request u meth b tok)) = Responded resp
      ∧ status resp = 403 ∧ body resp = BodyJson (JErrorObj (Some m))) →
  includes m "Insufficient client scope" = true →
  includes m "Rate limit exceeded" = false →
  ∃ w', makeApiCall env u meth b w = (Ret None, w').
Proof.
  intros Htok Htruthy Hnet Hm Hrl.
  unfold makeApiCall, bind at 1, getItem at 1. rewrite Htok.
  destruct tok as [|a s]; [done|].
  match goal with |- context [try_catch ?m0 _] => set (body0 := m0) end.
  destruct (body0 w) as [r0 w0] eqn:Hm0.
  cut (r0 = Throw (new_Error ("Insufficient client scope: " ++ m)%string)).
  { intros ->. exists w0. unfold try_catch. rewrite Hm0.
    unfold new_Error. cbn [message]. by rewrite includes_scope_prefix, Hrl. }
  subst body0.
  apply bind_inv in Hm0 as [(exp & w1 & H1 & H)|(e & H1 & _)].
  2:{ revert H1. unfold getAccessTokenExpiryTs, bind, getItem, ret. done. }
  clear H1.
  apply bind_inv in H as [(t & w2 & H1 & H)|(e & H1 & _)]; [|done].
  clear H1.
  apply bind_inv in H as [(? & w3 & Hpro & H)|(e & Hpro & _)];
    apply proactive_refresh_token_step in Hpro as (? & _); [|done].
  destruct (Hnet (trace w3)) as (resp & Hresp & Hst & Hbody).
  apply bind_inv in H as [(response & w4 & Hf & H)|(e & Hf & _)];
    apply fetch_inv in Hf as (_ & _ & Hr); rewrite Hresp in Hr; [|done].
  injection Hr as ->.
  unfold ok in H. rewrite Hst in H. simpl in H.
  rewrite (throw_forbidden_scope _ _ _ Hbody Hm) in H. by injection H.
Qed.

(** C8 (what the code does).  When the provider answers the saved-tracks
    requests with 403 "Insufficient client scope", [getUserSavedTracks]
    returns the empty list, and [hasRequiredScopes] returns [true]: the
    executor has already turned the error into [null]. *)
Theorem insufficient_scope_is_swallowed env w tok m :
  storage w !! "spotify_access_token" = Some tok →
  truthy_str (Some tok) = true →
  (∀ hist u, ∃ resp,
      outcome (net env hist (api_request u None NoBody tok)) = Responded resp
      ∧ status resp = 403 ∧ body resp = BodyJson (JErrorObj (Some m))) →
  includes m "Insufficient client scope" = true →
  includes m "Rate limit exceeded" = false →
  (∃ w', getUserSavedTracks env w = (Ret [], w'))
  ∧ (∃ w', hasRequiredScopes env w = (Ret true, w')).
Proof.
  intros Htok Htruthy Hnet Hm Hrl. split.
  - destruct (makeApiCall_insufficient_scope env
                (page_query SPOTIFY_ENDPOINTS.SAVED_TRACKS 0) None NoBody
                w tok m Htok Htruthy (λ hist, Hnet hist _) Hm Hrl) as (w' & Hcall).
    exists w'. unfold getUserSavedTracks, fetch_all_pages, try_catch, bind.
    by rewrite Hcall.
  - destruct (makeApiCall_insufficient_scope env
                (SPOTIFY_ENDPOINTS.SAVED_TRACKS ++ "?limit=1")%string None NoBody
                w tok m Htok Htruthy (λ hist, Hnet hist _) Hm Hrl) as (w' & Hcall).
    exists w'. unfold hasRequiredScopes, try_catch, bind.
    by rewrite Hcall.
Qed.

(** ** Paged fetch *)

Lemma makeApiCall_ok env u meth b w j :
  has_token w = true →
  (∀ hist tok, ∃ resp,
      outcome (net env hist (api_request u meth b tok)) = Responded resp
      ∧ status resp = 200
      ∧ includes (str_or (content_type resp) "") "application/json" = true
      ∧ body resp = BodyJson j) →
  ∃ w', makeApiCall env u meth b w = (Ret (Some j), w')
        ∧ call_step [(u, str_or meth "GET", b)] w w'.
Proof.
  intros Htok Hnet. unfold has_token in Htok.
  unfold makeApiCall, bind at 1, getItem at 1.
  destruct (storage w !! "spotify_access_token") as [[|a s]|]; try done.
  match goal with |- context [try_catch ?m0 _] => set (body0 := m0) end.
  destruct (body0 w) as [r0 w0] eqn:Hm0.
  cut (r0 = Ret (Some j) ∧ call_step [(u, str_or meth "GET", b)] w w0).
  { intros [-> Hs]. exists w0. split; [|done]. unfold try_catch. by rewrite Hm0. }
  subst body0.
  apply bind_inv in Hm0 as [(exp & w1 & H1 & H)|(e & H1 & _)].
  2:{ revert H1. unfold getAccessTokenExpiryTs, bind, getItem, ret. done. }
  assert (w1 = w) as ->.
  { revert H1. unfold getAccessTokenExpiryTs, bind, getItem, ret. by intros [= _ <-]. }
  clear H1.
  apply bind_inv in H as [(t & w2 & H1 & H)|(e & H1 & _)]; [|done].
  injection H1 as _ <-.
  apply bind_inv in H as [(? & w3 & Hpro & H)|(e & Hpro & _)];
    apply proactive_refresh_step in Hpro as (? & Hpro); [|done].
  destruct (Hnet (trace w3) (String a s)) as (resp & Hresp & Hst & Hct & Hbody).
  apply bind_inv in H as [(response & w4 & Hf & H)|(e & Hf & _)];
    pose proof (fetch_call_step _ _ _ _ _ _ _ _ Hf) as Hstep;
    apply fetch_inv in Hf as (_ & _ & Hr); rewrite Hresp in Hr; [|done].
  injection Hr as ->.
  unfold ok in H. rewrite Hst in H. simpl in H.
  unfold payload, json, bind, ret in H. rewrite Hct, Hbody in H.
  injection H as <- <-. split; [done|].
  by apply (call_step_one _ _ _ _ Hpro).
Qed.

Lemma tracks_of_items_Some (l : list SpotifyTrack) :
  tracks_of_items ((λ t, {| track := Some t |}) <$> l) = l.
Proof.
  unfold tracks_of_items. induction l as [|t l IH]; [done|].
  simpl. f_equal. exact IH.
Qed.

Lemma page_promise_served env endpoint src (pageIndex : nat) w :
  has_token w = true →
  serves env endpoint src →
  (pageIndex * Z.to_nat limit < length src)%nat →
  ∃ w', page_promise env endpoint (Z.of_nat pageIndex) w
        = (Ret (take (Z.to_nat limit) (drop (pageIndex * Z.to_nat limit) src)), w')
        ∧ call_step [(page_query endpoint (Z.of_nat pageIndex * limit), "GET", NoBody)] w w'.
Proof.
  intros Ht Hserves Hin.
  destruct (makeApiCall_ok env (page_query endpoint (Z.of_nat pageIndex * limit))
              None NoBody w (JPage (page_of src (pageIndex * Z.to_nat limit))) Ht)
    as (w' & Hcall & Hstep).
  { intros hist tok. by apply Hserves. }
  exists w'. split; [|exact Hstep].
  unfold page_promise, try_catch, bind. rewrite Hcall. simpl.
  by rewrite tracks_of_items_Some.
Qed.

Lemma call_step_api_calls calls w w' :
  call_step calls w w' → api_calls (trace w') = api_calls (trace w) ++ calls.
Proof.
  intros (_ & _ & delta & Htr & _ & Hc). by rewrite Htr, api_calls_app, Hc.
Qed.

(** The page requests carry the limit and the offset in the query. *)
Example page_query_offsets (endpoint : string) :
  page_query endpoint 0 = (endpoint ++ "?limit=50&offset=0")%string
  ∧ page_query endpoint 50 = (endpoint ++ "?limit=50&offset=50")%string
  ∧ page_query endpoint 100 = (endpoint ++ "?limit=50&offset=100")%string.
Proof. done. Qed.

(** C9.  For a playlist of 137 tracks served in full pages of 50,
    [getPlaylistTracks] asks for the first page and then for exactly two
    more, at offsets 50 and 100, and returns the 137 tracks in the
    provider's order. *)
Theorem getPlaylistTracks_137 env (playlistId : string) (src : list SpotifyTrack) w :
  length src = 137%nat →
  has_token w = true →
  serves env (SPOTIFY_ENDPOINTS.PLAYLIST_TRACKS playlistId) src →
  ∃ w', getPlaylistTracks env playlistId w = (Ret src, w')
        ∧ api_calls (trace w')
          = api_calls (trace w)
            ++ [(page_query (SPOTIFY_ENDPOINTS.PLAYLIST_TRACKS playlistId) 0, "GET", NoBody);
                (page_query (SPOTIFY_ENDPOINTS.PLAYLIST_TRACKS playlistId) 50, "GET", NoBody);
                (page_query (SPOTIFY_ENDPOINTS.PLAYLIST_TRACKS playlistId) 100, "GET", NoBody)].
Proof.
  intros Hlen Ht Hserves.
  set (ep := SPOTIFY_ENDPOINTS.PLAYLIST_TRACKS playlistId) in *.
  destruct (makeApiCall_ok env (page_query ep 0) None NoBody w
              (JPage (page_of src 0)) Ht) as (w1 & Hcall0 & Hs0).
  { intros hist tok. apply (Hserves hist tok 0%nat). rewrite Hlen. simpl. lia. }
  destruct (page_promise_served env ep src 1 w1) as (w2 & Hp1 & Hs1);
    [by apply Hs0|done|rewrite Hlen; simpl; lia|].
  destruct (page_promise_served env ep src 2 w2) as (w3 & Hp2 & Hs2);
    [by apply Hs1, Hs0|done|rewrite Hlen; simpl; lia|].
  exists w3. split.
  - unfold getPlaylistTracks, try_catch, fetch_all_pages. fold ep.
    unfold bind at 1. rewrite Hcall0.
    cbn [items_of total_of page_of items total].
    rewrite length_fmap, length_take, length_drop, Hlen.
    rewrite tracks_of_items_Some.
    replace (Z.of_nat (Z.to_nat limit `min` (137 - 0)) <? limit) with false by reflexivity.
    replace (Z.of_nat 137 <=? limit) with false by reflexivity.
    replace (Math_ceil_div (Z.of_nat 137 - limit) limit) with 2 by reflexivity.
    clear Hs0 Hs1 Hs2 Hserves Hcall0. clearbody ep.
    cbv -[page_promise take drop app] in Hp1, Hp2 |- *.
    rewrite Hp1, Hp2. f_equal. f_equal.
    rewrite app_nil_r, drop_0.
    rewrite (take_ge (drop 100 src)) by (rewrite length_drop; lia).
    replace (drop 100 src) with (drop 50 (drop 50 src)) by (by rewrite drop_drop).
    by rewrite !take_drop.
  - rewrite (call_step_api_calls _ _ _ Hs2), (call_step_api_calls _ _ _ Hs1),
      (call_step_api_calls _ _ _ Hs0).
    by rewrite <- !app_assoc.
Qed.

(** ** Shuffle-and-queue *)

Lemma obs_step_submissions os w w' :
  obs_step os w w' →
  submissions (trace w') = submissions (trace w) ++ omap submission_of os.
Proof.
  intros (_ & _ & H). unfold submissions. by rewrite H, omap_app.
Qed.

Lemma omap_replicate_None {A B} (f : A → option B) (x : A) (k : nat) :
  f x = None → omap f (replicate k x) = [].
Proof.
  intros Hx. induction k as [|k IH]; [done|].
  change (omap f (replicate (S k) x))
    with (match f x with Some y => y :: omap f (replicate k x)
                    | None => omap f (replicate k x) end).
  by rewrite Hx.
Qed.

Lemma omap_replicate_Some {A B} (f : A → option B) (x : A) (y : B) (k : nat) :
  f x = Some y → omap f (replicate k x) = replicate k y.
Proof.
  intros Hx. induction k as [|k IH]; [done|].
  change (omap f (replicate (S k) x))
    with (match f x with Some y => y :: omap f (replicate k x)
                    | None => omap f (replicate k x) end).
  rewrite Hx, IH. done.
Qed.

Lemma prefix_app (p s : string) : String.prefix p (p ++ s)%string = true.
Proof.
  induction p as [|a p IH]; simpl.
  - by destruct s.
  - by destruct (ascii_dec a a).
Qed.

Lemma queue_url_submission (deviceId uri : string) :
  submission_of (OCall (queue_url deviceId uri, "POST", NoBody))
  = Some (Queued (queue_url deviceId uri)).
Proof.
  unfold submission_of, queue_url, SPOTIFY_ENDPOINTS.QUEUE.
  by rewrite prefix_app.
Qed.

Lemma expected_submissions {X} (f : X → string) (report : nat → nat → Obs) :
  (∀ x, submission_of (OCall (f x, "POST", NoBody)) = Some (Queued (f x))) →
  (∀ p t, submission_of (report p t) = None) →
  ∀ (ks : list nat) (l : list X) (completed total : nat),
    omap submission_of (expected report ks (f <$> l) completed total)
    = concat (zip_with replicate ks ((λ x, Queued (f x)) <$> l)).
Proof.
  intros Hf Hrep ks. induction ks as [|k ks IH]; intros [|x l] completed total;
    try done.
  cbn [fmap list_fmap expected zip_with concat].
  rewrite omap_app.
  rewrite (omap_replicate_Some _ _ _ _ (Hf x)).
  f_equal.
  change (omap submission_of (report (S completed) total :: ?l0))
    with (match submission_of (report (S completed) total) with
          | Some y => y :: omap submission_of l0
          | None => omap submission_of l0 end).
  rewrite Hrep. apply IH.
Qed.

Lemma getDevices_obs env w r w' :
  has_token w = true →
  getDevices env w = (r, w') →
  ∃ k, obs_step (replicate k (OCall (SPOTIFY_ENDPOINTS.DEVICES, "GET", NoBody))) w w'.
Proof.
  intros Ht H. unfold getDevices in H.
  apply bind_inv in H as [(data & w1 & H1 & H)|(e & H1 & _)];
    apply (makeApiCall_obs _ _ _ _ _ _ _ Ht) in H1 as (k & _ & Hs).
  - injection H as _ <-. eauto.
  - eauto.
Qed.

Lemma log_obs_none e w : observe e = None → obs_step [] w (log e w).2.
Proof.
  intros He. split; [done|]. split; [done|]. simpl.
  rewrite observations_app. unfold observations at 2. simpl. by rewrite He.
Qed.

Lemma open_spotify_obs env link w :
  ∃ w', open_spotify env link w = (Ret tt, w') ∧ obs_step [] w w'.
Proof.
  unfold open_spotify. destruct (linking env link).
  - exists w. split; [done|apply obs_step_refl].
  - exists (log (EOpenBrowser "https://open.spotify.com") w).2.
    split; [done|]. by apply log_obs_none.
  - exists (log (EOpenURL link) w).2.
    split; [done|]. by apply log_obs_none.
Qed.

Lemma ensureActiveDevice_obs env trackUri playlistUri w r w' :
  has_token w = true →
  ensureActiveDevice env trackUri playlistUri w = (r, w') →
  (∃ d, r = Ret d)
  ∧ ∃ k, obs_step (replicate k (OCall (SPOTIFY_ENDPOINTS.DEVICES, "GET", NoBody))) w w'.
Proof.
  intros Ht H. unfold ensureActiveDevice in H.
  match type of H with try_catch ?m0 _ _ = _ => set (body0 := m0) in H end.
  assert (Hbody : ∀ r0 w0, body0 w = (r0, w0) →
    ∃ k, obs_step (replicate k (OCall (SPOTIFY_ENDPOINTS.DEVICES, "GET", NoBody))) w w0).
  { intros r0 w0 Hb. subst body0.
    apply bind_inv in Hb as [(devices & w1 & H1 & Hb)|(e & H1 & _)];
      apply (getDevices_obs _ _ _ _ Ht) in H1 as (k1 & Hs1); [|eauto].
    assert (Hrest : ∀ r1 w2,
      (open_spotify env (deeplink_for trackUri playlistUri) >>
       sleep 1500 >>
       let* devices0 := getDevices env in
       match devices0 with
       | Some (d0 :: others) => ret (Some (dev_id (pick_device d0 others)))
       | _ => ret None
       end) w1 = (r1, w2) →
      ∃ k, obs_step (replicate k (OCall (SPOTIFY_ENDPOINTS.DEVICES, "GET", NoBody))) w w2).
    { intros r1 w2 Hr.
      destruct (open_spotify_obs env (deeplink_for trackUri playlistUri) w1)
        as (w1' & Ho & Hs2).
      unfold bind at 1 in Hr. rewrite Ho in Hr.
      unfold bind at 1 in Hr. unfold sleep at 1 in Hr.
      match type of Hr with bind _ _ ?w0 = _ => set (w3 := w0) in Hr end.
      assert (Hs3 : obs_step [] w1' w3) by apply (sleep_obs_step 1500 w1').
      assert (Ht3 : has_token w3 = true) by (by apply Hs3, Hs2, Hs1).
      assert (Hs13 : obs_step (replicate k1 (OCall (SPOTIFY_ENDPOINTS.DEVICES, "GET", NoBody))) w w3).
      { rewrite <- (app_nil_r (replicate k1 _)).
        eapply obs_step_trans; [exact Hs1|].
        apply (obs_step_trans [] [] _ _ _ Hs2 Hs3). }
      apply bind_inv in Hr as [(devices0 & w4 & H1 & Hr)|(e & H1 & _)];
        apply (getDevices_obs _ _ _ _ Ht3) in H1 as (k2 & Hs4);
        pose proof (obs_step_trans _ _ _ _ _ Hs13 Hs4) as Hs;
        rewrite <- replicate_add in Hs.
      - assert (w2 = w4) as ->; [|eauto].
        by destruct devices0 as [[|??]|]; injection Hr.
      - eauto. }
    destruct devices as [[|d0 others]|]; try (eapply Hrest; exact Hb).
    injection Hb as _ <-. eauto. }
  apply try_catch_inv in H as [(d & H & ->)|(e & w1 & H & Hh)].
  - split; [eauto|]. eapply Hbody, H.
  - injection Hh as <- <-. split; [eauto|]. eapply Hbody, H.
Qed.

Lemma obs_step_sub_step os w w' :
  obs_step os w w' → sub_step (omap submission_of os) w w'.
Proof.
  intros Hs. split; [apply Hs|]. by apply obs_step_submissions.
Qed.

Lemma sub_step_trans s1 s2 w1 w2 w3 :
  sub_step s1 w1 w2 → sub_step s2 w2 w3 → sub_step (s1 ++ s2) w1 w3.
Proof.
  intros [Ht1 H1] [Ht2 H2]. split; [auto|]. by rewrite H2, H1, app_assoc.
Qed.

Lemma take_min_length {A} (l : list A) (k : nat) :
  take (length l `min` k) l = take k l.
Proof.
  destruct (decide (length l <= k)%nat).
  - rewrite Nat.min_l by lia. by rewrite !take_ge by lia.
  - by rewrite Nat.min_r by lia.
Qed.

Lemma wrapper_obs env u meth b w r w' :
  has_token w = true →
  (let* res := makeApiCall env u (Some meth) b in ret (not_null_or_true res)) w = (r, w') →
  ∃ k, (1 <= k <= 2)%nat
       ∧ obs_step (replicate k (OCall (u, str_or (Some meth) "GET", b))) w w'.
Proof.
  intros Ht H.
  apply bind_inv in H as [(res & w1 & H1 & H)|(e & H1 & _)];
    apply (makeApiCall_obs _ _ _ _ _ _ _ Ht) in H1 as (k & Hk & Hs).
  - injection H as _ <-. eauto.
  - eauto.
Qed.

Lemma ensureActiveDevice_signed_out env trackUri playlistUri w :
  has_token w = false →
  ensureActiveDevice env trackUri playlistUri w = (Ret None, w).
Proof.
  intros Ht. unfold ensureActiveDevice, try_catch, getDevices. unfold bind at 1 2.
  by rewrite (makeApiCall_no_token _ _ _ _ _ Ht).
Qed.

Lemma ensureActiveDevice_outcome env trackUri playlistUri w r w' :
  ensureActiveDevice env trackUri playlistUri w = (r, w') →
  ∃ d, r = Ret d
       ∧ sub_step [] w w'
       ∧ (truthy_str d = true → has_token w = true).
Proof.
  intros H. destruct (has_token w) eqn:Ht.
  - apply (ensureActiveDevice_obs _ _ _ _ _ _ Ht) in H as ([d ->] & kd & Hs).
    exists d. split; [done|]. split; [|done].
    apply obs_step_sub_step in Hs.
    by rewrite (omap_replicate_None _ _ _ (eq_refl : submission_of
                  (OCall (SPOTIFY_ENDPOINTS.DEVICES, "GET", NoBody)) = None)) in Hs.
  - rewrite (ensureActiveDevice_signed_out _ _ _ _ Ht) in H. injection H as <- <-.
    exists None. split; [done|]. split; [|done].
    split; [done|]. by rewrite app_nil_r.
Qed.

(** C1 (as amended).  For a resolved track list of length n >= 1 the
    operation shuffles once and then looks for a device.  When no device is
    found it returns [false] and has submitted nothing.  When a device is
    found, the run throws what the transfer or the play call throws, and
    otherwise returns [true]: it has then played the first track of the
    shuffle and handed the next min(n, 150) - 1 tracks of the same shuffle,
    in order, to the queue. *)
Theorem shuffle_and_queue_submits env playlist (tracks : list SpotifyTrack) w :
  tracks ≠ [] →
  ∃ first rest ws d w1,
    trueRandomShuffle (λ k, getSecureRandom (random env k)) (drawn w) tracks
    = Some (first :: rest)
    ∧ first :: rest ≡ₚ tracks
    ∧ first :: take (MAX_QUEUE_SIZE - 1) rest
      = take (length tracks `min` MAX_QUEUE_SIZE) (first :: rest)
    ∧ length (first :: take (MAX_QUEUE_SIZE - 1) rest)
      = (length tracks `min` MAX_QUEUE_SIZE)%nat
    ∧ shuffle_tracks env tracks w = (Ret (first :: rest), ws)
    ∧ ensureActiveDevice env (Some (uri first))
        (Some (if bool_decide (playlist_id playlist = "liked-songs")
               then "spotify:collection:tracks" else playlist_uri playlist)) ws
      = (Ret d, w1)
    ∧ match d with
      | Some (String _ _ as dev) =>
          match transferPlayback env dev true w1 with
          | (Throw e, w2) =>
              shuffle_and_queue env playlist tracks w = (Throw e, w2)
              ∧ submissions (trace w2) = submissions (trace w)
          | (Ret _, w2) =>
              match playUris env [uri first] (Some dev) None w2 with
              | (Throw e, w3) => shuffle_and_queue env playlist tracks w = (Throw e, w3)
              | (Ret _, w3) =>
                  ∃ w' k0 ks,
                    shuffle_and_queue env playlist tracks w = (Ret true, w')
                    ∧ (1 <= k0 <= 2)%nat
                    ∧ length ks = length (take (MAX_QUEUE_SIZE - 1) rest)
                    ∧ Forall (λ k, 1 <= k <= 8)%nat ks
                    ∧ submissions (trace w')
                      = submissions (trace w)
                        ++ replicate k0 (Played (SPOTIFY_ENDPOINTS.PLAY (Some dev)) [uri first])
                        ++ concat (zip_with replicate ks
                             ((λ t, Queued (SPOTIFY_ENDPOINTS.QUEUE (uri t) (Some dev)))
                              <$> take (MAX_QUEUE_SIZE - 1) rest))
              end
          end
      | _ =>
          shuffle_and_queue env playlist tracks w = (Ret false, w1)
          ∧ submissions (trace w1) = submissions (trace w)
      end.
Proof.
  intros Hne. destruct tracks as [|t ts]; [done|].
  destruct (trueRandomShuffle_in_range
              (λ k, getSecureRandom (random env k)) (drawn w) (t :: ts))
    as (out & Hout & Hperm & Hlen); [intros n; apply getSecureRandom_range|].
  destruct out as [|first rest]; [done|].
  assert (Hn : length (t :: ts) = S (length rest)) by (simpl in *; lia).
  destruct (shuffle_and_queue env playlist (t :: ts) w) as [r w'] eqn:H.
  unfold shuffle_and_queue in H.
  apply bind_inv in H as [(sh & ws & H1 & H)|(e & H1 & _)];
    pose proof H1 as Hsh;
    unfold shuffle_tracks in H1; rewrite Hout in H1; [|done].
  injection H1 as <- <-.
  match type of H with _ ?w0 = _ => set (ws := w0) in * end.
  assert (Hsub0 : sub_step [] w ws).
  { split; [done|]. by rewrite app_nil_r. }
  apply bind_inv in H as [(d & w1 & Hd & H)|(e & Hd & _)];
    pose proof (ensureActiveDevice_outcome _ _ _ _ _ _ Hd) as (d' & Hd' & Hs1 & Hdt);
    [|done].
  injection Hd' as <-.
  pose proof (sub_step_trans _ _ _ _ _ Hsub0 Hs1) as Hs01. simpl in Hs01.
  exists first, rest, ws, d, w1.
  split; [exact Hout|]. split; [exact Hperm|].
  split.
  { rewrite Hn. unfold MAX_QUEUE_SIZE.
    change (S (length rest) `min` 150)%nat with (S (length rest `min` 149)).
    simpl. by rewrite take_min_length. }
  split.
  { rewrite Hn. unfold MAX_QUEUE_SIZE. simpl length. rewrite length_take. lia. }
  split; [exact Hsh|]. split; [exact Hd|].
  destruct d as [[|a s]|];
    try (injection H as <- <-; split; [done|];
         destruct Hs01 as [_ ->]; by rewrite app_nil_r).
  set (dev := String a s) in *.
  assert (Ht : has_token w = true) by (by apply Hdt).
  (* transferPlayback *)
  apply bind_inv in H as [(tp & w2 & Htp & H)|(e & Htp & ->)].
  2:{ rewrite Htp.
      apply (wrapper_obs _ _ _ _ _ _ _ (proj1 Hs01 Ht)) in Htp as (kt & _ & Hs2).
      apply obs_step_sub_step in Hs2.
      rewrite (omap_replicate_None _ _ _ (eq_refl : submission_of
                 (OCall (SPOTIFY_ENDPOINTS.TRANSFER, str_or (Some "PUT") "GET",
                         TransferBody [dev] true)) = None)) in Hs2.
      pose proof (sub_step_trans _ _ _ _ _ Hs01 Hs2) as Hs02. simpl in Hs02.
      split; [done|]. destruct Hs02 as [_ ->]. by rewrite app_nil_r. }
  rewrite Htp.
  apply (wrapper_obs _ _ _ _ _ _ _ (proj1 Hs01 Ht)) in Htp as (kt & _ & Hs2).
  apply obs_step_sub_step in Hs2.
  rewrite (omap_replicate_None _ _ _ (eq_refl : submission_of
             (OCall (SPOTIFY_ENDPOINTS.TRANSFER, str_or (Some "PUT") "GET",
                     TransferBody [dev] true)) = None)) in Hs2.
  pose proof (sub_step_trans _ _ _ _ _ Hs01 Hs2) as Hs02. simpl in Hs02.
  (* playUris *)
  apply bind_inv in H as [(pl & w3 & Hpl & H)|(e & Hpl & ->)];
    rewrite Hpl; [|done].
  apply (wrapper_obs _ _ _ _ _ _ _ (proj1 Hs02 Ht)) in Hpl as (k0 & Hk0 & Hs3).
  apply obs_step_sub_step in Hs3.
  rewrite (omap_replicate_Some _ _ _ _ (eq_refl : submission_of
             (OCall (SPOTIFY_ENDPOINTS.PLAY (Some dev), str_or (Some "PUT") "GET",
                     PlayBody [uri first] None))
             = Some (Played (SPOTIFY_ENDPOINTS.PLAY (Some dev)) [uri first]))) in Hs3.
  pose proof (sub_step_trans _ _ _ _ _ Hs02 Hs3) as Hs03. simpl in Hs03.
  (* the initial progress update *)
  apply bind_inv in H as [(? & w4 & Hup & H)|(e & Hup & _)]; [|done].
  unfold onProgressUpdate in Hup.
  match type of Hup with log ?e0 _ = _ =>
    pose proof (log_obs_step e0 _ w3 eq_refl) as Hs4; rewrite Hup in Hs4 end.
  apply obs_step_sub_step in Hs4. simpl in Hs4. clear Hup.
  pose proof (sub_step_trans _ _ _ _ _ Hs03 Hs4) as Hs04.
  rewrite app_nil_r in Hs04.
  (* the queue submission pipeline *)
  apply bind_inv in H as [(uq & w5 & Hq & H)|(e & Hq & _)].
  2:{ match type of Hq with batchQueueTracks _ _ _ (λ p t, onProgressUpdate true p t (Some (@?msg p t))) _ = _ =>
        destruct (batchQueueTracks_obs env dev
                    (λ p t, EProgressUpdate true p t (Some (msg p t)))
                    (λ p t, OUpdate true p t (Some (msg p t)))
                    (λ _ _, eq_refl) (take (MAX_QUEUE_SIZE - 1) rest) w4)
          as (w5' & ks & Hrun & _) end.
      assert (Habs : (@Throw unit e, w') = (Ret tt, w5'))
        by (rewrite <- Hq; exact Hrun).
      done. }
  match type of Hq with batchQueueTracks _ _ _ (λ p t, onProgressUpdate true p t (Some (@?msg p t))) _ = _ =>
    destruct (batchQueueTracks_obs env dev
                (λ p t, EProgressUpdate true p t (Some (msg p t)))
                (λ p t, OUpdate true p t (Some (msg p t)))
                (λ _ _, eq_refl) (take (MAX_QUEUE_SIZE - 1) rest) w4)
      as (w5' & ks & Hrun & Hlenks & Hks8 & Hks1 & Hs5) end.
  assert (Hks : Forall (λ k, 1 <= k <= 8)%nat ks).
  { apply Forall_and. split; [apply Hks1, Hs04, Ht|exact Hks8]. }
  assert (Hw5 : (Ret uq, w5) = (Ret tt, w5')) by (rewrite <- Hq; exact Hrun).
  injection Hw5 as _ ->. clear Hq Hrun.
  apply obs_step_sub_step in Hs5.
  rewrite (expected_submissions (λ t, queue_url dev (uri t)) _
             (λ t, queue_url_submission dev (uri t))) in Hs5 by done.
  pose proof (sub_step_trans _ _ _ _ _ Hs04 Hs5) as Hs05.
  (* the final update and the banner timer *)
  apply bind_inv in H as [(? & w6 & Hup & H)|(e & Hup & _)]; [|done].
  unfold onProgressUpdate in Hup.
  match type of Hup with log ?e0 _ = _ =>
    pose proof (log_obs_step e0 _ w5' eq_refl) as Hs6; rewrite Hup in Hs6 end.
  apply obs_step_sub_step in Hs6. simpl in Hs6. clear Hup.
  pose proof (sub_step_trans _ _ _ _ _ Hs05 Hs6) as Hs06.
  rewrite app_nil_r in Hs06.
  apply bind_inv in H as [(? & w7 & Htm & H)|(e & Htm & _)].
  2:{ exfalso. revert Htm.
      destruct (bool_decide (MAX_QUEUE_SIZE < length (t :: ts))%nat);
        unfold log, ret; done. }
  injection H as <- <-.
  assert (Hs7 : sub_step [] w6 w7).
  { destruct (bool_decide (MAX_QUEUE_SIZE < length (t :: ts))%nat).
    - match type of Htm with log ?e0 _ = _ =>
        pose proof (log_obs_none e0 w6 eq_refl) as Hs7; rewrite Htm in Hs7 end.
      by apply obs_step_sub_step in Hs7.
    - injection Htm as _ <-. split; [done|]. by rewrite app_nil_r. }
  pose proof (sub_step_trans _ _ _ _ _ Hs06 Hs7) as Hs07.
  rewrite app_nil_r in Hs07.
  exists w7, k0, ks. split; [done|]. split; [done|]. split; [done|]. split; [done|].
  apply Hs07.
Qed.

(** * Concrete runs *)

Lemma trueRandomShuffle_permutation_witness :
  ∃ out, trueRandomShuffle (λ _, 1 # 2)%Q 0 [1; 2; 3; 4; 5]%nat = Some out
         ∧ out ≡ₚ [1; 2; 3; 4; 5]%nat ∧ length out = 5%nat.
Proof.
  apply (trueRandomShuffle_permutation (λ _, 1 # 2)%Q 0 [1; 2; 3; 4; 5]%nat).
  intros n. split; [unfold Qle|unfold Qlt]; simpl; lia.
Defined.

Lemma refreshAccessToken_persists_lifetime_witness :
  ∃ w', refreshAccessToken (example_env (scripted [json_reply 200 fresh_token])) signed_in
        = (Ret true, w')
        ∧ storage w' !! "spotify_access_expiry_ts" = Some (String_of_number 3600)
        ∧ storage w' !! "spotify_access_token" = Some "a1"
        ∧ (truthy_str None = false → storage w' !! "spotify_refresh_token" = Some "r0").
Proof.
  apply (refreshAccessToken_persists_lifetime
           (example_env (scripted [json_reply 200 fresh_token])) signed_in "r0"
           {| status := 200;
              content_type := Some "application/json; charset=utf-8";
              retry_after := None;
              body := BodyJson fresh_token |}
           {| access_token := Some "a1"; refresh_token := None; expires_in := Some 3600 |}
           "a1" 3600);
    try reflexivity.
  lia.
Defined.

(** C3, at the failing input: refresh at time 1000010 with a lifetime of
    3600 s leaves "3600" as the expiry, not 4570010. *)
Lemma refreshAccessToken_expiry_mismatch :
  let run := refreshAccessToken (example_env (scripted [json_reply 200 fresh_token]))
               signed_in in
  run.1 = Ret true
  ∧ now run.2 = 1000010
  ∧ storage run.2 !! "spotify_access_expiry_ts" = Some "3600"
  ∧ String_of_number (now run.2 + (3600 - 30) * 1000) = "4570010".
Proof. vm_compute. done. Qed.

(** C4, the claim as stated fails: with a stored expiry that has passed, a
    request answered by 401 makes two refresh requests, not one; and after
    the second 401 the call returns [null], the value of an empty success,
    not an authentication failure. *)
Lemma makeApiCall_401_two_refreshes :
  let run := makeApiCall (example_env always_401)
               "https://api.spotify.com/v1/me" None NoBody signed_in_expired in
  run.1 = Ret None
  ∧ length (List.filter is_token_fetch (trace run.2)) = 2%nat
  ∧ api_calls (trace run.2)
    = [("https://api.spotify.com/v1/me", "GET", NoBody);
       ("https://api.spotify.com/v1/me", "GET", NoBody)]
  ∧ (makeApiCall (example_env (λ _ _, empty_reply 204))
       "https://api.spotify.com/v1/me" None NoBody signed_in).1 = Ret None.
Proof. vm_compute. done. Qed.

(** Without a stored refresh token the refresh attempt sends nothing and
    fails, and the request is not repeated. *)
Example makeApiCall_401_without_refresh_token :
  let run := makeApiCall (example_env always_401) "https://api.spotify.com/v1/me"
               None NoBody (example_world [("spotify_access_token", "a0")]) in
  run.1 = Ret None
  ∧ trace run.2
    = [EFetch (api_request "https://api.spotify.com/v1/me" None NoBody "a0")].
Proof. vm_compute. done. Qed.

Lemma makeApiCall_401_single_retry_witness :
  let env := example_env always_401 in
  let run := makeApiCall env "https://api.spotify.com/v1/me" None NoBody
               signed_in_expired in
  let req := api_request "https://api.spotify.com/v1/me" None NoBody "a0" in
  ∃ pre w1 resp w2 refreshed w3 mid post,
    (w1 = signed_in_expired
     ∨ ∃ b0, refreshAccessToken env signed_in_expired = (Ret b0, w1))
    ∧ trace w1 = trace signed_in_expired ++ pre
    ∧ Forall (λ e, is_token_fetch e = true) pre ∧ (length pre <= 1)%nat
    ∧ fetch env req w1 = (Ret resp, w2) ∧ status resp = 401
    ∧ trace w2 = trace signed_in_expired ++ pre ++ [EFetch req]
    ∧ refreshAccessToken env w2 = (Ret refreshed, w3)
    ∧ trace w3 = trace w2 ++ mid
    ∧ Forall (λ e, is_token_fetch e = true) mid
    ∧ (truthy_str (storage w2 !! "spotify_refresh_token") = true → length mid = 1%nat)
    ∧ (truthy_str (storage w2 !! "spotify_refresh_token") = false →
       mid = [] ∧ refreshed = false)
    ∧ trace run.2 = trace w3 ++ post
    ∧ (if refreshed
       then post = [EFetch req]
            ∧ ∀ retry,
                outcome (net env (trace w3) req) = Responded retry →
                status retry = 401 → run.1 = Ret None
       else post = [] ∧ run.1 = Ret None).
Proof.
  intros env run req.
  apply (makeApiCall_401_single_retry env "https://api.spotify.com/v1/me" None
           NoBody signed_in_expired "a0" run.1 run.2).
  - reflexivity.
  - reflexivity.
  - intros hist _. eexists. split; reflexivity.
  - vm_compute. reflexivity.
Defined.


Lemma insufficient_scope_is_swallowed_witness :
  (∃ w', getUserSavedTracks (example_env scope_missing) signed_in = (Ret [], w'))
  ∧ (∃ w', hasRequiredScopes (example_env scope_missing) signed_in = (Ret true, w')).
Proof.
  apply (insufficient_scope_is_swallowed (example_env scope_missing) signed_in
           "a0" "Insufficient client scope").
  - reflexivity.
  - reflexivity.
  - intros hist u. eexists. repeat split; reflexivity.
  - reflexivity.
  - reflexivity.
Defined.

(** C8, at the failing input: the saved-tracks probe is answered by 403
    "Insufficient client scope" and [hasRequiredScopes] reports [true]. *)
Lemma hasRequiredScopes_reports_true :
  (hasRequiredScopes (example_env scope_missing) signed_in).1 = Ret true
  ∧ (getUserSavedTracks (example_env scope_missing) signed_in).1 = Ret [].
Proof. vm_compute. done. Qed.

Lemma playlist_provider_serves :
  serves (example_env (playlist_provider "p1" (example_tracks 137)))
    (SPOTIFY_ENDPOINTS.PLAYLIST_TRACKS "p1") (example_tracks 137).
Proof.
  intros hist tok pageIndex Hin.
  assert (Hcases : pageIndex = 0%nat ∨ pageIndex = 1%nat ∨ pageIndex = 2%nat).
  { unfold example_tracks in Hin. rewrite length_fmap, length_seq in Hin.
    change (Z.to_nat limit) with 50%nat in Hin. lia. }
  destruct Hcases as [->|[->| ->]];
    [ exists {| status := 200;
                content_type := Some "application/json; charset=utf-8";
                retry_after := None;
                body := BodyJson (JPage (page_of (example_tracks 137) 0)) |}
    | exists {| status := 200;
                content_type := Some "application/json; charset=utf-8";
                retry_after := None;
                body := BodyJson (JPage (page_of (example_tracks 137) 50)) |}
    | exists {| status := 200;
                content_type := Some "application/json; charset=utf-8";
                retry_after := None;
                body := BodyJson (JPage (page_of (example_tracks 137) 100)) |} ];
    (split; [vm_compute; reflexivity|]; repeat split; reflexivity).
Defined.

Lemma getPlaylistTracks_137_witness :
  ∃ w', getPlaylistTracks (example_env (playlist_provider "p1" (example_tracks 137)))
          "p1" signed_in = (Ret (example_tracks 137), w')
        ∧ api_calls (trace w')
          = api_calls (trace signed_in)
            ++ [(page_query (SPOTIFY_ENDPOINTS.PLAYLIST_TRACKS "p1") 0, "GET", NoBody);
                (page_query (SPOTIFY_ENDPOINTS.PLAYLIST_TRACKS "p1") 50, "GET", NoBody);
                (page_query (SPOTIFY_ENDPOINTS.PLAYLIST_TRACKS "p1") 100, "GET", NoBody)].
Proof.
  apply (getPlaylistTracks_137
           (example_env (playlist_provider "p1" (example_tracks 137)))
           "p1" (example_tracks 137) signed_in).
  - reflexivity.
  - reflexivity.
  - exact playlist_provider_serves.
Defined.

Lemma batchQueueTracks_progress_witness :
  ∃ w' ks,
    batchQueueTracks (example_env (scripted ten_track_script)) (example_tracks 10)
      "dev1" record_progress signed_in = (Ret tt, w')
    ∧ length ks = length (example_tracks 10)
    ∧ Forall (λ k, k <= 8)%nat ks
    ∧ Forall (λ k, 1 <= k)%nat ks
    ∧ observations (trace w')
      = observations (trace signed_in)
        ++ expected OProgress ks
             ((λ t, SPOTIFY_ENDPOINTS.QUEUE (uri t) (Some "dev1")) <$> example_tracks 10)
             0 (length (example_tracks 10))
    ∧ progress_events (trace w')
      = progress_events (trace signed_in)
        ++ ((λ i, (i, length (example_tracks 10))) <$> seq 1 (length (example_tracks 10))).
Proof.
  destruct (batchQueueTracks_progress (example_env (scripted ten_track_script))
              (example_tracks 10) "dev1" signed_in)
    as (w' & ks & Hrun & Hlen & Hks & Hks1 & Hobs & Hprog).
  exists w', ks. split; [exact Hrun|]. split; [exact Hlen|]. split; [exact Hks|].
  split; [apply Hks1; reflexivity|]. split; [exact Hobs|exact Hprog].
Defined.

(** The spec's ten-track run: progress reaches 10/10, the backoff around
    the fourth track is 1 s, 2 s, 4 s, and there are nine 150 ms pauses. *)
Example ten_track_run :
  let run := batchQueueTracks (example_env (scripted ten_track_script))
               (example_tracks 10) "dev1" record_progress signed_in in
  run.1 = Ret tt
  ∧ progress_events (trace run.2)
    = [(1, 10); (2, 10); (3, 10); (4, 10); (5, 10);
       (6, 10); (7, 10); (8, 10); (9, 10); (10, 10)]%nat
  ∧ sleeps (trace run.2)
    = [150; 150; 150; 1000; 2000; 4000; 150; 150; 150; 150; 150; 150]
  ∧ length (api_calls (trace run.2)) = 13%nat.
Proof. vm_compute. done. Qed.

(** C1, the claim as stated fails: with no playback device the operation
    returns [false] after two device lookups and submits no track at all. *)
Lemma mutationFn_no_device_submits_nothing :
  let run := mutationFn (example_env no_device) example_playlist
               (Some (as_input <$> example_tracks 3)) signed_in in
  run.1 = Ret false
  ∧ submissions (trace run.2) = []
  ∧ api_calls (trace run.2)
    = [(SPOTIFY_ENDPOINTS.DEVICES, "GET", NoBody);
       (SPOTIFY_ENDPOINTS.DEVICES, "GET", NoBody)].
Proof. vm_compute. done. Qed.

Lemma shuffle_and_queue_submits_witness :
  let env := example_env one_device in
  ∃ w' first rest k0 ks,
    shuffle_and_queue env example_playlist (example_tracks 3) signed_in = (Ret true, w')
    ∧ trueRandomShuffle (λ k, getSecureRandom (random env k))
        (drawn signed_in) (example_tracks 3) = Some (first :: rest)
    ∧ first :: rest ≡ₚ example_tracks 3
    ∧ (1 <= k0 <= 2)%nat
    ∧ Forall (λ k, 1 <= k <= 8)%nat ks
    ∧ submissions (trace w')
      = submissions (trace signed_in)
        ++ replicate k0 (Played (SPOTIFY_ENDPOINTS.PLAY (Some "dev1")) [uri first])
        ++ concat (zip_with replicate ks
             ((λ t, Queued (SPOTIFY_ENDPOINTS.QUEUE (uri t) (Some "dev1")))
              <$> take (MAX_QUEUE_SIZE - 1) rest)).
Proof.
  intros env.
  assert (Hne : example_tracks 3 ≠ []) by (vm_compute; discriminate).
  destruct (shuffle_and_queue_submits env example_playlist (example_tracks 3)
              signed_in Hne)
    as (first & rest & ws & d & w1 & Hsh & Hperm & _ & _ & Hws & Hens & Hcase).
  assert (Hws' : (shuffle_tracks env (example_tracks 3) signed_in).2 = ws)
    by (by rewrite Hws).
  assert (Hfirst : uri first = "spotify:track:1").
  { vm_compute in Hsh. by injection Hsh as <- _. }
  rewrite Hfirst in Hens. rewrite <- Hws' in Hens.
  assert (Hd : d = Some "dev1") by (vm_compute in Hens; by injection Hens as <- _).
  assert (Hw1 : w1 = (ensureActiveDevice env (Some "spotify:track:1")
                        (Some "spotify:playlist:p1")
                        (shuffle_tracks env (example_tracks 3) signed_in).2).2).
  { change (if bool_decide (playlist_id example_playlist = "liked-songs")
            then "spotify:collection:tracks" else playlist_uri example_playlist)
      with "spotify:playlist:p1" in Hens. by rewrite Hens. }
  subst d. cbv beta iota in Hcase.
  destruct (transferPlayback env "dev1" true w1) as [[tp|e] w2] eqn:Htp.
  2:{ exfalso. rewrite Hw1 in Htp. vm_compute in Htp. discriminate. }
  assert (Hw2 : w2 = (transferPlayback env "dev1" true w1).2) by (by rewrite Htp).
  destruct (playUris env [uri first] (Some "dev1") None w2) as [[pl|e] w3] eqn:Hpl.
  2:{ exfalso. rewrite Hfirst, Hw2, Hw1 in Hpl. vm_compute in Hpl. discriminate. }
  destruct Hcase as (w' & k0 & ks & Hrun & Hk0 & _ & Hks & Hsub).
  exists w', first, rest, k0, ks.
  split; [exact Hrun|]. split; [exact Hsh|]. split; [exact Hperm|].
  split; [exact Hk0|]. split; [exact Hks|]. exact Hsub.
Defined.

(** What the three-track run submits: one play command for the first
    shuffled track, then the other two in shuffled order. *)
Example three_track_run :
  let run := mutationFn (example_env one_device) example_playlist
               (Some (as_input <$> example_tracks 3)) signed_in in
  trueRandomShuffle (λ k, getSecureRandom (random (example_env one_device) k))
    0 (example_tracks 3)
  = Some [example_track 1; example_track 2; example_track 0]
  ∧ run.1 = Ret true
  ∧ submissions (trace run.2)
    = [Played (SPOTIFY_ENDPOINTS.PLAY (Some "dev1")) ["spotify:track:1"];
       Queued (SPOTIFY_ENDPOINTS.QUEUE "spotify:track:2" (Some "dev1"));
       Queued (SPOTIFY_ENDPOINTS.QUEUE "spotify:track:0" (Some "dev1"))].
Proof. vm_compute. done. Qed.

(** * More properties of the code *)


(** ** PKCE helpers *)

Lemma has_char_app (c : ascii) (s1 s2 : string) :
  has_char c (s1 ++ s2)%string = has_char c s1 || has_char c s2.
Proof.
  induction s1 as [|a s1 IH]; [done|]. simpl. rewrite IH. by rewrite orb_assoc.
Qed.

Lemma string_length_app (s1 s2 : string) :
  String.length (s1 ++ s2)%string = (String.length s1 + String.length s2)%nat.
Proof. induction s1 as [|a s1 IH]; [done|]. simpl. by rewrite IH. Qed.

Lemma replace_char_has (c x : ascii) (by_ str : string) :
  has_char x (replace_char c by_ str) = true →
  (has_char x str = true ∧ x ≠ c) ∨ has_char x by_ = true.
Proof.
  induction str as [|a rest IH]; simpl; [done|].
  rewrite has_char_app. intros [H|H]%orb_true_iff.
  - destruct (Ascii.eqb a c) eqn:Hac; [by right|].
    simpl in H. rewrite orb_false_r in H. left.
    apply Ascii.eqb_eq in H as ->. rewrite Ascii.eqb_refl. split; [done|].
    intros ->. by rewrite Ascii.eqb_refl in Hac.
  - destruct (IH H) as [[Hin Hne]|Hby]; [left|by right].
    rewrite Hin. by rewrite orb_true_r.
Qed.

Lemma replace_char_absent (c : ascii) (by_ str : string) :
  has_char c str = false → replace_char c by_ str = str.
Proof.
  induction str as [|a rest IH]; simpl; [done|].
  intros [Ha Hrest]%orb_false_iff. rewrite Ha. simpl. by rewrite IH.
Qed.

Lemma base64URLEncode_chars (str : string) (x : ascii) :
  has_char x (base64URLEncode str) = true →
  x ≠ "="%char ∧ x ≠ "+"%char ∧ x ≠ "/"%char.
Proof.
  unfold base64URLEncode. intros H.
  apply replace_char_has in H as [[H Hslash]|H].
  2:{ cbn [has_char] in H. rewrite orb_false_r in H.
      apply Ascii.eqb_eq in H as <-. by repeat split. }
  apply replace_char_has in H as [[H Hplus]|H].
  2:{ cbn [has_char] in H. rewrite orb_false_r in H.
      apply Ascii.eqb_eq in H as <-. by repeat split. }
  apply replace_char_has in H as [[H Heq]|H]; [done|].
  cbn [has_char] in H. done.
Qed.

Lemma has_char_false (c : ascii) (s : string) :
  (has_char c s = true → False) → has_char c s = false.
Proof. by destruct (has_char c s); [intros []|]. Qed.

(** X1.  The output of [base64URLEncode] contains none of [=], [+], [/],
    and encoding it again changes nothing. *)
Theorem base64URLEncode_url_safe (str : string) :
  has_char "=" (base64URLEncode str) = false
  ∧ has_char "+" (base64URLEncode str) = false
  ∧ has_char "/" (base64URLEncode str) = false
  ∧ base64URLEncode (base64URLEncode str) = base64URLEncode str.
Proof.
  assert (Heq : has_char "=" (base64URLEncode str) = false).
  { apply has_char_false. intros H%base64URLEncode_chars. by destruct H. }
  assert (Hplus : has_char "+" (base64URLEncode str) = false).
  { apply has_char_false. intros H%base64URLEncode_chars. by destruct H as (_ & ? & _). }
  assert (Hslash : has_char "/" (base64URLEncode str) = false).
  { apply has_char_false. intros H%base64URLEncode_chars. by destruct H as (_ & _ & ?). }
  do 3 (split; [done|]).
  unfold base64URLEncode at 1.
  by rewrite (replace_char_absent "=" _ _ Heq), (replace_char_absent "+" _ _ Hplus),
    (replace_char_absent "/" _ _ Hslash).
Qed.

Lemma get_has_char (s : string) (n : nat) (c : ascii) :
  String.get n s = Some c → has_char c s = true.
Proof.
  revert n. induction s as [|a s IH]; intros [|n] H; simpl in *; try done.
  - injection H as ->. by rewrite Ascii.eqb_refl.
  - rewrite (IH n H). by rewrite orb_true_r.
Qed.

Lemma get_in_range (s : string) (n : nat) :
  (n < String.length s)%nat → ∃ c, String.get n s = Some c.
Proof.
  revert n. induction s as [|a s IH]; intros [|n] H; simpl in *; try lia; eauto.
  apply IH. lia.
Qed.

Lemma charAt_possible (r : Q) :
  (0 <= r)%Q → (r < 1)%Q →
  ∃ c, charAt possible (Qfloor (r * inject_Z (Z.of_nat (String.length possible))))
       = String c EmptyString
       ∧ has_char c possible = true.
Proof.
  intros Hlo Hhi.
  pose proof (random_index_range r 61 Hlo Hhi) as Hidx. unfold random_index in Hidx.
  change (Z.of_nat 61 + 1) with (Z.of_nat (String.length possible)) in Hidx.
  set (idx := Qfloor _) in *. unfold charAt.
  destruct (idx <? 0) eqn:Hneg; [lia|].
  destruct (get_in_range possible (Z.to_nat idx)) as [c Hc].
  { change (String.length possible) with 62%nat. lia. }
  rewrite Hc. exists c. split; [done|]. by eapply get_has_char.
Qed.

Lemma generateRandomString_loop_spec (rv : nat → Q) :
  (∀ n, (0 <= rv n)%Q ∧ (rv n < 1)%Q) →
  ∀ (todo k : nat) (result : string),
    String.length (generateRandomString_loop rv k todo result)
    = (String.length result + todo)%nat
    ∧ ∀ c, has_char c (generateRandomString_loop rv k todo result) = true →
           has_char c result = true ∨ has_char c possible = true.
Proof.
  intros Hrv todo.
  induction todo as [|todo IH]; intros k result; cbn [generateRandomString_loop].
  - split; [lia|auto].
  - destruct (Hrv k) as [Hlo Hhi].
    destruct (charAt_possible (rv k) Hlo Hhi) as (c0 & Hc0 & Hin0).
    rewrite Hc0.
    destruct (IH (S k) (result ++ String c0 EmptyString)%string) as [Hlen Hchars].
    split.
    + rewrite Hlen, string_length_app. cbn [String.length]. lia.
    + intros c Hc. destruct (Hchars c Hc) as [H|H]; [|by right].
      rewrite has_char_app in H. apply orb_true_iff in H as [H|H]; [by left|].
      right. cbn [has_char] in H. rewrite orb_false_r in H.
      by apply Ascii.eqb_eq in H as <-.
Qed.

(** X2.  With random values in [0, 1), [generateRandomString(length)]
    returns a string of exactly [length] characters (none for a negative
    length), all of them letters or digits of [possible]. *)
Theorem generateRandomString_length (rv : nat → Q) (k : nat) (length : Z) :
  (∀ n, (0 <= rv n)%Q ∧ (rv n < 1)%Q) →
  String.length (generateRandomString rv k length) = Z.to_nat length
  ∧ ∀ c, has_char c (generateRandomString rv k length) = true →
         has_char c possible = true.
Proof.
  intros Hrv. unfold generateRandomString.
  destruct (generateRandomString_loop_spec rv Hrv (Z.to_nat length) k "") as [Hlen Hc].
  split; [by rewrite Hlen|].
  intros c H. by destruct (Hc c H).
Qed.

Lemma generateRandomString_length_witness :
  String.length (generateRandomString (λ _, 1 # 2)%Q 0 64) = Z.to_nat 64
  ∧ ∀ c, has_char c (generateRandomString (λ _, 1 # 2)%Q 0 64) = true →
         has_char c possible = true.
Proof.
  apply (generateRandomString_length (λ _, 1 # 2)%Q 0 64).
  intros n. split; [unfold Qle|unfold Qlt]; simpl; lia.
Defined.

(** ** Stored credentials *)

Lemma Number_of_String (z : Z) : Number_of_string (String_of_number z) = Some z.
Proof.
  unfold Number_of_string, String_of_number.
  rewrite NilZero.isi.
  - simpl. by rewrite DecimalZ.of_to.
  - destruct z; simpl; [done| |done].
    intros [=H]. by apply DecimalPos.Unsigned.to_uint_nonnil in H.
  - destruct z; simpl; [done|done|].
    intros [=H]. by apply DecimalPos.Unsigned.to_uint_nonnil in H.
Qed.

Lemma String_of_number_truthy (z : Z) : truthy_str (Some (String_of_number z)) = true.
Proof.
  unfold String_of_number.
  destruct z as [|p|p]; simpl; [done| |done].
  pose proof (DecimalPos.Unsigned.to_uint_nonnil p) as Hn.
  by destruct (Pos.to_uint p).
Qed.

Lemma getAccessTokenExpiryTs_stored (w : World) (z : Z) :
  storage w !! "spotify_access_expiry_ts" = Some (String_of_number z) →
  getAccessTokenExpiryTs w = (Ret (Some z), w).
Proof.
  intros H. unfold getAccessTokenExpiryTs, getItem, bind, ret. rewrite H.
  rewrite String_of_number_truthy. simpl. by rewrite Number_of_String.
Qed.

(** X3.  An expiry written by [setAccessTokenExpiryTs] is read back by
    [getAccessTokenExpiryTs] as the same number, zero and negative numbers
    included; nothing else in storage changes and nothing is requested. *)
Theorem setAccessTokenExpiryTs_round_trip (z : Z) (w : World) :
  ∃ w', (setAccessTokenExpiryTs z >> getAccessTokenExpiryTs) w = (Ret (Some z), w')
        ∧ trace w' = trace w
        ∧ storage w' = <["spotify_access_expiry_ts" := String_of_number z]> (storage w).
Proof.
  unfold bind at 1. unfold setAccessTokenExpiryTs, setItem, with_storage.
  eexists. split.
  - apply getAccessTokenExpiryTs_stored. simpl. by rewrite lookup_insert_eq.
  - split; reflexivity.
Qed.

(** X4.  A successful authorization-code exchange leaves a complete
    session: the access and refresh tokens of the response, no code
    verifier, and an expiry, read back by [getAccessTokenExpiryTs], that
    lies 30 seconds before the end of the token's lifetime. *)
Theorem exchangeCodeForToken_session env (code : string) w verifier resp d tok rt e :
  storage w !! "spotify_code_verifier" = Some verifier →
  truthy_str (Some verifier) = true →
  outcome (net env (trace w)
     (token_request [("grant_type", "authorization_code"); ("code", code);
                     ("redirect_uri", REDIRECT_URI env); ("client_id", CLIENT_ID env);
                     ("code_verifier", verifier)])) = Responded resp →
  body resp = BodyJson (JToken d) →
  access_token d = Some tok → truthy_str (Some tok) = true →
  refresh_token d = Some rt →
  expires_in d = Some e → e ≠ 0 →
  ∃ w', exchangeCodeForToken env code w = (Ret true, w')
        ∧ storage w' !! "spotify_access_token" = Some tok
        ∧ storage w' !! "spotify_refresh_token" = Some rt
        ∧ storage w' !! "spotify_code_verifier" = None
        ∧ getAccessTokenExpiryTs w' = (Ret (Some (now w' + (e - 30) * 1000)), w').
Proof.
  intros Hv Hvt Hnet Hbody Htok Htt Hrt He He0.
  unfold exchangeCodeForToken. step_monad. rewrite Hv.
  destruct verifier as [|a0 r0]; [done|].
  rewrite Hnet, Hbody. simpl. rewrite Htok.
  destruct tok as [|a1 r1]; [done|].
  assert (Hnum : truthy_num (Some e) = true).
  { simpl. by apply negb_true_iff, Z.eqb_neq. }
  rewrite Hrt, He, Hnum. simpl.
  eexists. split; [reflexivity|]. simpl. lookup_storage.
  do 3 (split; [done|]).
  rewrite String_of_number_truthy. simpl. by rewrite Number_of_String.
Qed.

Lemma exchangeCodeForToken_session_witness :
  let env := example_env (scripted [json_reply 200
               (JToken {| access_token := Some "a1"; refresh_token := Some "r1";
                          expires_in := Some 3600 |})]) in
  let w := example_world [("spotify_code_verifier", "v1")] in
  ∃ w', exchangeCodeForToken env "code1" w = (Ret true, w')
        ∧ storage w' !! "spotify_access_token" = Some "a1"
        ∧ storage w' !! "spotify_refresh_token" = Some "r1"
        ∧ storage w' !! "spotify_code_verifier" = None
        ∧ getAccessTokenExpiryTs w' = (Ret (Some (now w' + (3600 - 30) * 1000)), w').
Proof.
  intros env w.
  eapply (exchangeCodeForToken_session env "code1" w "v1" _
            {| access_token := Some "a1"; refresh_token := Some "r1";
               expires_in := Some 3600 |} "a1" "r1" 3600);
    try reflexivity.
  lia.
Defined.

(** X5.  [refreshAccessToken] never throws.  When it returns [false] the
    storage is as it was; without a stored refresh token it returns [false]
    and sends nothing; when it returns [true] an access token is stored and
    exactly one request, to the token endpoint, was sent. *)
Theorem refreshAccessToken_outcomes env w r w' :
  refreshAccessToken env w = (r, w') →
  (∃ b : bool, r = Ret b)
  ∧ (r = Ret false → storage w' = storage w)
  ∧ (truthy_str (storage w !! "spotify_refresh_token") = false →
     r = Ret false ∧ w' = w)
  ∧ (r = Ret true →
     has_token w' = true
     ∧ ∃ rtok, storage w !! "spotify_refresh_token" = Some rtok
               ∧ trace w' = trace w ++
                   [EFetch (token_request
                      [("grant_type", "refresh_token"); ("refresh_token", rtok);
                       ("client_id", CLIENT_ID env)])]).
Proof.
  unfold refreshAccessToken. step_monad. intros H.
  destruct (storage w !! "spotify_refresh_token") as [[|a0 r0]|] eqn:Hr;
    simplify_eq/=;
    [by (split; [eauto|]; split; [done|]; split; [done|])|
    |by (split; [eauto|]; split; [done|]; split; [done|])].
  split; [|split; [|split; [done|]]].
  - repeat (case_match; simplify_eq/=); eauto.
  - repeat (case_match; simplify_eq/=); done.
  - unfold has_token.
    repeat (case_match; simplify_eq/=); intros; simplify_eq; lookup_storage;
      (split; [done|]); eauto.
Qed.

Lemma refreshAccessToken_outcomes_witness :
  let run := refreshAccessToken (example_env (scripted [json_reply 200 fresh_token]))
               signed_in in
  (∃ b : bool, run.1 = Ret b)
  ∧ has_token run.2 = true
  ∧ ∃ rtok, storage signed_in !! "spotify_refresh_token" = Some rtok
            ∧ trace run.2 = trace signed_in ++
                [EFetch (token_request
                   [("grant_type", "refresh_token"); ("refresh_token", rtok);
                    ("client_id", "client")])].
Proof.
  intros run.
  destruct (refreshAccessToken_outcomes
              (example_env (scripted [json_reply 200 fresh_token]))
              signed_in run.1 run.2) as (Hb & _ & _ & Ht).
  { vm_compute. reflexivity. }
  split; [exact Hb|]. apply Ht. vm_compute. reflexivity.
Defined.

Lemma foldr_delete_lookup (keys : list string) (m : gmap string string) (k : string) :
  foldr delete m keys !! k = if bool_decide (k ∈ keys) then None else m !! k.
Proof.
  induction keys as [|a keys IH]; cbn [foldr].
  - case_bool_decide as Hin; [by apply elem_of_nil in Hin|reflexivity].
  - destruct (decide (a = k)) as [->|Hne].
    + rewrite lookup_delete_eq. by rewrite bool_decide_eq_true_2 by left.
    + rewrite lookup_delete_ne by done. rewrite IH.
      destruct (decide (k ∈ keys)) as [Hin|Hnin].
      * rewrite (bool_decide_eq_true_2 (k ∈ keys)) by done.
        by rewrite (bool_decide_eq_true_2 (k ∈ a :: keys)) by (by right).
      * rewrite (bool_decide_eq_false_2 (k ∈ keys)) by done.
        rewrite (bool_decide_eq_false_2 (k ∈ a :: keys)); [done|].
        intros [?|?]%elem_of_cons; [by subst|done].
Qed.

(** X6.  After [logout] the four session keys are absent and every other
    key is untouched; from then on API calls fail with "No access token
    available", and neither a token refresh nor a code exchange succeeds,
    all without sending a request. *)
Theorem logout_ends_session env w :
  ∃ w', logout w = (Ret tt, w')
        ∧ trace w' = trace w
        ∧ (∀ key, storage w' !! key
                  = if bool_decide (key ∈ ["spotify_access_token"; "spotify_refresh_token";
                                           "spotify_code_verifier"; "spotify_access_expiry_ts"])
                    then None else storage w !! key)
        ∧ (∀ u meth b, makeApiCall env u meth b w'
                       = (Throw (new_Error "No access token available"), w'))
        ∧ refreshAccessToken env w' = (Ret false, w')
        ∧ (∀ code, exchangeCodeForToken env code w' = (Ret false, w'))
        ∧ (∀ code, RedirectScreen.exchangeCodeForToken env code w' = (Ret false, w')).
Proof.
  unfold logout, multiRemove, with_storage. eexists. split; [reflexivity|].
  split; [done|]. split; [intros key; apply foldr_delete_lookup|].
  assert (Hlk : ∀ k, k ∈ ["spotify_access_token"; "spotify_refresh_token";
                          "spotify_code_verifier"; "spotify_access_expiry_ts"] →
    foldr delete (storage w)
      ["spotify_access_token"; "spotify_refresh_token";
       "spotify_code_verifier"; "spotify_access_expiry_ts"] !! k = None).
  { intros k Hk. rewrite foldr_delete_lookup. by rewrite bool_decide_eq_true_2. }
  split; [|split; [|split]].
  - intros u meth b. apply makeApiCall_no_token. unfold has_token.
    cbn [storage]. rewrite Hlk; [done|]. set_solver.
  - unfold refreshAccessToken, getRefreshToken, getItem, bind, ret.
    cbn [storage]. rewrite Hlk; [done|]. set_solver.
  - intros code. unfold exchangeCodeForToken, try_catch, getItem, bind, ret.
    cbn [storage]. rewrite Hlk; [done|]. set_solver.
  - intros code. unfold RedirectScreen.exchangeCodeForToken, try_catch, getItem, bind, ret.
    cbn [storage]. rewrite Hlk; [done|]. set_solver.
Qed.

(** ** The executor: requests, errors and outcomes *)

Lemma api_requests_app l1 l2 :
  api_requests (l1 ++ l2) = api_requests l1 ++ api_requests l2.
Proof. apply omap_app. Qed.

Lemma api_requests_token_fetches delta :
  Forall (λ e, is_token_fetch e = true) delta → api_requests delta = [].
Proof.
  induction 1 as [|e l He _ IH]; [done|].
  change (api_requests (e :: l))
    with (match api_request_of e with
          | Some c => c :: api_requests l
          | None => api_requests l
          end).
  rewrite IH. destruct e; try done. simpl in He.
  apply andb_true_iff in He as [He _]. apply bool_decide_eq_true in He.
  simpl. by rewrite He.
Qed.

Lemma makeApiCall_shape_refresh env u meth b w tok r w' :
  storage w !! "spotify_access_token" = Some tok →
  truthy_str (Some tok) = true →
  makeApiCall env u meth b w = (r, w') →
  has_token w' = true
  ∧ ∃ pre mid post,
      trace w' = trace w ++ pre ++ [EFetch (api_request u meth b tok)] ++ mid ++ post
      ∧ Forall (λ e, is_token_fetch e = true) pre ∧ (length pre <= 1)%nat
      ∧ Forall (λ e, is_token_fetch e = true) mid ∧ (length mid <= 1)%nat
      ∧ (post = [] ∨ post = [EFetch (api_request u meth b tok)])
      ∧ ∃ exp w1,
          getAccessTokenExpiryTs w = (Ret exp, w)
          ∧ (if truthy_num exp && (now w >? default 0 exp)
             then refreshAccessToken env >> ret tt else ret tt) w = (Ret tt, w1)
          ∧ trace w1 = trace w ++ pre.
Proof.
  intros Htok Htruthy H.
  assert (Hhas : has_token w = true) by (unfold has_token; by rewrite Htok).
  unfold makeApiCall, bind at 1, getItem at 1 in H. rewrite Htok in H.
  destruct tok as [|a s]; [done|].
  set (req := api_request u meth b (String a s)) in *.
  apply try_catch_world in H as [r0 H];
    [|intros e; destruct (includes _ _); [apply quiet_throw|apply quiet_ret]].
  clear r.
  apply bind_inv in H as [(exp & w1 & Hexp & H)|(e & H1 & _)]; [|done].
  assert (w1 = w) as ->.
  { revert Hexp. unfold getAccessTokenExpiryTs, bind, getItem, ret. by intros [= _ <-]. }
  apply bind_inv in H as [(t & w1 & H1 & H)|(e & H1 & _)]; [|done].
  injection H1 as <- <-.
  apply bind_inv in H as [([] & w1 & Hpro & H)|(e & Hpro & _)];
    pose proof Hpro as Hpro';
    apply proactive_refresh_token_step in Hpro
      as (Hrt & Hh1 & _ & pre & Hpre & Hpre_tok & Hpre_len); [|done].
  clear Hrt. specialize (Hh1 Hhas).
  assert (Hex : ∃ exp w1,
          getAccessTokenExpiryTs w = (Ret exp, w)
          ∧ (if truthy_num exp && (now w >? default 0 exp)
             then refreshAccessToken env >> ret tt else ret tt) w = (Ret tt, w1)
          ∧ trace w1 = trace w ++ pre).
  { exists exp, w1. done. }
  clear Hexp Hpro'.
  assert (Hone : ∀ w2, trace w2 = trace w1 ++ [EFetch req] → storage w2 = storage w1 →
    has_token w2 = true
    ∧ ∃ pre mid post,
        trace w2 = trace w ++ pre ++ [EFetch req] ++ mid ++ post
        ∧ Forall (λ e, is_token_fetch e = true) pre ∧ (length pre <= 1)%nat
        ∧ Forall (λ e, is_token_fetch e = true) mid ∧ (length mid <= 1)%nat
        ∧ (post = [] ∨ post = [EFetch req])
        ∧ ∃ exp w1,
            getAccessTokenExpiryTs w = (Ret exp, w)
            ∧ (if truthy_num exp && (now w >? default 0 exp)
               then refreshAccessToken env >> ret tt else ret tt) w = (Ret tt, w1)
            ∧ trace w1 = trace w ++ pre).
  { intros w2 Htr Hst. split; [unfold has_token in *; by rewrite Hst|].
    exists pre, [], []. rewrite Htr, Hpre, <- !app_assoc.
    split; [done|]. do 2 (split; [done|]). split; [constructor|].
    split; [simpl; lia|]. split; [by left|done]. }
  apply bind_inv in H as [(response & w2 & Hf & H)|(e & Hf & _)];
    apply fetch_inv in Hf as (Htr2 & Hst2 & _); [|by apply Hone].
  destruct (status response =? 204); [quiet_leaf H; by apply Hone|].
  destruct (ok response); [quiet_leaf H; by apply Hone|].
  destruct (status response =? 429); [quiet_leaf H; by apply Hone|].
  destruct (status response =? 403); [quiet_leaf H; by apply Hone|].
  destruct (status response =? 401); [|quiet_leaf H; by apply Hone].
  assert (Hh2 : has_token w2 = true) by (unfold has_token in *; by rewrite Hst2).
  apply bind_inv in H as [(refreshed & w3 & Hr & H)|(e & Hr & _)];
    apply refreshAccessToken_step in Hr
      as ([? ?] & Hh3 & _ & mid & Hmid & Hmid_tok & Hmid_len); [|done].
  specialize (Hh3 Hh2).
  assert (Hw3 : trace w3 = trace w ++ pre ++ [EFetch req] ++ mid).
  { rewrite Hmid, Htr2, Hpre, <- !app_assoc. done. }
  destruct refreshed.
  - apply bind_inv in H as [(retry & w4 & Hf & H)|(e & Hf & ->)];
      apply fetch_inv in Hf as (Htr4 & Hst4 & _).
    + assert (w' = w4) as ->.
      { destruct (status retry =? 204); [by apply quiet_ret in H|].
        destruct (status retry =? 403); [by apply quiet_throw_forbidden in H|].
        destruct (status retry =? 429); [by apply quiet_throw_rate_limit in H|].
        destruct (ok retry); [by apply quiet_payload in H|by apply quiet_ret in H]. }
      split; [unfold has_token in *; by rewrite Hst4|].
      exists pre, mid, [EFetch req].
      split; [rewrite Htr4, Hw3, <- !app_assoc; done|].
      do 4 (split; [done|]). split; [by right|done].
    + split; [unfold has_token in *; by rewrite Hst4|].
      exists pre, mid, [EFetch req].
      split; [rewrite Htr4, Hw3, <- !app_assoc; done|].
      do 4 (split; [done|]). split; [by right|done].
  - apply quiet_ret in H. subst. split; [done|].
    exists pre, mid, []. split; [by rewrite Hw3, app_nil_r|].
    do 4 (split; [done|]). split; [by left|done].
Qed.

Lemma makeApiCall_shape env u meth b w tok r w' :
  storage w !! "spotify_access_token" = Some tok →
  truthy_str (Some tok) = true →
  makeApiCall env u meth b w = (r, w') →
  has_token w' = true
  ∧ ∃ pre mid post,
      trace w' = trace w ++ pre ++ [EFetch (api_request u meth b tok)] ++ mid ++ post
      ∧ Forall (λ e, is_token_fetch e = true) pre ∧ (length pre <= 1)%nat
      ∧ Forall (λ e, is_token_fetch e = true) mid ∧ (length mid <= 1)%nat
      ∧ (post = [] ∨ post = [EFetch (api_request u meth b tok)]).
Proof.
  intros Htok Htruthy H.
  destruct (makeApiCall_shape_refresh _ _ _ _ _ _ _ _ Htok Htruthy H)
    as (Hh & pre & mid & post & ? & ? & ? & ? & ? & ? & _).
  split; [done|]. exists pre, mid, post. done.
Qed.

(** X7.  Every request that one [makeApiCall] sends to the API carries the
    access token that was stored when the call began: one request, or two
    when a 401 is followed by a successful refresh.  The repeated request
    still carries the old token, not the refreshed one. *)
Theorem makeApiCall_bearer env u meth b w tok r w' :
  storage w !! "spotify_access_token" = Some tok →
  truthy_str (Some tok) = true →
  makeApiCall env u meth b w = (r, w') →
  ∃ k, (1 <= k <= 2)%nat
       ∧ api_requests (trace w')
         = api_requests (trace w) ++ replicate k (api_request u meth b tok).
Proof.
  intros Htok Htruthy H.
  destruct (makeApiCall_shape _ _ _ _ _ _ _ _ Htok Htruthy H)
    as (_ & pre & mid & post & Htr & Hpre & _ & Hmid & _ & Hpost).
  rewrite Htr, !api_requests_app.
  rewrite (api_requests_token_fetches _ Hpre), (api_requests_token_fetches _ Hmid).
  destruct Hpost as [->| ->]; [exists 1%nat|exists 2%nat]; (split; [lia|]); done.
Qed.

Lemma makeApiCall_bearer_witness :
  let run := makeApiCall (example_env always_401) "https://api.spotify.com/v1/me"
               None NoBody signed_in in
  storage run.2 !! "spotify_access_token" = Some "a1"
  ∧ ∃ k, (1 <= k <= 2)%nat
         ∧ api_requests (trace run.2)
           = api_requests (trace signed_in)
             ++ replicate k (api_request "https://api.spotify.com/v1/me" None NoBody "a0").
Proof.
  intros run. split; [vm_compute; reflexivity|].
  apply (makeApiCall_bearer (example_env always_401) "https://api.spotify.com/v1/me"
           None NoBody signed_in "a0" run.1 run.2); [reflexivity|reflexivity|].
  vm_compute. reflexivity.
Defined.

Lemma makeApiCall_throws_only_cases env u meth b w e w' :
  makeApiCall env u meth b w = (Throw e, w') →
  (has_token w = false ∧ e = new_Error "No access token available" ∧ w' = w)
  ∨ (has_token w = true ∧ includes (message e) "Rate limit exceeded" = true).
Proof.
  intros H. destruct (has_token w) eqn:Hhas.
  - right. split; [done|].
    unfold has_token in Hhas.
    unfold makeApiCall, bind at 1, getItem at 1 in H.
    destruct (storage w !! "spotify_access_token") as [[|a s]|]; try done.
    apply try_catch_inv in H as [(res & _ & [=])|(e0 & w1 & _ & Hh)].
    destruct (includes (message e0) "Rate limit exceeded") eqn:Hinc.
    + unfold throw in Hh. by injection Hh as <- _.
    + done.
  - left. rewrite makeApiCall_no_token in H by done. by injection H as <- <-.
Qed.

(** X8.  [makeApiCall] throws in two cases only: "No access token
    available" when no token is stored, before anything is sent, and errors
    whose message contains "Rate limit exceeded".  Whatever else is raised
    inside the call with a token stored, a network failure, a body that does
    not parse or a 403, reaches the caller only when its message contains
    that text. *)
Theorem makeApiCall_throws_only env u meth b w e w' :
  makeApiCall env u meth b w = (Throw e, w') →
  (has_token w = false ∧ e = new_Error "No access token available" ∧ w' = w)
  ∨ (has_token w = true ∧ includes (message e) "Rate limit exceeded" = true).
Proof. apply makeApiCall_throws_only_cases. Qed.

Lemma makeApiCall_throws_only_witness :
  let run := makeApiCall (example_env (λ _ _, rate_limited_reply))
               "https://api.spotify.com/v1/me" None NoBody signed_in in
  ∃ e, run.1 = Throw e
       ∧ ((has_token signed_in = false ∧ e = new_Error "No access token available"
           ∧ run.2 = signed_in)
          ∨ (has_token signed_in = true
             ∧ includes (message e) "Rate limit exceeded" = true)).
Proof.
  intros run.
  exists (new_Error "Rate limit exceeded (429). Retry after: 1 seconds").
  split; [vm_compute; reflexivity|].
  apply (makeApiCall_throws_only (example_env (λ _ _, rate_limited_reply))
           "https://api.spotify.com/v1/me" None NoBody signed_in _ run.2).
  vm_compute. reflexivity.
Defined.





Lemma makeApiCall_expired_trace env u meth b w tok ts rtok r w' :
  storage w !! "spotify_access_token" = Some tok →
  truthy_str (Some tok) = true →
  storage w !! "spotify_access_expiry_ts" = Some (String_of_number ts) →
  ts ≠ 0 → ts < now w →
  storage w !! "spotify_refresh_token" = Some rtok →
  truthy_str (Some rtok) = true →
  makeApiCall env u meth b w = (r, w') →
  ∃ rest,
    trace w' = trace w
      ++ [EFetch (token_request
            [("grant_type", "refresh_token"); ("refresh_token", rtok);
             ("client_id", CLIENT_ID env)]);
          EFetch (api_request u meth b tok)] ++ rest.
Proof.
  intros Htok Htruthy Hts Hts0 Hlt Hr Hrt H.
  destruct (makeApiCall_shape_refresh _ _ _ _ _ _ _ _ Htok Htruthy H)
    as (_ & pre & mid & post & Htr & _ & _ & _ & _ & _ & exp & w1 & Hexp & Hpro & Htr1).
  rewrite (getAccessTokenExpiryTs_stored w ts Hts) in Hexp. injection Hexp as <-.
  assert (Hcond : truthy_num (Some ts) && (now w >? default 0 (Some ts)) = true).
  { simpl. apply andb_true_iff. split; [by apply negb_true_iff, Z.eqb_neq|lia]. }
  rewrite Hcond in Hpro.
  apply bind_inv in Hpro as [(ok & w1' & Hrf & Hret)|(e & _ & [=])].
  apply quiet_ret in Hret as ->.
  rewrite (refreshAccessToken_sends _ _ _ _ _ Hr Hrt Hrf) in Htr1.
  apply app_inv_head in Htr1 as <-.
  exists (mid ++ post). rewrite Htr. reflexivity.
Qed.

(** X10.  When the stored expiry has passed and a refresh token is stored,
    [makeApiCall] first sends a refresh request and then the API request,
    which carries the access token read before the refresh. *)
Theorem makeApiCall_expired_refreshes_first env u meth b w tok ts rtok r w' :
  storage w !! "spotify_access_token" = Some tok →
  truthy_str (Some tok) = true →
  storage w !! "spotify_access_expiry_ts" = Some (String_of_number ts) →
  ts ≠ 0 → ts < now w →
  storage w !! "spotify_refresh_token" = Some rtok →
  truthy_str (Some rtok) = true →
  makeApiCall env u meth b w = (r, w') →
  ∃ rest,
    trace w' = trace w
      ++ [EFetch (token_request
            [("grant_type", "refresh_token"); ("refresh_token", rtok);
             ("client_id", CLIENT_ID env)]);
          EFetch (api_request u meth b tok)] ++ rest.
Proof. apply makeApiCall_expired_trace. Qed.

Lemma makeApiCall_expired_refreshes_first_witness :
  let env := example_env always_401 in
  let run := makeApiCall env "https://api.spotify.com/v1/me" None NoBody
               signed_in_expired in
  ∃ rest,
    trace run.2 = trace signed_in_expired
      ++ [EFetch (token_request
            [("grant_type", "refresh_token"); ("refresh_token", "r0");
             ("client_id", CLIENT_ID env)]);
          EFetch (api_request "https://api.spotify.com/v1/me" None NoBody "a0")] ++ rest.
Proof.
  intros env run.
  apply (makeApiCall_expired_refreshes_first env "https://api.spotify.com/v1/me" None
           NoBody signed_in_expired "a0" 3600 "r0" run.1 run.2).
  - vm_compute. reflexivity.
  - reflexivity.
  - vm_compute. reflexivity.
  - lia.
  - vm_compute. reflexivity.
  - vm_compute. reflexivity.
  - reflexivity.
  - vm_compute. reflexivity.
Defined.




(** ** The queue pipeline: rate limits and timers *)







Lemma retry_loop_sleeps env (uri deviceId : string) w :
  ∃ w' n,
    retry_loop env (Z.to_nat maxRetries + 2) uri deviceId 0 w = (Ret tt, w')
    ∧ (n <= 3)%nat
    ∧ sleeps (trace w') = sleeps (trace w) ++ take n [1000; 2000; 4000].
Proof.
  assert (Heq : retry_loop env (Z.to_nat maxRetries + 2) uri deviceId 0 w
                = submit_with_backoff env [1000; 2000; 4000] uri deviceId w)
    by reflexivity.
  rewrite Heq.
  destruct (submit_with_backoff_sleeps env uri deviceId [1000; 2000; 4000] w)
    as (w' & n & Hrun & Hsl).
  exists w', (3 `min` n)%nat. split; [done|]. split; [lia|].
  rewrite Hsl. f_equal. symmetry.
  apply (take_min_length [1000; 2000; 4000] n).
Qed.

Lemma queue_loop_sleeps env (deviceId : string) (ev : nat → nat → Event)
    (uris : list string) (total : nat) :
  (∀ p t, sleep_of (ev p t) = None) →
  ∀ (completed : nat) w,
    ∃ w' ns,
      queue_loop env uris deviceId (λ p t, log (ev p t)) total completed w = (Ret tt, w')
      ∧ length ns = length uris
      ∧ Forall (λ n, n <= 3)%nat ns
      ∧ sleeps (trace w') = sleeps (trace w) ++ expected_sleeps ns.
Proof.
  intros Hev.
  induction uris as [|uri rest IH]; intros completed w; cbn [queue_loop].
  - exists w, []. split; [done|]. split; [done|]. split; [done|].
    by rewrite app_nil_r.
  - destruct (retry_loop_sleeps env uri deviceId w) as (w1 & n & Hretry & Hn & Hs1).
    unfold bind at 1. rewrite Hretry.
    unfold bind at 1. unfold log at 1.
    set (w2 := {| storage := storage w1; now := now w1;
                  trace := trace w1 ++ [ev (S completed) total];
                  drawn := drawn w1 |}).
    assert (Hs2 : sleeps (trace w2) = sleeps (trace w1)).
    { subst w2. cbn [trace]. rewrite sleeps_app. unfold sleeps at 2.
      cbn [omap list_omap]. rewrite Hev. by rewrite app_nil_r. }
    destruct rest as [|uri2 rest2].
    + unfold bind at 1. unfold ret at 1. cbn [queue_loop].
      exists w2, [n]. split; [done|]. split; [done|].
      split; [constructor; [done|constructor]|].
      rewrite Hs2, Hs1. cbn [expected_sleeps]. by rewrite app_nil_r.
    + unfold bind at 1. unfold sleep at 1.
      match goal with |- context [queue_loop _ _ _ _ _ _ ?w0] => set (w3 := w0) end.
      assert (Hs3 : sleeps (trace w3) = sleeps (trace w2) ++ [150]).
      { subst w3. cbn [trace]. by rewrite sleeps_app. }
      destruct (IH (S completed) w3) as (w' & ns & Hloop & Hlen & Hns & Hs4).
      exists w', (n :: ns). split; [exact Hloop|].
      split; [simpl in *; lia|]. split; [by constructor|].
      rewrite Hs4, Hs3, Hs2, Hs1.
      destruct ns as [|n2 ns2]; [done|].
      cbn [expected_sleeps]. by rewrite <- !app_assoc.
Qed.

(** X13.  The timers of a queue run: for every track the first [n] of the
    backoff delays 1 s, 2 s, 4 s ([n] at most 3), then 150 ms before the
    next track, and no wait after the last one. *)
Theorem batchQueueTracks_timers env (tracks : list SpotifyTrack) (deviceId : string)
    (ev : nat → nat → Event) w :
  (∀ p t, sleep_of (ev p t) = None) →
  ∃ w' ns,
    batchQueueTracks env tracks deviceId (λ p t, log (ev p t)) w = (Ret tt, w')
    ∧ length ns = length tracks
    ∧ Forall (λ n, n <= 3)%nat ns
    ∧ sleeps (trace w') = sleeps (trace w) ++ expected_sleeps ns.
Proof.
  intros Hev. unfold batchQueueTracks.
  destruct (queue_loop_sleeps env deviceId ev (map uri tracks)
              (length (map uri tracks)) Hev 0%nat w)
    as (w' & ns & Hrun & Hlen & Hns & Hsl).
  exists w', ns. rewrite length_map in Hlen. done.
Qed.

Lemma batchQueueTracks_timers_witness :
  ∃ w' ns,
    batchQueueTracks (example_env (scripted ten_track_script)) (example_tracks 10)
      "dev1" (λ p t, log (EProgress p t)) signed_in = (Ret tt, w')
    ∧ length ns = length (example_tracks 10)
    ∧ Forall (λ n, n <= 3)%nat ns
    ∧ sleeps (trace w') = sleeps (trace signed_in) ++ expected_sleeps ns.
Proof.
  apply (batchQueueTracks_timers (example_env (scripted ten_track_script))
           (example_tracks 10) "dev1" EProgress signed_in).
  reflexivity.
Defined.

(** ** Device probes *)





Lemma getDevices_answered env ds w :
  has_token w = true →
  answers_devices env ds →
  ∃ w', getDevices env w = (Ret (Some ds), w')
        ∧ call_step [(SPOTIFY_ENDPOINTS.DEVICES, "GET", NoBody)] w w'.
Proof.
  intros Ht Hnet.
  destruct (makeApiCall_ok env SPOTIFY_ENDPOINTS.DEVICES None NoBody w (JDevices ds) Ht Hnet)
    as (w' & Hcall & Hstep).
  exists w'. split; [|exact Hstep].
  unfold getDevices, bind. by rewrite Hcall.
Qed.

(** X14.  [hasActiveDevice] answers [true] exactly when the provider lists
    at least one device, whether or not any listed device is active. *)
Theorem hasActiveDevice_any_device env ds w :
  has_token w = true →
  answers_devices env ds →
  ∃ w', hasActiveDevice env w = (Ret (bool_decide (ds ≠ [])), w')
        ∧ api_calls (trace w')
          = api_calls (trace w) ++ [(SPOTIFY_ENDPOINTS.DEVICES, "GET", NoBody)].
Proof.
  intros Ht Hnet.
  destruct (getDevices_answered env ds w Ht Hnet) as (w' & Hrun & Hstep).
  exists w'. split; [|by apply call_step_api_calls].
  unfold hasActiveDevice, try_catch, bind. rewrite Hrun. unfold ret. f_equal. f_equal.
  destruct ds as [|d ds]; [done|].
  rewrite bool_decide_eq_true_2 by done. apply orb_true_iff. right.
  apply Z.ltb_lt. cbn [length]. lia.
Qed.

Lemma hasActiveDevice_any_device_witness :
  let idle := {| dev_id := "dev1"; is_active := false;
                 dev_name := "Phone"; dev_type := "Smartphone" |} in
  ∃ w', hasActiveDevice (example_env (λ _ _, json_reply 200 (JDevices [idle]))) signed_in
        = (Ret (bool_decide ([idle] ≠ [])), w')
        ∧ api_calls (trace w')
          = api_calls (trace signed_in) ++ [(SPOTIFY_ENDPOINTS.DEVICES, "GET", NoBody)].
Proof.
  intros idle.
  apply (hasActiveDevice_any_device
           (example_env (λ _ _, json_reply 200 (JDevices [idle]))) [idle] signed_in).
  - reflexivity.
  - intros hist tok. eexists. repeat split; reflexivity.
Defined.

Lemma pick_device_spec (d0 : Device) (others : list Device) :
  pick_device d0 others ∈ d0 :: others
  ∧ (Exists (λ d, is_active d = true) (d0 :: others) →
     is_active (pick_device d0 others) = true)
  ∧ (Forall (λ d, is_active d = false) (d0 :: others) → pick_device d0 others = d0).
Proof.
  unfold pick_device.
  destruct (List.find is_active (d0 :: others)) as [d|] eqn:Hfind; cbn [default].
  - apply find_some in Hfind as [Hin Hact].
    split; [by apply list_elem_of_In|]. split; [done|].
    intros Hall. rewrite Forall_forall in Hall.
    apply list_elem_of_In in Hin. rewrite (Hall d Hin) in Hact. done.
  - split; [by left|]. split; [|done].
    intros Hex. apply Exists_exists in Hex as (d & Hin & Hact).
    apply list_elem_of_In in Hin.
    by rewrite (find_none _ _ Hfind d Hin) in Hact.
Qed.

(** X15.  When the first lookup lists devices, [ensureActiveDevice] returns
    the id of a listed device, an active one if there is any and the first
    listed otherwise, after that one lookup: it neither opens Spotify nor
    waits. *)
Theorem ensureActiveDevice_picks env (trackUri playlistUri : option string)
    (d0 : Device) (others : list Device) w :
  has_token w = true →
  answers_devices env (d0 :: others) →
  ∃ d w',
    ensureActiveDevice env trackUri playlistUri w = (Ret (Some (dev_id d)), w')
    ∧ d ∈ d0 :: others
    ∧ (Exists (λ d, is_active d = true) (d0 :: others) → is_active d = true)
    ∧ (Forall (λ d, is_active d = false) (d0 :: others) → d = d0)
    ∧ call_step [(SPOTIFY_ENDPOINTS.DEVICES, "GET", NoBody)] w w'.
Proof.
  intros Ht Hnet.
  destruct (getDevices_answered env _ w Ht Hnet) as (w' & Hrun & Hstep).
  destruct (pick_device_spec d0 others) as (Hin & Hact & Hfirst).
  exists (pick_device d0 others), w'.
  split; [|done].
  unfold ensureActiveDevice, try_catch, bind. by rewrite Hrun.
Qed.

Lemma ensureActiveDevice_picks_witness :
  let idle := {| dev_id := "dev1"; is_active := false;
                 dev_name := "Phone"; dev_type := "Smartphone" |} in
  let playing := {| dev_id := "dev2"; is_active := true;
                    dev_name := "Speaker"; dev_type := "Speaker" |} in
  let env := example_env (λ _ _, json_reply 200 (JDevices [idle; playing])) in
  ∃ d w',
    ensureActiveDevice env None None signed_in = (Ret (Some (dev_id d)), w')
    ∧ d ∈ [idle; playing]
    ∧ is_active d = true
    ∧ call_step [(SPOTIFY_ENDPOINTS.DEVICES, "GET", NoBody)] signed_in w'.
Proof.
  intros idle playing env.
  destruct (ensureActiveDevice_picks env None None idle [playing] signed_in)
    as (d & w' & Hrun & Hin & Hact & _ & Hstep).
  - reflexivity.
  - intros hist tok. eexists. repeat split; reflexivity.
  - exists d, w'. split; [exact Hrun|]. split; [exact Hin|]. split; [|exact Hstep].
    apply Hact. apply Exists_cons_tl, Exists_cons_hd. reflexivity.
Defined.





(** ** The saved-tracks query *)

(** X17.  The [queryFn] of [useSpotifySavedTracks] behaves exactly like
    [getUserSavedTracks]: the errors its own [catch] would turn into an
    empty list have already been turned into one by [getUserSavedTracks]. *)
Theorem savedTracks_queryFn_same env w :
  savedTracks_queryFn env w = getUserSavedTracks env w.
Proof.
  unfold savedTracks_queryFn. unfold try_catch at 1.
  destruct (getUserSavedTracks env w) as [[l|e] w1] eqn:Hrun; [done|].
  unfold getUserSavedTracks in Hrun.
  apply try_catch_inv in Hrun as [(a & _ & [=])|(e0 & w0 & _ & Hh)].
  destruct (bool_decide (err_status e0 = Some 403)
            || includes (message e0) "Insufficient client scope") eqn:Hc; [done|].
  unfold throw in Hh. injection Hh as -> ->.
  apply orb_false_iff in Hc as [_ Hc]. by rewrite Hc.
Qed.

(** ** Paged fetch: collections of any size *)

Lemma page_promise_total env ep p w :
  ∃ l w', page_promise env ep p w = (Ret l, w').
Proof.
  unfold page_promise, try_catch, bind.
  destruct (makeApiCall env _ None NoBody w) as [[d|e] w1];
    [destruct (items_of d)|]; eauto.
Qed.

Lemma batch_total env ep (fuel : nat) :
  ∀ i j rp w, ∃ ls w', batch env fuel ep i j rp w = (Ret ls, w').
Proof.
  induction fuel as [|fuel IH]; intros i j rp w; cbn [batch]; [by eauto|].
  destruct (_ && _); [|by eauto].
  unfold bind.
  destruct (page_promise_total env ep (i + j + 1) w) as (l & w1 & ->).
  destruct (IH i (j + 1) rp w1) as (ls & w2 & ->). eauto.
Qed.

Lemma batches_total env ep (fuel : nat) :
  ∀ i rp tracks w,
    ∃ l w', batches env fuel ep i rp tracks w = (Ret (tracks ++ l), w').
Proof.
  induction fuel as [|fuel IH]; intros i rp tracks w; cbn [batches].
  - exists [], w. by rewrite app_nil_r.
  - destruct (i <? rp); [|exists [], w; by rewrite app_nil_r].
    unfold bind at 1.
    destruct (batch_total env ep (Z.to_nat CONCURRENT_REQUESTS) i 0 rp w)
      as (ls & w1 & ->).
    unfold bind at 1.
    assert (Hp : ∃ w2, (if i + CONCURRENT_REQUESTS <? rp then sleep 100 else ret tt) w1
                       = (Ret tt, w2)).
    { destruct (_ <? _); eauto. }
    destruct Hp as (w2 & ->).
    destruct (IH (i + CONCURRENT_REQUESTS) rp (tracks ++ concat ls) w2) as (l & w3 & ->).
    exists (concat ls ++ l), w3. by rewrite app_assoc.
Qed.

Lemma fetch_all_pages_outcome env ep w :
  match makeApiCall env (page_query ep 0) None NoBody w with
  | (Throw e, w1) => fetch_all_pages env ep w = (Throw e, w1)
  | (Ret data, w1) =>
      ∃ l w', fetch_all_pages env ep w
              = (Ret (from_option tracks_of_items [] (items_of data) ++ l), w')
              ∧ (items_of data = None → l = [])
  end.
Proof.
  destruct (makeApiCall env (page_query ep 0) None NoBody w) as [[data|e] w1] eqn:Hcall;
    unfold fetch_all_pages; unfold bind at 1; rewrite Hcall; [|done].
  destruct (items_of data) as [its|]; cbn [from_option].
  - destruct (_ || _).
    + exists [], w1. by rewrite app_nil_r.
    + destruct (batches_total env ep
                  (Z.to_nat (Math_ceil_div (total_of data - limit) limit)) 0
                  (Math_ceil_div (total_of data - limit) limit)
                  (tracks_of_items its) w1) as (l & w' & ->).
      by exists l, w'.
  - by exists [], w1.
Qed.

(** X18.  [getPlaylistTracks] fails only when the request for the first
    page throws.  Once the first page has arrived it returns normally
    whatever happens to the later pages: its result starts with the tracks
    of the first page, and the pages that fail are left out without an
    error. *)
Theorem getPlaylistTracks_first_page env (playlistId : string) w :
  match makeApiCall env (page_query (SPOTIFY_ENDPOINTS.PLAYLIST_TRACKS playlistId) 0)
          None NoBody w with
  | (Throw e, w1) => getPlaylistTracks env playlistId w = (Throw e, w1)
  | (Ret data, w1) =>
      ∃ l w', getPlaylistTracks env playlistId w
              = (Ret (from_option tracks_of_items [] (items_of data) ++ l), w')
              ∧ (items_of data = None → l = [])
  end.
Proof.
  pose proof (fetch_all_pages_outcome env
                (SPOTIFY_ENDPOINTS.PLAYLIST_TRACKS playlistId) w) as H.
  unfold getPlaylistTracks, try_catch.
  destruct (makeApiCall env _ None NoBody w) as [[data|e] w1].
  - destruct H as (l & w' & -> & Hl). by exists l, w'.
  - by rewrite H.
Qed.










Lemma act_step_fetch_step l w w' :
  act_step l w w' →
  fetch_step (omap (λ a, match a with ACall c => Some c | AWait _ => None end) l)
    (omap (λ a, match a with AWait ms => Some ms | ACall _ => None end) l) w w'.
Proof.
  intros [Ht Hacts]. split; [done|].
  assert (Hc : ∀ tr, api_calls tr
    = omap (λ a, match a with ACall c => Some c | AWait _ => None end) (acts tr)).
  { induction tr as [|e tr IH]; [done|].
    unfold api_calls, acts in *.
    destruct e as [req| | | | | |]; simpl; try exact IH.
    destruct (authorization req); simpl; [f_equal|]; exact IH. }
  assert (Hs : ∀ tr, sleeps tr
    = omap (λ a, match a with AWait ms => Some ms | ACall _ => None end) (acts tr)).
  { induction tr as [|e tr IH]; [done|].
    unfold sleeps, acts in *.
    destruct e as [req| | | | | |]; simpl; try exact IH.
    - destruct (authorization req); simpl; exact IH.
    - f_equal. exact IH. }
  by rewrite !Hc, !Hs, Hacts, !omap_app.
Qed.



Section Paging.
Variable env : Env.
Variable ep : string.
Variable src : list SpotifyTrack.
Hypothesis Hserves : serves env ep src.
Variable rp : nat.
Hypothesis Hrp : (rp * 50 < length src)%nat.




End Paging.











(** The run of the 301-track playlist: seven pages, one pause. *)
Example getPlaylistTracks_301 :
  let ep := SPOTIFY_ENDPOINTS.PLAYLIST_TRACKS "p1" in
  let run := getPlaylistTracks (example_env (paged_provider ep (example_tracks 301)))
               "p1" signed_in in
  run.1 = Ret (example_tracks 301)
  ∧ acts (trace run.2)
    = [ACall (page_call ep 0);
       ACall (page_call ep 1); ACall (page_call ep 2); ACall (page_call ep 3);
       ACall (page_call ep 4); ACall (page_call ep 5);
       AWait 100;
       ACall (page_call ep 6)].
Proof. vm_compute. by repeat split. Qed.

(** ** The shuffle: which orders it produces *)

Lemma swap_tail {T} (a a' : list T) (i j : nat) :
  (j <= i)%nat → swap a i j = Some a' →
  a' !! i = a !! j ∧ drop (S i) a' = drop (S i) a.
Proof.
  unfold swap. intros Hji H.
  destruct (a !! i) as [x|] eqn:Hi; [|done].
  destruct (a !! j) as [y|] eqn:Hj; [|done].
  injection H as <-.
  assert (Hi' : (i < length a)%nat) by (apply lookup_lt_is_Some; eauto).
  split.
  - destruct (decide (j = i)) as [->|Hne].
    + rewrite list_lookup_insert_eq by (by rewrite length_insert). congruence.
    + rewrite list_lookup_insert_ne by done.
      by rewrite list_lookup_insert_eq.
  - rewrite !drop_insert_lt by lia. done.
Qed.

Lemma shuffle_loop_tail {T} (rv : nat → Q) :
  (∀ n, (0 <= rv n)%Q ∧ (rv n < 1)%Q) →
  ∀ (i k : nat) (a out : list T),
    shuffle_loop rv k i a = Some out →
    drop (S i) out = drop (S i) a.
Proof.
  intros Hrv i. induction i as [|i IH]; intros k a out H; cbn [shuffle_loop] in H.
  - by injection H as <-.
  - destruct (Hrv k) as [Hlo Hhi].
    pose proof (random_index_range (rv k) (S i) Hlo Hhi) as [Hj0 Hji].
    destruct (0 <=? random_index (rv k) (S i)); [|done].
    destruct (swap a (S i) (Z.to_nat (random_index (rv k) (S i)))) as [a'|] eqn:Hsw;
      [|done].
    apply swap_tail in Hsw as [_ Hdrop]; [|lia].
    apply IH in H.
    rewrite <- Hdrop.
    replace (S (S i)) with (S i + 1)%nat by lia. rewrite <- !drop_drop. by rewrite H.
Qed.

Lemma shuffle_loop_ext {T} (rv rv' : nat → Q) :
  ∀ (i k : nat) (a : list T),
    (∀ n, (k <= n)%nat → rv n = rv' n) →
    shuffle_loop rv k i a = shuffle_loop rv' k i a.
Proof.
  intros i. induction i as [|i IH]; intros k a Hext; cbn [shuffle_loop]; [done|].
  rewrite <- (Hext k) by lia.
  destruct (0 <=? _); [|done]. destruct (swap _ _ _); [|done].
  apply IH. intros n Hn. apply Hext. lia.
Qed.

Lemma random_index_exact (j i : nat) :
  (j <= i)%nat →
  (0 <= Z.of_nat j # Pos.of_nat (S i))%Q
  ∧ (Z.of_nat j # Pos.of_nat (S i) < 1)%Q
  ∧ random_index (Z.of_nat j # Pos.of_nat (S i)) i = Z.of_nat j.
Proof.
  intros Hji.
  assert (Hpos : Z.pos (Pos.of_nat (S i)) = Z.of_nat i + 1).
  { rewrite <- positive_nat_Z, Nat2Pos.id by done. lia. }
  split; [unfold Qle; simpl; lia|].
  split; [unfold Qlt; simpl; lia|].
  unfold random_index.
  rewrite (Qfloor_comp _ (inject_Z (Z.of_nat j))); [apply Qfloor_Z|].
  unfold Qeq, Qmult, inject_Z. simpl. rewrite Pos.mul_1_r, Hpos. lia.
Qed.

Lemma shuffle_loop_reaches {T} :
  ∀ (i k : nat) (a target : list T),
    (i < length a)%nat →
    drop (S i) a = drop (S i) target →
    take (S i) a ≡ₚ take (S i) target →
    ∃ rv, (∀ n, (0 <= rv n)%Q ∧ (rv n < 1)%Q)
          ∧ shuffle_loop rv k i a = Some target.
Proof.
  intros i. induction i as [|i IH]; intros k a target Hlen Hdrop Hperm.
  - exists (λ _, 0%Q). split; [done|]. cbn [shuffle_loop]. f_equal.
    rewrite <- (take_drop 1 a), <- (take_drop 1 target), Hdrop. f_equal.
    destruct a as [|a0 a]; [simpl in Hlen; lia|].
    destruct target as [|t0 target].
    { apply Permutation_length in Hperm. done. }
    simpl in *. f_equal. by apply Permutation_length_1.
  - assert (Hlt : length target = length a).
    { apply (f_equal length) in Hdrop. rewrite !length_drop in Hdrop.
      apply Permutation_length in Hperm. rewrite !length_take in Hperm. lia. }
    destruct (lookup_lt_is_Some_2 target (S i)) as [x Hx]; [lia|].
    destruct (lookup_lt_is_Some_2 a (S i)) as [y Hy]; [lia|].
    assert (Hin : x ∈ take (S (S i)) a).
    { rewrite Hperm. apply elem_of_take. exists (S i). split; [done|lia]. }
    apply elem_of_take in Hin as (j & Hj & Hjlt).
    destruct (swap_in_range a (S i) j) as [a' Hsw]; [lia|apply lookup_lt_is_Some; eauto|].
    pose proof (swap_Permutation _ _ _ _ Hsw) as [Hpa Hla].
    pose proof (swap_tail a a' (S i) j ltac:(lia) Hsw) as [Hai Hadrop].
    rewrite Hj in Hai.
    destruct (IH (S k) a' target) as (rv' & Hrv' & Hrun); [lia| | |].
    { rewrite (drop_S a' x (S i) Hai), (drop_S target x (S i) Hx).
      by rewrite Hadrop, Hdrop. }
    { apply (Permutation_app_inv_r [x]).
      rewrite <- (take_S_r a' (S i) x Hai), <- (take_S_r target (S i) x Hx).
      rewrite <- Hperm.
      apply (Permutation_app_inv_r (drop (S (S i)) a)).
      rewrite <- Hadrop at 1. by rewrite !take_drop. }
    destruct (random_index_exact j (S i)) as (Hq0 & Hq1 & Hidx); [lia|].
    exists (λ n, if decide (n = k) then (Z.of_nat j # Pos.of_nat (S (S i)))%Q else rv' n).
    split.
    + intros n. destruct (decide (n = k)); [done|apply Hrv'].
    + cbn [shuffle_loop]. rewrite decide_True by done.
      rewrite Hidx. rewrite (proj2 (Z.leb_le 0 (Z.of_nat j))) by lia.
      rewrite Nat2Z.id, Hsw. rewrite <- Hrun.
      apply shuffle_loop_ext. intros n Hn. by rewrite decide_False by lia.
Qed.

(** X21.  Every ordering of the input is produced by [trueRandomShuffle]
    for some sequence of random values in [0, 1): with the permutation
    property, the outputs of the shuffle are exactly the orderings of the
    input. *)
Theorem trueRandomShuffle_reaches {T} (k : nat) (array target : list T) :
  target ≡ₚ array →
  ∃ rv, (∀ n, (0 <= rv n)%Q ∧ (rv n < 1)%Q)
        ∧ trueRandomShuffle rv k array = Some target.
Proof.
  intros Hperm. unfold trueRandomShuffle.
  destruct array as [|a0 array].
  - apply Permutation_nil_r in Hperm as ->. by exists (λ _, 0%Q).
  - pose proof (Permutation_length Hperm) as Hlen.
    apply shuffle_loop_reaches.
    + simpl. lia.
    + rewrite !drop_ge; [done|lia|simpl; lia].
    + rewrite !take_ge; [done|lia|simpl; lia].
Qed.

Lemma trueRandomShuffle_reaches_witness :
  ∃ rv, (∀ n, (0 <= rv n)%Q ∧ (rv n < 1)%Q)
        ∧ trueRandomShuffle rv 0 [1; 2; 3; 4]%nat = Some [3; 1; 4; 2]%nat.
Proof.
  apply (trueRandomShuffle_reaches 0 [1; 2; 3; 4]%nat [3; 1; 4; 2]%nat).
  apply (Permutation_trans (l' := [1; 3; 4; 2]%nat)).
  - apply perm_swap.
  - apply perm_skip.
    apply (Permutation_trans (l' := [3; 2; 4]%nat)).
    + apply perm_skip, perm_swap.
    + apply (Permutation_trans (l' := [2; 3; 4]%nat)); [apply perm_swap|reflexivity].
Defined.

Lemma shuffle_loop_injective {T} (rv rv' : nat → Q) :
  (∀ n, (0 <= rv n)%Q ∧ (rv n < 1)%Q) →
  (∀ n, (0 <= rv' n)%Q ∧ (rv' n < 1)%Q) →
  ∀ (i k k' : nat) (a out : list T),
    NoDup a →
    shuffle_loop rv k i a = Some out →
    shuffle_loop rv' k' i a = Some out →
    ∀ m, (m < i)%nat →
         random_index (rv (k + m)%nat) (i - m) = random_index (rv' (k' + m)%nat) (i - m).
Proof.
  intros Hrv Hrv' i. induction i as [|i IH]; intros k k' a out Hnd H H' m Hm; [lia|].
  pose proof (shuffle_loop_tail rv Hrv _ _ _ _ H) as Ht.
  pose proof (shuffle_loop_tail rv' Hrv' _ _ _ _ H') as Ht'.
  cbn [shuffle_loop] in H, H'.
  destruct (Hrv k) as [Hlo Hhi]. destruct (Hrv' k') as [Hlo' Hhi'].
  pose proof (random_index_range (rv k) (S i) Hlo Hhi) as [Hj0 Hji].
  pose proof (random_index_range (rv' k') (S i) Hlo' Hhi') as [Hj0' Hji'].
  destruct (0 <=? random_index (rv k) (S i)); [|done].
  destruct (0 <=? random_index (rv' k') (S i)); [|done].
  set (j := Z.to_nat (random_index (rv k) (S i))) in *.
  set (j' := Z.to_nat (random_index (rv' k') (S i))) in *.
  destruct (swap a (S i) j) as [a1|] eqn:Hsw; [|done].
  destruct (swap a (S i) j') as [a1'|] eqn:Hsw'; [|done].
  pose proof (swap_tail a a1 (S i) j ltac:(lia) Hsw) as [Hai _].
  pose proof (swap_tail a a1' (S i) j' ltac:(lia) Hsw') as [Hai' _].
  pose proof (shuffle_loop_tail rv Hrv _ _ _ _ H) as Hd.
  pose proof (shuffle_loop_tail rv' Hrv' _ _ _ _ H') as Hd'.
  assert (Hsame : a !! j = a !! j').
  { rewrite <- Hai, <- Hai'.
    rewrite <- (Nat.add_0_r (S i)), <- !lookup_drop. by rewrite <- Hd, <- Hd'. }
  assert (Hjj : j = j').
  { assert (Hjl : (j < length a)%nat).
    { unfold swap in Hsw. apply lookup_lt_is_Some.
      destruct (a !! S i); [|done]. destruct (a !! j); [eauto|done]. }
    destruct (lookup_lt_is_Some_2 a j Hjl) as [x Hx].
    apply (NoDup_lookup a j j' x Hnd Hx). by rewrite <- Hsame. }
  destruct m as [|m].
  - rewrite !Nat.add_0_r, Nat.sub_0_r. subst j j'. lia.
  - rewrite <- Hjj, Hsw in Hsw'. injection Hsw' as <-.
    replace (k + S m)%nat with (S k + m)%nat by lia.
    replace (k' + S m)%nat with (S k' + m)%nat by lia.
    replace (S i - S m)%nat with (i - m)%nat by lia.
    apply (IH (S k) (S k') a1 out); [|done|done|lia].
    apply swap_Permutation in Hsw as [Hp _]. by rewrite Hp.
Qed.

(** X22.  On an array without repeated elements, two runs of the shuffle
    produce the same order only if they chose the same index at every step:
    each ordering comes from exactly one sequence of index choices. *)
Theorem trueRandomShuffle_injective {T} (rv rv' : nat → Q) (array out : list T) :
  NoDup array →
  (∀ n, (0 <= rv n)%Q ∧ (rv n < 1)%Q) →
  (∀ n, (0 <= rv' n)%Q ∧ (rv' n < 1)%Q) →
  trueRandomShuffle rv 0 array = Some out →
  trueRandomShuffle rv' 0 array = Some out →
  ∀ m, (m < length array - 1)%nat →
       random_index (rv m) (length array - 1 - m)
       = random_index (rv' m) (length array - 1 - m).
Proof.
  intros Hnd Hrv Hrv' H H' m Hm.
  apply (shuffle_loop_injective rv rv' Hrv Hrv' _ 0 0 array out Hnd H H' m Hm).
Qed.

Lemma trueRandomShuffle_injective_witness :
  random_index ((λ _, 1 # 2)%Q 1%nat) (length [1; 2; 3]%nat - 1 - 1)
  = random_index ((λ _, 3 # 5)%Q 1%nat) (length [1; 2; 3]%nat - 1 - 1).
Proof.
  apply (trueRandomShuffle_injective (λ _, 1 # 2)%Q (λ _, 3 # 5)%Q
           [1; 2; 3]%nat [1; 3; 2]%nat).
  - apply (bool_decide_unpack _). vm_compute. exact I.
  - intros n. split; [unfold Qle|unfold Qlt]; simpl; lia.
  - intros n. split; [unfold Qle|unfold Qlt]; simpl; lia.
  - vm_compute. reflexivity.
  - vm_compute. reflexivity.
  - simpl. lia.
Defined.

(** ** The shuffle mutation: what the progress callback sees *)

Lemma updates_observations tr :
  updates tr = omap update_of_obs (observations tr).
Proof.
  induction tr as [|e tr IH]; [done|].
  unfold updates, observations in *.
  destruct e as [req| | | | | |]; simpl; try exact IH.
  - destruct (authorization req); exact IH.
  - f_equal. exact IH.
Qed.

Lemma obs_step_update_step os w w' :
  obs_step os w w' → update_step (omap update_of_obs os) w w'.
Proof.
  intros (Ht & _ & Hobs). split; [done|].
  by rewrite !updates_observations, Hobs, omap_app.
Qed.

Lemma update_step_trans u1 u2 w1 w2 w3 :
  update_step u1 w1 w2 → update_step u2 w2 w3 → update_step (u1 ++ u2) w1 w3.
Proof.
  intros [Ht1 H1] [Ht2 H2]. split; [auto|]. by rewrite H2, H1, app_assoc.
Qed.

Lemma expected_updates (msg : nat → nat → option string) (ks : list nat) :
  ∀ (urls : list string) (completed total : nat),
    length ks = length urls →
    omap update_of_obs
      (expected (λ p t, OUpdate true p t (msg p t)) ks urls completed total)
    = (λ i, (true, i, total)) <$> seq (S completed) (length urls).
Proof.
  induction ks as [|k ks IH]; intros [|u urls] completed total Hlen; try done.
  simpl. rewrite omap_app. simpl. rewrite IH by (simpl in Hlen; lia).
  by rewrite (omap_replicate_None update_of_obs (OCall (u, "POST", NoBody)) k eq_refl).
Qed.

(** X23.  A shuffle-and-queue run that returns [true] has reported its
    progress as (queueing, 0, n), (queueing, 1, n), ..., (queueing, n, n) and
    at the end (done, n, n), where n = min(length, 150) - 1 is the number of
    tracks handed to the queue; a run that returns [false] has reported
    nothing. *)
Theorem shuffle_and_queue_updates env playlist (tracks : list SpotifyTrack) w r w' :
  has_token w = true →
  shuffle_and_queue env playlist tracks w = (r, w') →
  let n := (length tracks `min` MAX_QUEUE_SIZE - 1)%nat in
  match r with
  | Ret true =>
      updates (trace w')
      = updates (trace w)
        ++ (true, 0%nat, n) :: ((λ i, (true, i, n)) <$> seq 1 n) ++ [(false, n, n)]
  | Ret false => updates (trace w') = updates (trace w)
  | Throw _ => True
  end.
Proof.
  intros Ht H n. destruct tracks as [|t ts].
  { injection H as <- <-. done. }
  destruct (trueRandomShuffle_in_range
              (λ k, getSecureRandom (random env k)) (drawn w) (t :: ts))
    as (out & Hout & Hperm & Hlen); [intros m; apply getSecureRandom_range|].
  destruct out as [|first rest]; [done|].
  assert (Hn : length (take (MAX_QUEUE_SIZE - 1) rest) = n).
  { subst n. rewrite length_take, <- Hlen. unfold MAX_QUEUE_SIZE. cbn [length]. lia. }
  unfold shuffle_and_queue in H.
  apply bind_inv in H as [(sh & ws & H1 & H)|(e & H1 & ->)];
    unfold shuffle_tracks in H1; rewrite Hout in H1; [|done].
  injection H1 as <- <-.
  match type of H with _ ?w0 = _ => set (ws := w0) in * end.
  assert (Hts : has_token ws = true) by exact Ht.
  assert (Hu0 : update_step [] w ws).
  { split; [done|]. by rewrite app_nil_r. }
  apply bind_inv in H as [(d & w1 & Hd & H)|(e & Hd & _)];
    apply (ensureActiveDevice_obs _ _ _ _ _ _ Hts) in Hd as ([d' Hd'] & kd & Hs1);
    [|done].
  injection Hd' as <-.
  apply obs_step_update_step in Hs1.
  rewrite (omap_replicate_None _ _ _ (eq_refl : update_of_obs
             (OCall (SPOTIFY_ENDPOINTS.DEVICES, "GET", NoBody)) = None)) in Hs1.
  pose proof (update_step_trans _ _ _ _ _ Hu0 Hs1) as Hs01. simpl in Hs01.
  destruct d as [[|a s]|];
    try (injection H as <- <-; destruct Hs01 as [_ ->]; by rewrite app_nil_r).
  set (dev := String a s) in *.
  apply bind_inv in H as [(? & w2 & Htp & H)|(e & Htp & ->)]; [|done].
  apply (wrapper_obs _ _ _ _ _ _ _ (proj1 Hs01 Ht)) in Htp as (kt & _ & Hs2).
  apply obs_step_update_step in Hs2.
  rewrite (omap_replicate_None _ _ _ (eq_refl : update_of_obs
             (OCall (SPOTIFY_ENDPOINTS.TRANSFER, str_or (Some "PUT") "GET",
                     TransferBody [dev] true)) = None)) in Hs2.
  pose proof (update_step_trans _ _ _ _ _ Hs01 Hs2) as Hs02. simpl in Hs02.
  apply bind_inv in H as [(? & w3 & Hpl & H)|(e & Hpl & ->)]; [|done].
  apply (wrapper_obs _ _ _ _ _ _ _ (proj1 Hs02 Ht)) in Hpl as (k0 & Hk0 & Hs3).
  apply obs_step_update_step in Hs3.
  rewrite (omap_replicate_None _ _ _ (eq_refl : update_of_obs
             (OCall (SPOTIFY_ENDPOINTS.PLAY (Some dev), str_or (Some "PUT") "GET",
                     PlayBody [uri first] None)) = None)) in Hs3.
  pose proof (update_step_trans _ _ _ _ _ Hs02 Hs3) as Hs03. simpl in Hs03.
  apply bind_inv in H as [(? & w4 & Hup & H)|(e & Hup & _)]; [|done].
  unfold onProgressUpdate in Hup.
  match type of Hup with log ?e0 _ = _ =>
    pose proof (log_obs_step e0 _ w3 eq_refl) as Hs4; rewrite Hup in Hs4 end.
  apply obs_step_update_step in Hs4. simpl in Hs4. clear Hup.
  pose proof (update_step_trans _ _ _ _ _ Hs03 Hs4) as Hs04.
  cbn [app] in Hs04.
  apply bind_inv in H as [(uq & w5 & Hq & H)|(e & Hq & _)].
  2:{ match type of Hq with batchQueueTracks _ _ _ (λ p t, onProgressUpdate true p t (Some (@?msg p t))) _ = _ =>
        destruct (batchQueueTracks_obs env dev
                    (λ p t, EProgressUpdate true p t (Some (msg p t)))
                    (λ p t, OUpdate true p t (Some (msg p t)))
                    (λ _ _, eq_refl) (take (MAX_QUEUE_SIZE - 1) rest) w4)
          as (w5' & ks & Hrun & _) end.
      assert (Habs : (@Throw unit e, w') = (Ret tt, w5'))
        by (rewrite <- Hq; exact Hrun).
      done. }
  match type of Hq with batchQueueTracks _ _ _ (λ p t, onProgressUpdate true p t (Some (@?msg p t))) _ = _ =>
    destruct (batchQueueTracks_obs env dev
                (λ p t, EProgressUpdate true p t (Some (msg p t)))
                (λ p t, OUpdate true p t (Some (msg p t)))
                (λ _ _, eq_refl) (take (MAX_QUEUE_SIZE - 1) rest) w4)
      as (w5' & ks & Hrun & Hlenks & _ & _ & Hs5);
    apply obs_step_update_step in Hs5;
    rewrite (expected_updates (λ p t, Some (msg p t))) in Hs5
      by (by rewrite length_fmap)
  end.
  assert (Hw5 : (Ret uq, w5) = (Ret tt, w5')) by (rewrite <- Hq; exact Hrun).
  injection Hw5 as _ ->. clear Hq Hrun.
  rewrite length_fmap, Hn in Hs5.
  pose proof (update_step_trans _ _ _ _ _ Hs04 Hs5) as Hs05.
  apply bind_inv in H as [(? & w6 & Hup & H)|(e & Hup & _)]; [|done].
  unfold onProgressUpdate in Hup.
  match type of Hup with log ?e0 _ = _ =>
    pose proof (log_obs_step e0 _ w5' eq_refl) as Hs6; rewrite Hup in Hs6 end.
  apply obs_step_update_step in Hs6. simpl in Hs6. clear Hup.
  pose proof (update_step_trans _ _ _ _ _ Hs05 Hs6) as Hs06.
  apply bind_inv in H as [(? & w7 & Htm & H)|(e & Htm & _)].
  2:{ by destruct (bool_decide _). }
  injection H as <- <-.
  assert (Hs7 : update_step [] w6 w7).
  { destruct (bool_decide _).
    - match type of Htm with log ?e0 _ = _ =>
        pose proof (log_obs_none e0 w6 eq_refl) as Hs7; rewrite Htm in Hs7 end.
      by apply obs_step_update_step in Hs7.
    - injection Htm as _ <-. split; [done|]. by rewrite app_nil_r. }
  pose proof (update_step_trans _ _ _ _ _ Hs06 Hs7) as Hs07.
  rewrite app_nil_r in Hs07.
  destruct Hs07 as [_ ->].
  change (length (take 149 rest)) with (length (take (MAX_QUEUE_SIZE - 1) rest)).
  rewrite Hn. by rewrite <- !app_assoc.
Qed.

Lemma shuffle_and_queue_updates_witness :
  let run := shuffle_and_queue (example_env one_device) example_playlist
               (example_tracks 3) signed_in in
  updates (trace run.2)
  = updates (trace signed_in)
    ++ (true, 0%nat, 2%nat) :: ((λ i, (true, i, 2%nat)) <$> seq 1 2) ++ [(false, 2%nat, 2%nat)].
Proof.
  intros run.
  pose proof (shuffle_and_queue_updates (example_env one_device) example_playlist
                (example_tracks 3) signed_in run.1 run.2 eq_refl) as H.
  assert (Hrun : run.1 = Ret true) by (vm_compute; reflexivity).
  rewrite Hrun in H. apply H. vm_compute. reflexivity.
Defined.

(** ** The scope probe *)

(** X24.  [hasRequiredScopes] never throws.  Without a stored token it
    answers [true] and sends nothing; it can answer [false] only when the
    probe request throws an error whose message contains both "Insufficient
    client scope" and "Rate limit exceeded". *)
Theorem hasRequiredScopes_outcomes env w r w' :
  hasRequiredScopes env w = (r, w') →
  (∃ b : bool, r = Ret b)
  ∧ (has_token w = false → r = Ret true ∧ w' = w)
  ∧ (r = Ret false →
     ∃ e, makeApiCall env (SPOTIFY_ENDPOINTS.SAVED_TRACKS ++ "?limit=1")%string
            None NoBody w = (Throw e, w')
          ∧ includes (message e) "Insufficient client scope" = true
          ∧ includes (message e) "Rate limit exceeded" = true).
Proof.
  unfold hasRequiredScopes. intros H.
  apply try_catch_inv in H as [(b & H & ->)|(e & w1 & H & Hh)].
  - apply bind_inv in H as [(res & w1 & Hcall & Hret)|(e & _ & [=])].
    injection Hret as <- <-.
    split; [eauto|]. split; [|done].
    intros Hno. by rewrite makeApiCall_no_token in Hcall.
  - apply bind_inv in H as [(res & w2 & _ & [=])|(e' & Hcall & [= <-])].
    destruct (includes (message e) "Insufficient client scope") eqn:Hinc;
      injection Hh as <- <-; (split; [eauto|]).
    + split.
      * intros Hno. rewrite makeApiCall_no_token in Hcall by done.
        injection Hcall as <- _. done.
      * intros _. exists e. split; [done|]. split; [done|].
        destruct (makeApiCall_throws_only_cases env _ None NoBody w e w1 Hcall)
          as [(_ & -> & _)|(_ & Hrl)]; done.
    + split; [|done]. intros Hno.
      rewrite makeApiCall_no_token in Hcall by done. by injection Hcall as _ <-.
Qed.

Lemma hasRequiredScopes_outcomes_witness :
  let run := hasRequiredScopes (example_env scope_missing)
               (example_world [("spotify_refresh_token", "r0")]) in
  run.1 = Ret true ∧ run.2 = example_world [("spotify_refresh_token", "r0")].
Proof.
  intros run.
  destruct (hasRequiredScopes_outcomes (example_env scope_missing)
              (example_world [("spotify_refresh_token", "r0")]) run.1 run.2)
    as (_ & Hno & _).
  - vm_compute. reflexivity.
  - apply Hno. reflexivity.
Defined.

(** ** The two authorization-code exchanges *)

(** X25.  When the token response carries no refresh token and the storage
    refuses [undefined], [exchangeCodeForToken] of [utils/spotify.ts]
    returns [false] although it has already stored the access token; the
    code verifier stays, and no expiry is recorded. *)
Theorem exchangeCodeForToken_partial_session env (code : string) w verifier resp d tok :
  storage w !! "spotify_code_verifier" = Some verifier →
  truthy_str (Some verifier) = true →
  outcome (net env (trace w)
     (token_request [("grant_type", "authorization_code"); ("code", code);
                     ("redirect_uri", REDIRECT_URI env); ("client_id", CLIENT_ID env);
                     ("code_verifier", verifier)])) = Responded resp →
  body resp = BodyJson (JToken d) →
  access_token d = Some tok → truthy_str (Some tok) = true →
  refresh_token d = None →
  setItem_undefined env = RejectUndefined →
  ∃ w', exchangeCodeForToken env code w = (Ret false, w')
        ∧ storage w' = <["spotify_access_token" := tok]> (storage w).
Proof.
  intros Hv Hvt Hnet Hbody Htok Htt Hrt Hpol.
  unfold exchangeCodeForToken. step_monad. rewrite Hv.
  destruct verifier as [|a0 r0]; [done|].
  rewrite Hnet, Hbody. simpl. rewrite Htok.
  destruct tok as [|a1 r1]; [done|].
  rewrite Hrt, Hpol. eexists. split; reflexivity.
Qed.

Lemma exchangeCodeForToken_partial_session_witness :
  let env := example_env (scripted [json_reply 200 fresh_token]) in
  let w := example_world [("spotify_code_verifier", "v1")] in
  ∃ w', exchangeCodeForToken env "code1" w = (Ret false, w')
        ∧ storage w' = <["spotify_access_token" := "a1"]> (storage w).
Proof.
  intros env w.
  apply (exchangeCodeForToken_partial_session env "code1" w "v1"
           {| status := 200;
              content_type := Some "application/json; charset=utf-8";
              retry_after := None;
              body := BodyJson fresh_token |}
           {| access_token := Some "a1"; refresh_token := None;
              expires_in := Some 3600 |} "a1");
    reflexivity.
Defined.

(** X26.  The exchange of the redirect screen and the exchange of
    [utils/spotify.ts] do the same (same request, same result, same
    storage) when the redirect URI is the page's origin followed by
    [/redirect] and the token response carries a refresh token and a
    lifetime. *)
Theorem exchanges_agree env (code : string) w verifier resp d rt e :
  REDIRECT_URI env = (window_location_origin env ++ "/redirect")%string →
  storage w !! "spotify_code_verifier" = Some verifier →
  outcome (net env (trace w)
     (token_request [("grant_type", "authorization_code"); ("code", code);
                     ("redirect_uri", REDIRECT_URI env); ("client_id", CLIENT_ID env);
                     ("code_verifier", verifier)])) = Responded resp →
  body resp = BodyJson (JToken d) →
  refresh_token d = Some rt → truthy_str (Some rt) = true →
  expires_in d = Some e → e ≠ 0 →
  RedirectScreen.exchangeCodeForToken env code w = exchangeCodeForToken env code w.
Proof.
  intros Huri Hv Hnet Hbody Hrt Hrtt He He0.
  unfold RedirectScreen.exchangeCodeForToken, exchangeCodeForToken.
  rewrite <- Huri. step_monad. rewrite Hv.
  destruct verifier as [|a0 r0]; [done|].
  rewrite Hnet, Hbody. simpl.
  destruct (access_token d) as [[|a1 r1]|]; try done.
  rewrite Hrt, He. destruct rt as [|a2 r2]; [done|].
  assert (Hnum : truthy_num (Some e) = true).
  { simpl. by apply negb_true_iff, Z.eqb_neq. }
  rewrite Hnum. reflexivity.
Qed.

Lemma exchanges_agree_witness :
  let env := {| net := scripted [json_reply 200
                  (JToken {| access_token := Some "a1"; refresh_token := Some "r1";
                             expires_in := Some 3600 |})];
                random := λ _, 0;
                linking := λ _, CanOpen;
                setItem_undefined := RejectUndefined;
                CLIENT_ID := "client";
                REDIRECT_URI := "https://app.example/redirect";
                window_location_origin := "https://app.example" |} in
  let w := example_world [("spotify_code_verifier", "v1")] in
  RedirectScreen.exchangeCodeForToken env "code1" w = exchangeCodeForToken env "code1" w.
Proof.
  intros env w.
  apply (exchanges_agree env "code1" w "v1"
           {| status := 200;
              content_type := Some "application/json; charset=utf-8";
              retry_after := None;
              body := BodyJson (JToken {| access_token := Some "a1";
                                          refresh_token := Some "r1";
                                          expires_in := Some 3600 |}) |}
           {| access_token := Some "a1"; refresh_token := Some "r1";
              expires_in := Some 3600 |} "r1" 3600);
    try reflexivity.
  lia.
Defined.

(** ** Reading a collection sends page requests only *)

Lemma reads_refl ep w : reads ep w w.
Proof. exists []. by rewrite app_nil_r. Qed.

Lemma reads_trans ep w1 w2 w3 : reads ep w1 w2 → reads ep w2 w3 → reads ep w1 w3.
Proof.
  intros (c1 & H1 & F1) (c2 & H2 & F2). exists (c1 ++ c2).
  split; [by rewrite H2, H1, app_assoc|by apply Forall_app].
Qed.

Lemma makeApiCall_reads env ep off w r w' :
  makeApiCall env (page_query ep off) None NoBody w = (r, w') → reads ep w w'.
Proof.
  intros H. destruct (has_token w) eqn:Ht.
  - apply (makeApiCall_calls _ _ _ _ _ _ _ Ht) in H as (calls & Hstep & Hcalls).
    exists calls. split; [by apply call_step_api_calls|].
    destruct Hcalls as [-> | ->]; repeat constructor; by exists off.
  - rewrite (makeApiCall_no_token _ _ _ _ _ Ht) in H. injection H as _ <-.
    apply reads_refl.
Qed.

Lemma page_promise_reads env ep p w r w' :
  page_promise env ep p w = (r, w') → reads ep w w'.
Proof.
  unfold page_promise. intros H.
  apply try_catch_world in H as [r0 H]; [|intros e; apply quiet_ret].
  apply bind_inv in H as [(data & w1 & Hcall & H)|(e & Hcall & _)];
    apply makeApiCall_reads in Hcall; [|done].
  destruct (items_of data); apply quiet_ret in H; by subst.
Qed.

Lemma batch_reads env ep (fuel : nat) :
  ∀ i j rp w r w', batch env fuel ep i j rp w = (r, w') → reads ep w w'.
Proof.
  induction fuel as [|fuel IH]; intros i j rp w r w' H; cbn [batch] in H.
  - apply quiet_ret in H. subst. apply reads_refl.
  - destruct (_ && _); [|apply quiet_ret in H; subst; apply reads_refl].
    apply bind_inv in H as [(l & w1 & Hp & H)|(e & Hp & _)];
      apply page_promise_reads in Hp; [|done].
    apply bind_inv in H as [(ls & w2 & Hb & H)|(e & Hb & _)];
      apply IH in Hb; pose proof (reads_trans _ _ _ _ Hp Hb) as H12; [|done].
    apply quiet_ret in H. by subst.
Qed.

Lemma sleep_reads ep ms w r w' : sleep ms w = (r, w') → reads ep w w'.
Proof.
  unfold sleep. intros [= _ <-]. exists []. cbn [trace].
  by rewrite api_calls_app.
Qed.

Lemma batches_reads env ep (fuel : nat) :
  ∀ i rp tracks w r w', batches env fuel ep i rp tracks w = (r, w') → reads ep w w'.
Proof.
  induction fuel as [|fuel IH]; intros i rp tracks w r w' H; cbn [batches] in H.
  - apply quiet_ret in H. subst. apply reads_refl.
  - destruct (i <? rp); [|apply quiet_ret in H; subst; apply reads_refl].
    apply bind_inv in H as [(ls & w1 & Hb & H)|(e & Hb & _)];
      apply batch_reads in Hb; [|done].
    apply bind_inv in H as [(? & w2 & Hp & H)|(e & Hp & _)].
    + apply IH in H.
      apply (reads_trans _ _ _ _ Hb). refine (reads_trans _ _ _ _ _ H).
      destruct (_ <? _); [by apply (sleep_reads ep) in Hp|].
      apply quiet_ret in Hp. subst. apply reads_refl.
    + apply (reads_trans _ _ _ _ Hb).
      destruct (_ <? _); [by apply (sleep_reads ep) in Hp|].
      apply quiet_ret in Hp. subst. apply reads_refl.
Qed.

Lemma fetch_all_pages_reads env ep w r w' :
  fetch_all_pages env ep w = (r, w') → reads ep w w'.
Proof.
  unfold fetch_all_pages. intros H.
  apply bind_inv in H as [(data & w1 & Hcall & H)|(e & Hcall & _)];
    apply makeApiCall_reads in Hcall; [|done].
  destruct (items_of data) as [its|]; [|apply quiet_ret in H; by subst].
  destruct (_ || _); [apply quiet_ret in H; by subst|].
  apply batches_reads in H. by apply (reads_trans _ _ _ _ Hcall).
Qed.

Lemma omap_as_track_as_input (l : list SpotifyTrack) :
  omap as_track (as_input <$> l) = l.
Proof.
  induction l as [|t l IH]; [done|].
  cbn [fmap list_fmap]. change (omap as_track (as_input t :: (as_input <$> l)))
    with (match as_track (as_input t) with
          | Some y => y :: omap as_track (as_input <$> l)
          | None => omap as_track (as_input <$> l)
          end).
  rewrite IH. by destruct t.
Qed.

Lemma needs_fetch_as_input (l : list SpotifyTrack) :
  l ≠ [] → needs_fetch (Some (as_input <$> l)) = false.
Proof.
  intros Hne. unfold needs_fetch. rewrite length_fmap.
  apply orb_false_iff. split.
  - destruct l; [done|]. reflexivity.
  - clear Hne. induction l as [|t l IH]; [done|]. exact IH.
Qed.

(** X27.  Resolving the track list of a shuffle returns a supplied list as
    it is, and sends nothing, when the list is not empty and every track of
    it has a [uri].  A list with a track whose [uri] is [null] is treated
    like no list at all.  Whatever is supplied, the only API calls are GET
    requests for pages of one collection: the saved tracks for the playlist
    id "liked-songs", the playlist's tracks for every other id. *)
Theorem resolve_tracks_reads env (playlist : SpotifyPlaylist)
    (tracks : option (list TrackInput)) w r w' :
  resolve_tracks env playlist tracks w = (r, w') →
  reads (tracks_endpoint playlist) w w'
  ∧ (∀ supplied, tracks = Some (as_input <$> supplied) → supplied ≠ [] →
     r = Ret supplied ∧ w' = w)
  ∧ (∀ track, track ∈ default [] tracks → in_uri track = None →
     resolve_tracks env playlist None w = (r, w')).
Proof.
  intros H. split; [|split].
  - unfold resolve_tracks, fetchQuery, tracks_endpoint in *.
    destruct (needs_fetch tracks).
    + destruct (bool_decide _).
      * unfold getUserSavedTracks in H.
        apply try_catch_world in H as [r0 H]; [by apply fetch_all_pages_reads in H|].
        intros e. destruct (_ || _); [apply quiet_ret|apply quiet_throw].
      * unfold getPlaylistTracks in H.
        apply try_catch_world in H as [r0 H]; [by apply fetch_all_pages_reads in H|].
        intros e. apply quiet_throw.
    + apply quiet_ret in H. subst. apply reads_refl.
  - intros supplied -> Hne. unfold resolve_tracks in H.
    rewrite (needs_fetch_as_input supplied Hne) in H.
    change (default [] (Some (as_input <$> supplied))) with (as_input <$> supplied) in H.
    rewrite omap_as_track_as_input in H. unfold ret in H. by injection H as <- <-.
  - intros track Hin Hnull. rewrite <- H. unfold resolve_tracks.
    assert (needs_fetch tracks = true) as ->; [|done].
    destruct tracks as [supplied|]; [|done].
    change (default [] (Some supplied)) with supplied in Hin.
    unfold needs_fetch. apply orb_true_iff. right.
    apply existsb_exists. exists track.
    split; [by apply list_elem_of_In|]. by apply bool_decide_eq_true.
Qed.

Lemma resolve_tracks_reads_witness :
  let env := example_env (paged_provider SPOTIFY_ENDPOINTS.SAVED_TRACKS (example_tracks 60)) in
  let liked := {| playlist_id := "liked-songs"; playlist_uri := "" |} in
  let broken := {| in_id := "t0"; in_name := "Track 0"; in_uri := None |} in
  let run := resolve_tracks env liked (Some [broken]) signed_in in
  reads SPOTIFY_ENDPOINTS.SAVED_TRACKS signed_in run.2
  ∧ resolve_tracks env liked None signed_in = (run.1, run.2).
Proof.
  intros env liked broken run.
  destruct (resolve_tracks_reads env liked (Some [broken]) signed_in run.1 run.2)
    as (Hreads & _ & Hnull).
  - vm_compute. reflexivity.
  - split; [exact Hreads|]. apply (Hnull broken); [|reflexivity].
    apply list_elem_of_In. left. reflexivity.
Defined.
